(** * Javascript-Learning: promises and closures

    A shallow embedding of the two practice scripts of the repository:

    - the promise script ([fetchData] and the demonstrations built on
      [Promise.all], [Promise.race] and [Promise.allSettled]), run on an
      explicit model of the JavaScript job queue and timer queue;
    - [Closure.js] ([createCounter] and its three methods), run on an
      explicit store of closure environments.

    Closures of the scripts are defunctionalised: every arrow function,
    resolving function and async continuation of the source is a constructor
    carrying its captured variables, and one interpreter per kind gives its
    body. *)

From Stdlib Require Import ZArith Lia.
From stdpp Require Import base option list gmap strings pretty.

Set Warnings "-register-all".

Local Open Scope string_scope.
Local Open Scope Z_scope.

(** ** Values *)

(** The values the scripts compute with. Numbers are the integer-valued ones. *)
Inductive value :=
| VUndefined
| VNumber (n : Z)
| VString (s : string)
| VArray (xs : list value)
| VObject (fields : list (string * value))
| VTypeError.

(** ** The console *)

Inductive level := Log | Warn | Error.

Record line := { lvl : level; args : list value }.

(** ** Promises, reactions, jobs and timers *)

(** Promises and aggregate records are named by the order of their creation. *)
Abbreviation pid := nat (only parsing).
Abbreviation aid := nat (only parsing).

Inductive pstate :=
| Pending
| Fulfilled (v : value)
| Rejected (r : value).

(** The five async functions of the script; each has exactly one [await]. *)
Inductive async_fn :=
| GetData | GetAllData | GetFastestData | FetchAllWithErrors | FetchWithAllSettled.

(** Callables that get registered on promises. *)
Inductive handler :=
| HUndefined                                  (* the argument was omitted *)
| HArrow (l : level) (label : string)         (* (x) => console.l(label, x) *)
| HResolve (p : pid)                          (* resolve function of p *)
| HReject (p : pid)                           (* reject function of p *)
| HAllElement (a : aid) (i : nat) (p : pid)   (* Promise.all resolve element *)
| HSettledFulfilled (a : aid) (i : nat) (p : pid)
| HSettledRejected (a : aid) (i : nat) (p : pid)
| HResumeNormal (f : async_fn) (ret : pid)    (* await: resume with the value *)
| HResumeThrow (f : async_fn) (ret : pid).    (* await: resume by throwing *)

(** One call of [then]: both handlers and the derived promise ([None] for
    [await], which has no derived promise). *)
Record reaction := {
  on_fulfilled : handler;
  on_rejected : handler;
  capability : option pid
}.

Record promise := {
  status : pstate;
  already_resolved : bool;       (* shared flag of its resolving functions *)
  reactions : list reaction
}.

(** A promise reaction job. [jsrc] records the promise the job comes from; no
    operation reads it. *)
Record job := {
  jhandler : handler;
  jrejected : bool;
  jcapability : option pid;
  jarg : value;
  jsrc : pid
}.

(** The callback given to [setTimeout] in [fetchData], with the variables it
    closes over. *)
Inductive timer_cb :=
| FetchTimeout (apiName : string) (shouldFail : bool) (p : pid).

Record timer := { due : Z; callback : timer_cb }.

(** The variables shared by the element functions of one [Promise.all] or
    [Promise.allSettled] call. *)
Record aggregate := {
  values : list value;
  remaining : Z;
  called : list bool
}.

(** What happened, in order: settlements (with the time) and handler calls. *)
Inductive event :=
| Settled (p : pid) (s : pstate) (t : Z)
| Notified (src : pid) (h : handler) (arg : value).

Record state := {
  now : Z;
  next_pid : pid;
  promises : gmap nat promise;
  next_aid : aid;
  aggregates : gmap nat aggregate;
  timers : list timer;
  jobs : list job;
  console : list line;
  trace : list event
}.

Definition init : state :=
  {| now := 0; next_pid := 0%nat; promises := ∅; next_aid := 0%nat;
     aggregates := ∅; timers := []; jobs := []; console := []; trace := [] |}.

Definition set_now (t : Z) (st : state) : state :=
  {| now := t; next_pid := next_pid st; promises := promises st;
     next_aid := next_aid st; aggregates := aggregates st;
     timers := timers st; jobs := jobs st; console := console st;
     trace := trace st |}.

Definition set_promises (next : pid) (m : gmap nat promise) (st : state) : state :=
  {| now := now st; next_pid := next; promises := m;
     next_aid := next_aid st; aggregates := aggregates st;
     timers := timers st; jobs := jobs st; console := console st;
     trace := trace st |}.

Definition set_aggregates (next : aid) (m : gmap nat aggregate) (st : state) : state :=
  {| now := now st; next_pid := next_pid st; promises := promises st;
     next_aid := next; aggregates := m;
     timers := timers st; jobs := jobs st; console := console st;
     trace := trace st |}.

Definition set_timers (ts : list timer) (st : state) : state :=
  {| now := now st; next_pid := next_pid st; promises := promises st;
     next_aid := next_aid st; aggregates := aggregates st;
     timers := ts; jobs := jobs st; console := console st;
     trace := trace st |}.

Definition set_jobs (js : list job) (st : state) : state :=
  {| now := now st; next_pid := next_pid st; promises := promises st;
     next_aid := next_aid st; aggregates := aggregates st;
     timers := timers st; jobs := js; console := console st;
     trace := trace st |}.

Definition set_console (c : list line) (st : state) : state :=
  {| now := now st; next_pid := next_pid st; promises := promises st;
     next_aid := next_aid st; aggregates := aggregates st;
     timers := timers st; jobs := jobs st; console := c;
     trace := trace st |}.

Definition set_trace (tr : list event) (st : state) : state :=
  {| now := now st; next_pid := next_pid st; promises := promises st;
     next_aid := next_aid st; aggregates := aggregates st;
     timers := timers st; jobs := jobs st; console := console st;
     trace := tr |}.

(** ** The state monad of the runtime *)

Definition M (A : Type) : Type := state → A * state.

Definition ret {A} (a : A) : M A := λ st, (a, st).

Definition bind {A B} (m : M A) (k : A → M B) : M B :=
  λ st, let (a, st') := m st in k a st'.

#[global] Instance M_ret : MRet M := @ret.
#[global] Instance M_bind : MBind M := λ A B k m, bind m k.

Definition exec {A} (m : M A) (st : state) : state := snd (m st).

Definition modify (f : state → state) : M unit := λ st, (tt, f st).

Definition get_promise (p : pid) : M (option promise) :=
  λ st, (promises st !! p, st).

(** ** Console, allocation and timers *)

Definition console_call (l : level) (xs : list value) : M unit :=
  modify (λ st, set_console (console st ++ [{| lvl := l; args := xs |}]) st).

(** A fresh pending promise with its pair of resolving functions. *)
Definition new_promise : M pid :=
  λ st, let p := next_pid st in
        (p, set_promises (S p)
              (<[p := {| status := Pending; already_resolved := false;
                         reactions := [] |}]> (promises st)) st).

Definition new_aggregate (a : aggregate) : M aid :=
  λ st, let i := next_aid st in
        (i, set_aggregates (S i) (<[i := a]> (aggregates st)) st).

(** [setTimeout(callback, delay)]: the callback becomes due [delay] time
    units from now; a negative delay counts as 0. Timers are kept in the
    order of the calls. *)
Definition setTimeout (cb : timer_cb) (delay : Z) : M unit :=
  modify (λ st, set_timers
                  (timers st ++ [{| due := now st + Z.max 0 delay; callback := cb |}]) st).

(** ** Settling a promise *)

Definition reaction_job (src : pid) (s : pstate) (r : reaction) : job :=
  match s with
  | Rejected x =>
      {| jhandler := on_rejected r; jrejected := true;
         jcapability := capability r; jarg := x; jsrc := src |}
  | Fulfilled x =>
      {| jhandler := on_fulfilled r; jrejected := false;
         jcapability := capability r; jarg := x; jsrc := src |}
  | Pending =>
      {| jhandler := HUndefined; jrejected := false;
         jcapability := None; jarg := VUndefined; jsrc := src |}
  end.

(** FulfillPromise / RejectPromise: store the outcome, drop the reaction list
    and queue one job per registered reaction, in registration order. *)
Definition settle (p : pid) (s : pstate) : M unit :=
  λ st, match promises st !! p with
        | None => (tt, st)
        | Some pr =>
            (tt, set_trace (trace st ++ [Settled p s (now st)])
                   (set_jobs (jobs st ++ map (reaction_job p s) (reactions pr))
                      (set_promises (next_pid st)
                         (<[p := {| status := s; already_resolved := true;
                                    reactions := [] |}]> (promises st)) st)))
        end.

(** The resolving functions of promise [p]. Both look at the shared
    already-resolved flag first. No value of the scripts is a thenable, so
    resolving always fulfils. *)
Definition resolve_fn (p : pid) (v : value) : M unit :=
  o ← get_promise p;
  match o with
  | Some pr => if already_resolved pr then mret tt else settle p (Fulfilled v)
  | None => mret tt
  end.

Definition reject_fn (p : pid) (r : value) : M unit :=
  o ← get_promise p;
  match o with
  | Some pr => if already_resolved pr then mret tt else settle p (Rejected r)
  | None => mret tt
  end.

(** ** [then], [catch] and [await] *)

Definition enqueue (j : job) : M unit :=
  modify (λ st, set_jobs (jobs st ++ [j]) st).

(** PerformPromiseThen. *)
Definition perform_then (p : pid) (onF onR : handler) (cap : option pid) : M unit :=
  let r := {| on_fulfilled := onF; on_rejected := onR; capability := cap |} in
  λ st, match promises st !! p with
        | None => (tt, st)
        | Some pr =>
            match status pr with
            | Pending =>
                (tt, set_promises (next_pid st)
                       (<[p := {| status := Pending;
                                  already_resolved := already_resolved pr;
                                  reactions := reactions pr ++ [r] |}]> (promises st)) st)
            | s => enqueue (reaction_job p s r) st
            end
        end.

Definition then_ (p : pid) (onF onR : handler) : M pid :=
  d ← new_promise;
  perform_then p onF onR (Some d);;
  mret d.

Definition catch_ (p : pid) (onR : handler) : M pid := then_ p HUndefined onR.

Definition await_ (p : pid) (f : async_fn) (retp : pid) : M unit :=
  perform_then p (HResumeNormal f retp) (HResumeThrow f retp) None.

Definition Promise_resolve (v : value) : M pid :=
  p ← new_promise;
  resolve_fn p v;;
  mret p.

Definition Promise_reject (r : value) : M pid :=
  p ← new_promise;
  reject_fn p r;;
  mret p.

(** ** The promise combinators *)

(** The loop the three combinators share: for each input promise, in order,
    run [pre] and call [then] on the input with the handlers of its index. *)
Fixpoint each_then (pre : M unit) (onF onR : nat → handler) (i : nat) (ps : list pid)
  : M unit :=
  match ps with
  | [] => mret tt
  | p :: ps' =>
      pre;;
      then_ p (onF i) (onR i);;
      each_then pre onF onR (S i) ps'
  end.

(** [Promise.all] and [Promise.allSettled] give each input a slot in
    [values] and count it. *)
Definition add_slot (a : aid) : M unit :=
  modify (λ st,
    match aggregates st !! a with
    | Some r =>
        set_aggregates (next_aid st)
          (<[a := {| values := values r ++ [VUndefined];
                     remaining := remaining r + 1;
                     called := called r ++ [false] |}]> (aggregates st)) st
    | None => st
    end).

(** After the loop the count, which started at 1, is decremented; at 0 (no
    input) the aggregate is resolved with the values on the spot. *)
Definition finish_loop (a : aid) (agg : pid) : M unit :=
  λ st, match aggregates st !! a with
        | Some r =>
            let r' := {| values := values r; remaining := remaining r - 1;
                         called := called r |} in
            let st' := set_aggregates (next_aid st) (<[a := r']> (aggregates st)) st in
            if Z.eqb (remaining r') 0 then resolve_fn agg (VArray (values r')) st'
            else (tt, st')
        | None => (tt, st)
        end.

(** [Promise.all]: a resolve-element function per input, the aggregate's own
    reject function as rejection handler. *)
Definition Promise_all (ps : list pid) : M pid :=
  agg ← new_promise;
  a ← new_aggregate {| values := []; remaining := 1; called := [] |};
  each_then (add_slot a) (λ i, HAllElement a i agg) (λ _, HReject agg) 0 ps;;
  finish_loop a agg;;
  mret agg.

(** [Promise.allSettled]: an element function for either outcome. *)
Definition Promise_allSettled (ps : list pid) : M pid :=
  agg ← new_promise;
  a ← new_aggregate {| values := []; remaining := 1; called := [] |};
  each_then (add_slot a) (λ i, HSettledFulfilled a i agg)
    (λ i, HSettledRejected a i agg) 0 ps;;
  finish_loop a agg;;
  mret agg.

(** [Promise.race]: the aggregate's own resolving functions on every input. *)
Definition Promise_race (ps : list pid) : M pid :=
  agg ← new_promise;
  each_then (mret tt) (λ _, HResolve agg) (λ _, HReject agg) 0 ps;;
  mret agg.

(** The body shared by the element functions: they do nothing the second
    time; the first time they store [x] in slot [i], decrement the count and
    at 0 resolve the aggregate with the values. *)
Definition element_fn (a : aid) (i : nat) (agg : pid) (x : value) : M unit :=
  λ st, match aggregates st !! a with
        | Some r =>
            match called r !! i with
            | Some true => (tt, st)
            | _ =>
                let r' := {| values := <[i := x]> (values r);
                             remaining := remaining r - 1;
                             called := <[i := true]> (called r) |} in
                let st' := set_aggregates (next_aid st) (<[a := r']> (aggregates st)) st in
                if Z.eqb (remaining r') 0 then resolve_fn agg (VArray (values r')) st'
                else (tt, st')
            end
        | None => (tt, st)
        end.

Definition settled_fulfilled (x : value) : value :=
  VObject [("status", VString "fulfilled"); ("value", x)].

Definition settled_rejected (x : value) : value :=
  VObject [("status", VString "rejected"); ("reason", x)].

(** ** The async functions after their [await] *)

Inductive completion := Normal (v : value) | Throw (e : value).

(** The elements an array destructuring pattern or [forEach] goes through;
    [None] when the value is not an array (the awaited values of the script
    are the arrays made by the combinators). *)
Definition as_array (v : value) : option (list value) :=
  match v with
  | VArray xs => Some xs
  | _ => None
  end.

(** [result.k]: reading a property of [undefined] throws, of any other value
    without that property gives [undefined]. *)
Definition get_field (k : string) (v : value) : completion :=
  match v with
  | VObject fields =>
      match list_find (λ kv, kv.1 = k) fields with
      | Some (_, kv) => Normal kv.2
      | None => Normal VUndefined
      end
  | VUndefined => Throw VTypeError
  | _ => Normal VUndefined
  end.

Definition is_fulfilled_tag (v : value) : bool :=
  match v with
  | VString s => bool_decide (s = "fulfilled")
  | _ => false
  end.

(** The callback of [results.forEach] in [fetchWithAllSettled]. *)
Definition report_settled (result : value) (index : nat) : M completion :=
  match get_field "status" result with
  | Throw e => mret (Throw e)
  | Normal tag =>
      if is_fulfilled_tag tag then
        match get_field "value" result with
        | Throw e => mret (Throw e)
        | Normal v =>
            console_call Log
              [VString ("API " ++ pretty (Z.of_nat index + 9) ++ " succeeded with data:"); v];;
            mret (Normal VUndefined)
        end
      else
        match get_field "reason" result with
        | Throw e => mret (Throw e)
        | Normal r =>
            console_call Warn
              [VString ("API " ++ pretty (Z.of_nat index + 9) ++ " failed with reason:"); r];;
            mret (Normal VUndefined)
        end
  end.

Fixpoint forEach (f : value → nat → M completion) (xs : list value) (index : nat)
  : M completion :=
  match xs with
  | [] => mret (Normal VUndefined)
  | x :: xs' =>
      c ← f x index;
      match c with
      | Normal _ => forEach f xs' (S index)
      | Throw e => mret (Throw e)
      end
  end.

(** What each async function does once its [await] completes, up to the
    completion of the function itself. *)
Definition resume_body (f : async_fn) (c : completion) : M completion :=
  match f, c with
  | GetData, Normal data =>
      console_call Log [VString "Async/Await data:"; data];;
      mret (Normal VUndefined)
  | GetData, Throw error =>
      console_call Error [VString "Async/Await Error:"; error];;
      mret (Normal VUndefined)
  | GetAllData, Normal v =>
      match as_array v with
      | Some xs =>
          console_call Log
            [VString "All data fetched:"; nth 0 xs VUndefined;
             nth 1 xs VUndefined; nth 2 xs VUndefined]
      | None => console_call Error [VString "Error in Promise.all:"; VTypeError]
      end;;
      mret (Normal VUndefined)
  | GetAllData, Throw error =>
      console_call Error [VString "Error in Promise.all:"; error];;
      mret (Normal VUndefined)
  | GetFastestData, Normal fastestData =>
      console_call Log [VString "Fastest data received:"; fastestData];;
      mret (Normal VUndefined)
  | GetFastestData, Throw error =>
      console_call Error [VString "Error in Promise.race:"; error];;
      mret (Normal VUndefined)
  | FetchAllWithErrors, Normal results =>
      console_call Log [VString "Fetched all successfully:"; results];;
      mret (Normal VUndefined)
  | FetchAllWithErrors, Throw error =>
      console_call Error [VString "Error in one of the APIs:"; error];;
      mret (Normal VUndefined)
  | FetchWithAllSettled, Normal results =>
      match as_array results with
      | Some xs => forEach report_settled xs 0
      | None => mret (Throw VTypeError)
      end
  | FetchWithAllSettled, Throw error => mret (Throw error)
  end.

(** Resuming an async function: run the rest of its body, then settle the
    promise the call returned. *)
Definition resume (f : async_fn) (c : completion) (retp : pid) : M unit :=
  r ← resume_body f c;
  match r with
  | Normal v => resolve_fn retp v
  | Throw e => reject_fn retp e
  end.

(** ** Running handlers, jobs and timers *)

Definition call_handler (h : handler) (rejected : bool) (x : value) : M completion :=
  match h with
  | HUndefined => mret (if rejected then Throw x else Normal x)
  | HArrow l label => console_call l [VString label; x];; mret (Normal VUndefined)
  | HResolve p => resolve_fn p x;; mret (Normal VUndefined)
  | HReject p => reject_fn p x;; mret (Normal VUndefined)
  | HAllElement a i agg => element_fn a i agg x;; mret (Normal VUndefined)
  | HSettledFulfilled a i agg =>
      element_fn a i agg (settled_fulfilled x);; mret (Normal VUndefined)
  | HSettledRejected a i agg =>
      element_fn a i agg (settled_rejected x);; mret (Normal VUndefined)
  | HResumeNormal f retp => resume f (Normal x) retp;; mret (Normal VUndefined)
  | HResumeThrow f retp => resume f (Throw x) retp;; mret (Normal VUndefined)
  end.

(** A promise reaction job: call the handler, then settle the derived promise
    with what the handler returned or threw. *)
Definition react (j : job) : M unit :=
  c ← call_handler (jhandler j) (jrejected j) (jarg j);
  match jcapability j, c with
  | None, _ => mret tt
  | Some d, Normal v => resolve_fn d v
  | Some d, Throw e => reject_fn d e
  end.

(** Running a job, with the call noted in the trace. *)
Definition run_job (j : job) : M unit :=
  modify (λ st, set_trace (trace st ++ [Notified (jsrc j) (jhandler j) (jarg j)]) st);;
  react j.

(** The arrow function given to [setTimeout] in [fetchData]. *)
Definition run_timer (cb : timer_cb) : M unit :=
  match cb with
  | FetchTimeout apiName shouldFail p =>
      if shouldFail then reject_fn p (VString ("Error fetching data from " ++ apiName))
      else resolve_fn p (VString (apiName ++ " data"))
  end.

(** ** fetchData *)

(** [function fetchData(apiName, delay = 1000, shouldFail = false)]; an
    omitted argument is [None]. The executor runs at once and only sets the
    timer. *)
Definition fetchData (apiName : string) (delay : option Z) (shouldFail : option bool) : M pid :=
  let delay := default 1000 delay in
  let shouldFail := default false shouldFail in
  p ← new_promise;
  setTimeout (FetchTimeout apiName shouldFail p) delay;;
  mret p.

(** ** The event loop *)

(** The timer that is due first, the earlier call winning a tie, and the
    timers that stay, in their order. *)
Fixpoint pop_timer (ts : list timer) : option (timer * list timer) :=
  match ts with
  | [] => None
  | t :: ts' =>
      match pop_timer ts' with
      | Some (u, rest) =>
          if (due u <? due t)%Z then Some (u, t :: rest) else Some (t, ts')
      | None => Some (t, ts')
      end
  end.

(** One turn: the oldest queued job if there is one, otherwise the next timer
    (the clock moves to its due time); [None] when nothing is left to do. *)
Definition step (st : state) : option state :=
  match jobs st with
  | j :: js => Some (exec (run_job j) (set_jobs js st))
  | [] =>
      match pop_timer (timers st) with
      | Some (t, rest) =>
          Some (exec (run_timer (callback t))
                  (set_now (Z.max (now st) (due t)) (set_timers rest st)))
      | None => None
      end
  end.

Fixpoint run_for (fuel : nat) (st : state) : state :=
  match fuel with
  | O => st
  | S n =>
      match step st with
      | Some st' => run_for n st'
      | None => st
      end
  end.

(** Every turn consumes a timer, a job or a registered reaction, so their
    number bounds the number of turns. *)
Definition work (st : state) : nat :=
  (length (timers st) + length (jobs st) +
   map_fold (λ _ pr n, length (reactions pr) + n) 0 (promises st))%nat.

Definition run (st : state) : state := run_for (work st) st.

Definition quiescent (st : state) : Prop := jobs st = [] ∧ timers st = [].

(** Running a script: its synchronous part, then the event loop. *)
Definition run_script {A} (m : M A) : A * state :=
  let (a, st) := m init in (a, run st).

(** ** The demonstrations of the script *)

(** An array literal of calls: the elements are evaluated left to right. *)
Fixpoint array_of (calls : list (M pid)) : M (list pid) :=
  match calls with
  | [] => mret []
  | c :: cs => p ← c; ps ← array_of cs; mret (p :: ps)
  end.

(** 1. [fetchData("API 1", 500).then(...).catch(...)] *)
Definition demo_then_catch : M pid :=
  p ← fetchData "API 1" (Some 500) None;
  d ← then_ p (HArrow Log "Data received:") HUndefined;
  catch_ d (HArrow Error "Failed to fetch data:").

Definition getData : M pid :=
  retp ← new_promise;
  p ← fetchData "API 2" (Some 1000) None;
  await_ p GetData retp;;
  mret retp.

Definition getAllData : M pid :=
  retp ← new_promise;
  ps ← array_of [fetchData "API 3" (Some 1000) None;
                 fetchData "API 4" (Some 1500) None;
                 fetchData "API 5" (Some 2000) None];
  agg ← Promise_all ps;
  await_ agg GetAllData retp;;
  mret retp.

Definition getFastestData : M pid :=
  retp ← new_promise;
  ps ← array_of [fetchData "Fast API" (Some 500) None;
                 fetchData "Slower API" (Some 1000) None;
                 fetchData "Slowest API" (Some 1500) None];
  agg ← Promise_race ps;
  await_ agg GetFastestData retp;;
  mret retp.

Definition alwaysResolve : M pid := Promise_resolve (VString "This is resolved data").

Definition alwaysReject : M pid :=
  Promise_reject (VString "This promise is always rejected").

Definition fetchAllWithErrors : M pid :=
  retp ← new_promise;
  promises ← array_of [fetchData "API 6" (Some 800) None;
                       fetchData "API 7" (Some 1200) (Some true);
                       fetchData "API 8" (Some 1000) None];
  agg ← Promise_all promises;
  await_ agg FetchAllWithErrors retp;;
  mret retp.

Definition fetchWithAllSettled : M pid :=
  retp ← new_promise;
  promises ← array_of [fetchData "API 9" (Some 1000) None;
                       fetchData "API 10" (Some 500) (Some true);
                       fetchData "API 11" (Some 1500) None];
  agg ← Promise_allSettled promises;
  await_ agg FetchWithAllSettled retp;;
  mret retp.

(** The whole script, top to bottom. *)
Definition script : M unit :=
  demo_then_catch;;
  getData;;
  getAllData;;
  getFastestData;;
  p ← alwaysResolve; then_ p (HArrow Log "Resolved:") HUndefined;;
  q ← alwaysReject; catch_ q (HArrow Error "Rejected:");;
  fetchAllWithErrors;;
  fetchWithAllSettled;;
  mret tt.

(** ** Closure.js *)

(** Numbers are IEEE 754 doubles. On integers: every integer up to 2^53 in
    absolute value is a double; a larger one is rounded to the nearest
    multiple of the spacing of its binade, a tie going to the even
    significand. (Overflow to infinity, from 2^1024 on, is left out.) *)
Definition round_number (z : Z) : Z :=
  let a := Z.abs z in
  if (a <=? 2 ^ 53)%Z then z
  else
    let ulp := 2 ^ (Z.log2 a - 52) in
    let q := a / ulp in
    let r := a mod ulp in
    let q' := if (2 * r <? ulp)%Z then q
              else if (ulp <? 2 * r)%Z then q + 1
              else if Z.even q then q else q + 1 in
    Z.sgn z * (q' * ulp).

Definition number_add (x y : Z) : Z := round_number (x + y).
Definition number_sub (x y : Z) : Z := round_number (x - y).

Abbreviation env := nat (only parsing).

(** The heap of [Closure.js]: one [count] variable per call of
    [createCounter], and the console. *)
Record store := {
  counts : gmap nat Z;
  next_env : env;
  output : list line
}.

Definition empty_store : store := {| counts := ∅; next_env := 0%nat; output := [] |}.

(** The three methods of the returned object, each closed over the [count]
    of its own call. *)
Inductive method :=
| Increment (e : env)
| Decrement (e : env)
| Reset (e : env).

Record counter := { increment : method; decrement : method; reset : method }.

(** The object literal that [createCounter] returns. *)
Definition counter_object (e : env) : counter :=
  {| increment := Increment e; decrement := Decrement e; reset := Reset e |}.

Definition createCounter (st : store) : counter * store :=
  let e := next_env st in
  (counter_object e,
   {| counts := <[e := 0]> (counts st); next_env := S e; output := output st |}).

Definition call (m : method) (st : store) : store :=
  match m with
  | Increment e =>
      match counts st !! e with
      | Some count =>
          let count := number_add count 1 in
          {| counts := <[e := count]> (counts st); next_env := next_env st;
             output := output st ++
                       [{| lvl := Log; args := [VString "Current count:"; VNumber count] |}] |}
      | None => st
      end
  | Decrement e =>
      match counts st !! e with
      | Some count =>
          let count := number_sub count 1 in
          {| counts := <[e := count]> (counts st); next_env := next_env st;
             output := output st ++
                       [{| lvl := Log; args := [VString "Current count:"; VNumber count] |}] |}
      | None => st
      end
  | Reset e =>
      match counts st !! e with
      | Some _ =>
          {| counts := <[e := 0]> (counts st); next_env := next_env st;
             output := output st ++
                       [{| lvl := Log; args := [VString "Counter reset."] |}] |}
      | None => st
      end
  end.

(** The environment a method is closed over, and the [count] in it. *)
Definition env_of (m : method) : env :=
  match m with Increment e | Decrement e | Reset e => e end.

Definition count_of (c : counter) (st : store) : option Z :=
  counts st !! env_of (increment c).

(** The lines 29 to 33 of the script. *)
Definition counter_demo : store :=
  let (counter, st) := createCounter empty_store in
  let st := call (increment counter) st in
  let st := call (increment counter) st in
  let st := call (decrement counter) st in
  call (reset counter) st.


(** A run of increments and decrements on one counter. *)
Inductive op := Inc | Dec.

#[global] Instance op_eq_dec : EqDecision op.
Proof. solve_decision. Defined.

Definition method_of (c : counter) (o : op) : method :=
  match o with Inc => increment c | Dec => decrement c end.

Definition apply_ops (c : counter) (ops : list op) (st : store) : store :=
  fold_left (λ st o, call (method_of c o) st) ops st.

Definition count_op (o : op) (ops : list op) : Z :=
  Z.of_nat (length (filter (λ x, x = o) ops)).


(** What may happen to the store between two moments: calls of
    [createCounter] and calls of methods. *)
Inductive action :=
| Create
| Call (m : method).

Definition perform (a : action) (st : store) : store :=
  match a with
  | Create => (createCounter st).2
  | Call m => call m st
  end.

Definition perform_all (acts : list action) (st : store) : store :=
  fold_left (λ st a, perform a st) acts st.

Definition methods (c : counter) : list method := [increment c; decrement c; reset c].

Definition count_line (n : Z) : line :=
  {| lvl := Log; args := [VString "Current count:"; VNumber n] |}.

(** *** [setupButton] *)

(** The function given to [addEventListener], closed over [buttonId] and
    over the [clickCount] of its call of [setupButton]. *)
Inductive listener := OnClick (buttonId : string) (e : env).

Definition listener_env (l : listener) : env :=
  match l with OnClick _ e => e end.

(** The page the script runs in: the heap and console of the script, the ids
    for which [document.getElementById] finds an element, and the listeners
    for "click" registered on each of these elements, in the order of their
    registration. *)
Record page := {
  heap : store;
  elements : gset string;
  click_listeners : gmap string (list listener)
}.

Definition empty_page (ids : gset string) : page :=
  {| heap := empty_store; elements := ids; click_listeners := ∅ |}.

Definition listeners_of (id : string) (pg : page) : list listener :=
  default [] (click_listeners pg !! id).

Definition set_heap (h : store) (pg : page) : page :=
  {| heap := h; elements := elements pg; click_listeners := click_listeners pg |}.

(** [setupButton(buttonId)]: [clickCount] gets its cell; [getElementById]
    gives [null] when no element has the id, and calling [addEventListener]
    on [null] throws a TypeError; otherwise the new function is added after
    the listeners the button has (a new function is never a duplicate). *)
Definition setupButton (buttonId : string) (pg : page) : completion * page :=
  let e := next_env (heap pg) in
  let h := {| counts := <[e := 0]> (counts (heap pg)); next_env := S e;
              output := output (heap pg) |} in
  if decide (buttonId ∈ elements pg) then
    (Normal VUndefined,
     {| heap := h; elements := elements pg;
        click_listeners :=
          <[buttonId := (listeners_of buttonId pg ++ [OnClick buttonId e])%list]>
            (click_listeners pg) |})
  else (Throw VTypeError, set_heap h pg).

(** The line the listener logs; the count is a whole number below 10^21,
    which the template literal prints in decimal. *)
Definition click_line (buttonId : string) (clickCount : Z) : line :=
  {| lvl := Log;
     args := [VString ("Button " ++ buttonId ++ " clicked " ++ pretty clickCount
                       ++ " times.")] |}.

(** The body of the listener: [clickCount++], then the log. *)
Definition run_listener (l : listener) (h : store) : store :=
  match l with
  | OnClick buttonId e =>
      match counts h !! e with
      | Some clickCount =>
          let clickCount := number_add clickCount 1 in
          {| counts := <[e := clickCount]> (counts h); next_env := next_env h;
             output := output h ++ [click_line buttonId clickCount] |}
      | None => h
      end
  end.

Definition run_listeners (ls : list listener) (h : store) : store :=
  fold_left (λ h l, run_listener l h) ls h.

(** A click on the element with the given id: its listeners run in the order
    of their registration. *)
Definition click (id : string) (pg : page) : page :=
  set_heap (run_listeners (listeners_of id pg) (heap pg)) pg.

(** What may happen on the page: calls of [setupButton] and clicks. *)
Inductive interaction :=
| SetupButton (id : string)
| ClickOn (id : string).

#[global] Instance interaction_eq_dec : EqDecision interaction.
Proof. solve_decision. Defined.

Definition interact (i : interaction) (pg : page) : page :=
  match i with
  | SetupButton id => (setupButton id pg).2
  | ClickOn id => click id pg
  end.

Definition interact_all (evs : list interaction) (pg : page) : page :=
  fold_left (λ pg i, interact i pg) evs pg.

Definition count_of_interaction (i : interaction) (evs : list interaction) : nat :=
  length (filter (λ x, x = i) evs).

(** Every listener of the page has its [clickCount], made by an earlier call
    of [setupButton]. *)
Definition in_range (h : store) : Prop :=
  ∀ e v, counts h !! e = Some v → - 2 ^ 53 ≤ v ≤ 2 ^ 53.

Definition page_ok (pg : page) : Prop :=
  ∀ id l, l ∈ listeners_of id pg →
    (listener_env l < next_env (heap pg))%nat ∧ is_Some (counts (heap pg) !! listener_env l).

(** The file from top to bottom: the lines 29 to 33, then
    [setupButton("myButton")]. *)
Definition closure_script (ids : gset string) : completion * page :=
  setupButton "myButton" (set_heap counter_demo (empty_page ids)).

(** ** What a handler, a job and a timer can act on *)

(** The promise a handler may settle and the aggregate record it may write. *)
Definition htarget (h : handler) (q : pid) : Prop :=
  match h with
  | HUndefined | HArrow _ _ => False
  | HResolve p | HReject p => q = p
  | HAllElement _ _ p | HSettledFulfilled _ _ p | HSettledRejected _ _ p => q = p
  | HResumeNormal _ retp | HResumeThrow _ retp => q = retp
  end.

Definition hcell (h : handler) (b : aid) : Prop :=
  match h with
  | HAllElement a _ _ | HSettledFulfilled a _ _ | HSettledRejected a _ _ => b = a
  | _ => False
  end.

Definition jtarget (j : job) (q : pid) : Prop :=
  htarget (jhandler j) q ∨ jcapability j = Some q.

Definition rtarget (r : reaction) (q : pid) : Prop :=
  htarget (on_fulfilled r) q ∨ htarget (on_rejected r) q ∨ capability r = Some q.

Definition rcell (r : reaction) (b : aid) : Prop :=
  hcell (on_fulfilled r) b ∨ hcell (on_rejected r) b.

Definition timer_target (t : timer) : pid :=
  match callback t with FetchTimeout _ _ p => p end.

(** The settled form of a promise. *)
Definition settled (s : pstate) : promise :=
  {| status := s; already_resolved := true; reactions := [] |}.

Definition pending_with (rs : list reaction) : promise :=
  {| status := Pending; already_resolved := false; reactions := rs |}.

(** ** Vocabulary of the proofs *)

(** [preserves R m]: every run of [m] relates the state before to the state
    after. With a preorder [R] this goes through sequencing. *)
Definition preserves {A} (R : relation state) (m : M A) : Prop :=
  ∀ st, R st (m st).2.

Definition reaction_count (m : gmap nat promise) : nat :=
  map_fold (λ _ pr n, length (reactions pr) + n)%nat 0%nat m.


(** The jobs queued plus the reactions registered. *)
Definition backlog (st : state) : nat :=
  (length (jobs st) + reaction_count (promises st))%nat.

(** Handlers move reactions to the job queue but never create any. *)
Definition same_backlog : relation state :=
  λ st st', backlog st' = backlog st ∧ timers st' = timers st.

(** The states the loop goes through. *)
Definition steps : relation state := rtc (λ st st', step st = Some st').

(** [touches T A st st']: between [st] and [st'] only promises in [T] were
    settled (each from unresolved to a settled form), only aggregate records
    in [A] were written, the new jobs come from reactions that were
    registered on promises in [T], and nothing else moved but the logs. *)
Record touches (T : pid → Prop) (A : aid → Prop) (st st' : state) : Prop := {
  t_promises : ∀ p,
    promises st' !! p = promises st !! p
    ∨ (T p ∧ ∃ pr s, promises st !! p = Some pr ∧ already_resolved pr = false
                     ∧ s ≠ Pending ∧ promises st' !! p = Some (settled s));
  t_aggregates : ∀ a, ¬ A a → aggregates st' !! a = aggregates st !! a;
  t_timers : timers st' = timers st;
  t_now : now st' = now st;
  t_next_pid : next_pid st' = next_pid st;
  t_next_aid : next_aid st' = next_aid st;
  t_jobs : ∃ new, jobs st' = (jobs st ++ new)%list
                  ∧ ∀ j, j ∈ new →
                      T (jsrc j)
                      ∧ ∃ pr r s, promises st !! jsrc j = Some pr ∧ r ∈ reactions pr
                                  ∧ s ≠ Pending ∧ j = reaction_job (jsrc j) s r;
  t_trace : ∃ ev, trace st' = (trace st ++ ev)%list;
  t_console : ∃ ls, console st' = (console st ++ ls)%list
}.


(** What the timer of [fetchData] settles its promise with. *)
Definition outcome (apiName : string) (shouldFail : bool) : pstate :=
  if shouldFail then Rejected (VString ("Error fetching data from " ++ apiName))
  else Fulfilled (VString (apiName ++ " data")).

(** A promise made by [fetchData] that is followed through the loop: its
    name, the arguments of the call, the time its timer is due and the
    reactions registered on it before the loop starts. *)
Record input := {
  ip : nat;
  iname : string;
  ifail : bool;
  idue : Z;
  irs : list reaction
}.

Definition input_timer (d : input) : timer :=
  {| due := idue d; callback := FetchTimeout (iname d) (ifail d) (ip d) |}.

Definition input_outcome (d : input) : pstate := outcome (iname d) (ifail d).

Definition input_jobs (d : input) : list job :=
  map (reaction_job (ip d) (input_outcome d)) (irs d).

(** Everything that was there before [base] and [abase] were the next free
    names only refers to older promises and records; no timer is overdue. *)
Record sane (base abase : nat) (st : state) : Prop := {
  sane_reactions : ∀ p pr r,
    promises st !! p = Some pr → r ∈ reactions pr → (p < base)%nat →
    (∀ q, rtarget r q → (q < base)%nat) ∧ (∀ b, rcell r b → (b < abase)%nat);
  sane_jobs : ∀ j,
    j ∈ jobs st → (jsrc j < base)%nat →
    (∀ q, jtarget j q → (q < base)%nat) ∧ (∀ b, hcell (jhandler j) b → (b < abase)%nat);
  sane_timers : ∀ t, t ∈ timers st → now st ≤ due t
}.

(** The inputs are new, distinct, and their reactions act on new promises
    that are not inputs. *)
Record inputs_ok (base : nat) (ins : list input) : Prop := {
  io_new : ∀ d, d ∈ ins → (base ≤ ip d)%nat;
  io_inj : ∀ d d', d ∈ ins → d' ∈ ins → ip d = ip d' → d = d';
  io_targets : ∀ d r q, d ∈ ins → r ∈ irs d → rtarget r q →
               (base ≤ q)%nat ∧ ∀ d', d' ∈ ins → q ≠ ip d'
}.

Definition waiting (d : input) (st : state) : Prop :=
  promises st !! ip d = Some (pending_with (irs d)) ∧ input_timer d ∈ timers st.

Definition done (d : input) (st : state) : Prop :=
  promises st !! ip d = Some (settled (input_outcome d))
  ∧ Settled (ip d) (input_outcome d) (idue d) ∈ trace st.

(** Each input waits for its timer or is settled with its outcome; the new
    jobs and timers are those of the inputs; no other new promise has a
    reaction. *)
Record inputs_inv (base : nat) (ins : list input) (st : state) : Prop := {
  ii_phase : ∀ d, d ∈ ins → waiting d st ∨ done d st;
  ii_jobs : ∀ j, j ∈ jobs st → (base ≤ jsrc j)%nat →
            ∃ d, d ∈ ins ∧ jsrc j = ip d ∧ done d st ∧ j ∈ input_jobs d;
  ii_timers : ∀ t, t ∈ timers st → (base ≤ timer_target t)%nat →
              ∃ d, d ∈ ins ∧ t = input_timer d;
  ii_others : ∀ q pr, (base ≤ q)%nat → (∀ d, d ∈ ins → q ≠ ip d) →
              promises st !! q = Some pr → reactions pr = []
}.

(** The turns of the loop, seen from the inputs: a job or a timer from
    before, the timer of an input, or a job of an input. *)
Inductive turn (base abase : nat) (ins : list input) (st st' : state) : Prop :=
| turn_old_job j js :
    jobs st = j :: js → (jsrc j < base)%nat →
    touches (λ q, (q < base)%nat) (λ b, (b < abase)%nat) (set_jobs js st) st' →
    turn base abase ins st st'
| turn_old_timer t rest :
    jobs st = [] → pop_timer (timers st) = Some (t, rest) →
    (timer_target t < base)%nat →
    touches (λ q, (q < base)%nat) (λ b, (b < abase)%nat)
      (set_now (Z.max (now st) (due t)) (set_timers rest st)) st' →
    turn base abase ins st st'
| turn_input_timer d rest :
    d ∈ ins → jobs st = [] → pop_timer (timers st) = Some (input_timer d, rest) →
    waiting d st →
    promises st' = <[ip d := settled (input_outcome d)]> (promises st) →
    jobs st' = input_jobs d →
    timers st' = rest →
    aggregates st' = aggregates st →
    trace st' = (trace st ++ [Settled (ip d) (input_outcome d) (idue d)])%list →
    turn base abase ins st st'
| turn_input_timer_again d rest :
    d ∈ ins → jobs st = [] → pop_timer (timers st) = Some (input_timer d, rest) →
    done d st →
    st' = set_now (Z.max (now st) (idue d)) (set_timers rest st) →
    turn base abase ins st st'
| turn_input_job d j js :
    d ∈ ins → jobs st = j :: js → j ∈ input_jobs d → done d st →
    st' = (run_job j (set_jobs js st)).2 →
    touches (λ q, (base ≤ q)%nat ∧ ∀ d', d' ∈ ins → q ≠ ip d') (hcell (jhandler j))
      (set_jobs js st) st' →
    jobs st' = js →
    turn base abase ins st st'.

(** ** Calls of [fetchData] with all three arguments given *)

Record request := { api : string; latency : Z; failing : bool }.

Definition fetch (r : request) : M pid :=
  fetchData (api r) (Some (latency r)) (Some (failing r)).

(** The array literal [[fetchData(..), fetchData(..), ...]]. *)
Definition fetch_all (rs : list request) : M (list pid) := array_of (map fetch rs).

Definition status_of (st : state) (p : pid) : option pstate :=
  status <$> promises st !! p.

(** The calls in the array literals of the script: of [getAllData],
    [getFastestData], [fetchAllWithErrors] and [fetchWithAllSettled]. *)
Definition all_requests : list request :=
  [ {| api := "API 3"; latency := 1000; failing := false |};
    {| api := "API 4"; latency := 1500; failing := false |};
    {| api := "API 5"; latency := 2000; failing := false |} ].

Definition fast_request : request :=
  {| api := "Fast API"; latency := 500; failing := false |}.

Definition fastest_requests : list request :=
  [ fast_request;
    {| api := "Slower API"; latency := 1000; failing := false |};
    {| api := "Slowest API"; latency := 1500; failing := false |} ].

Definition error_requests : list request :=
  [ {| api := "API 6"; latency := 800; failing := false |};
    {| api := "API 7"; latency := 1200; failing := true |};
    {| api := "API 8"; latency := 1000; failing := false |} ].

Definition allSettled_requests : list request :=
  [ {| api := "API 9"; latency := 1000; failing := false |};
    {| api := "API 10"; latency := 500; failing := true |};
    {| api := "API 11"; latency := 1500; failing := false |} ].

(** ** Well-formed states *)

(** Everything in the state refers to promises and aggregate records that
    exist, and no timer is overdue. *)
Record wf (st : state) : Prop := {
  wf_dom : ∀ p pr, promises st !! p = Some pr → (p < next_pid st)%nat;
  wf_reactions : ∀ p pr r,
    promises st !! p = Some pr → r ∈ reactions pr →
    (∀ q, rtarget r q → (q < next_pid st)%nat) ∧ (∀ b, rcell r b → (b < next_aid st)%nat);
  wf_jobs : ∀ j, j ∈ jobs st →
    (jsrc j < next_pid st)%nat
    ∧ (∀ q, jtarget j q → (q < next_pid st)%nat)
    ∧ (∀ b, hcell (jhandler j) b → (b < next_aid st)%nat);
  wf_timers : ∀ t, t ∈ timers st → (timer_target t < next_pid st)%nat ∧ now st ≤ due t
}.

(** The timer that [fetch r] sets when called at time [t0] for promise [p]. *)
Definition request_timer (t0 : Z) (p : pid) (r : request) : timer :=
  {| due := t0 + Z.max 0 (latency r);
     callback := FetchTimeout (api r) (failing r) p |}.

(** [k] fresh pending promises from [base] on. *)
Fixpoint with_pending (m : gmap nat promise) (base k : nat) : gmap nat promise :=
  match k with
  | O => m
  | S k' => with_pending (<[base := pending_with []]> m) (S base) k'
  end.

(** The reaction that [then] with handlers [onF], [onR] registers, [d] being
    the derived promise. *)
Definition then_reaction (onF onR : handler) (d : pid) : reaction :=
  {| on_fulfilled := onF; on_rejected := onR; capability := Some d |}.

(** What [add_slot a] does to the aggregate records. *)
Definition slot_added (a : aid) (m : gmap nat aggregate) : gmap nat aggregate :=
  match m !! a with
  | Some r =>
      <[a := {| values := values r ++ [VUndefined];
                remaining := remaining r + 1;
                called := called r ++ [false] |}]> m
  | None => m
  end.

(** The inputs made by [fetch_all rs] at time [t0] from name [base] on, with
    the reactions [mk i] on the input of index [i]. *)
Definition batch_inputs (t0 : Z) (base : nat) (mk : nat → list reaction)
    (rs : list request) : list input :=
  imap (λ i r, {| ip := base + i; iname := api r; ifail := failing r;
                  idue := t0 + Z.max 0 (latency r); irs := mk i |}) rs.

(** The state [st2] reached from [st] by [fetch_all rs] and a combinator that
    registered the reactions [mk i] on input [i]. *)
Record set_up (st st2 : state) (mk : nat → list reaction) (rs : list request) : Prop := {
  su_inputs : ∀ i r, rs !! i = Some r →
              promises st2 !! (next_pid st + i)%nat = Some (pending_with (mk i));
  su_old : ∀ q, (q < next_pid st)%nat → promises st2 !! q = promises st !! q;
  su_new : ∀ q pr, (next_pid st + length rs ≤ q)%nat →
           promises st2 !! q = Some pr → reactions pr = [];
  su_timers : timers st2
              = (timers st ++ imap (λ i r, request_timer (now st) (next_pid st + i) r) rs)%list;
  su_jobs : jobs st2 = jobs st;
  su_now : now st2 = now st;
  su_trace : trace st2 = trace st;
  su_targets : ∀ i r q, (i < length rs)%nat → r ∈ mk i → rtarget r q →
               (next_pid st + length rs ≤ q)%nat
}.


(** The handlers a script passes to [then] and [catch]: an arrow function
    that logs, or nothing. *)
Definition user_handler (h : handler) : Prop :=
  match h with
  | HUndefined | HArrow _ _ => True
  | _ => False
  end.

(** The argument a settled promise hands to its observers. *)
Definition payload (s : pstate) : value :=
  match s with
  | Pending => VUndefined
  | Fulfilled v => v
  | Rejected r => r
  end.



(** What the job of an input does to the aggregate of [Promise.all] or
    [Promise.allSettled]: fill its slot with a value, or reject. *)
Definition slot_filled (r : aggregate) (i : nat) (x : value) : aggregate :=
  {| values := <[i := x]> (values r);
     remaining := remaining r - 1;
     called := <[i := true]> (called r) |}.

Definition slot_effect (a : aid) (i : nat) (agg : pid) (x : value) (s s' : state) : Prop :=
  ∀ r, aggregates s !! a = Some r →
    (called r !! i = Some true →
       aggregates s' !! a = Some r ∧ promises s' !! agg = promises s !! agg)
    ∧ (called r !! i = Some false →
       aggregates s' !! a = Some (slot_filled r i x)
       ∧ (remaining r - 1 ≠ 0 → promises s' !! agg = promises s !! agg)
       ∧ (remaining r - 1 = 0 →
          (promises s !! agg = Some (pending_with []) →
           promises s' !! agg
           = Some (settled (Fulfilled (VArray (<[i := x]> (values r))))))
          ∧ (∀ pr, promises s !! agg = Some pr → already_resolved pr = true →
             promises s' !! agg = Some pr))).

Definition reject_effect (a : aid) (agg : pid) (o : pstate) (s s' : state) : Prop :=
  aggregates s' !! a = aggregates s !! a
  ∧ (promises s !! agg = Some (pending_with []) → promises s' !! agg = Some (settled o))
  ∧ (∀ pr, promises s !! agg = Some pr → already_resolved pr = true →
     promises s' !! agg = Some pr).

Definition settled_in (d : input) (s : state) : Prop :=
  promises s !! ip d = Some (settled (input_outcome d)).

Definition queued (d : input) (s : state) : Prop :=
  ∃ j, j ∈ input_jobs d ∧ j ∈ jobs s.

(** The slots not yet filled. *)
Definition open_slots (l : list bool) : nat := length (filter (λ b, b = false) l).

(** The invariant of [Promise.all] and [Promise.allSettled] between turns.
    [idx d] is the position of input [d]; [slot d] is the value its job puts
    in its slot, or [None] when its job rejects the aggregate. *)
Definition collect_inv (ins : list input) (idx : input → nat)
    (slot : input → option value) (a : aid) (agg : pid) (k : nat) (s : state) : Prop :=
  ∃ r, aggregates s !! a = Some r
    ∧ length (values r) = k ∧ length (called r) = k
    ∧ remaining r = Z.of_nat (open_slots (called r))
    ∧ (∀ d, d ∈ ins → called r !! idx d = Some true →
         settled_in d s ∧ ∃ x, slot d = Some x ∧ values r !! idx d = Some x)
    ∧ (∀ d x, d ∈ ins → slot d = Some x → called r !! idx d = Some false →
         settled_in d s → queued d s)
    ∧ ((promises s !! agg = Some (pending_with []) ∧ 0 < remaining r
        ∧ ∀ d, d ∈ ins → slot d = None → settled_in d s → queued d s)
       ∨ (promises s !! agg = Some (settled (Fulfilled (VArray (values r))))
          ∧ ∀ i, (i < k)%nat → called r !! i = Some true)
       ∨ (∃ d, d ∈ ins ∧ slot d = None
               ∧ promises s !! agg = Some (settled (input_outcome d)))).

(** What the layer needs to know about the inputs. *)
Record collect_ok (base abase : nat) (ins : list input) (idx : input → nat)
    (slot : input → option value) (a : aid) (agg : pid) (k : nat) : Prop := {
  co_idx : ∀ d, d ∈ ins → (idx d < k)%nat;
  co_inj : ∀ d d', d ∈ ins → d' ∈ ins → idx d = idx d' → d = d';
  co_a : (abase ≤ a)%nat;
  co_agg : (base ≤ agg)%nat;
  co_agg_ne : ∀ d, d ∈ ins → agg ≠ ip d;
  co_jobs : ∀ d, d ∈ ins → input_jobs d ≠ [];
  co_slot : ∀ d x j s, d ∈ ins → slot d = Some x → j ∈ input_jobs d →
            slot_effect a (idx d) agg x s (run_job j s).2;
  co_reject : ∀ d j s, d ∈ ins → slot d = None → j ∈ input_jobs d →
              reject_effect a agg (input_outcome d) s (run_job j s).2
}.

(** The shape [Promise.all] and [Promise.allSettled] have in common. *)
Definition collector (onF onR : aid → pid → nat → handler) (ps : list pid) : M pid :=
  agg ← new_promise;
  a ← new_aggregate {| values := []; remaining := 1; called := [] |};
  each_then (add_slot a) (onF a agg) (onR a agg) 0 ps;;
  finish_loop a agg;;
  mret agg.

(** The entry of [Promise.all]'s result for an outcome, [None] for a
    rejection, which rejects the aggregate instead. *)
Definition all_slot (o : pstate) : option value :=
  match o with
  | Fulfilled v => Some v
  | _ => None
  end.

(** The entry of [Promise.allSettled]'s result for an outcome. *)
Definition allSettled_slot (o : pstate) : option value :=
  match o with
  | Fulfilled v => Some (settled_fulfilled v)
  | Rejected x => Some (settled_rejected x)
  | Pending => None
  end.

(** ** Settlements in the trace, and the states a script can reach *)

(** The settlements of promise [p], in order. *)
Fixpoint settlements (p : pid) (tr : list event) : list pstate :=
  match tr with
  | [] => []
  | Settled q s _ :: tr' =>
      if decide (q = p) then s :: settlements p tr' else settlements p tr'
  | Notified _ _ _ :: tr' => settlements p tr'
  end.

(** The trace agrees with the promises: a promise whose resolving functions
    were not used is pending and has no settlement; one whose resolving
    functions were used has exactly one settlement, with its status; a queued
    job comes from a settled promise and carries its value or reason; a
    handler call comes after a settlement of its promise and has the value or
    reason of that settlement. *)
Record trace_ok (st : state) : Prop := {
  tk_dom : ∀ p pr, promises st !! p = Some pr → (p < next_pid st)%nat;
  tk_fresh : ∀ p, promises st !! p = None → settlements p (trace st) = [];
  tk_pending : ∀ p pr, promises st !! p = Some pr → already_resolved pr = false →
               status pr = Pending ∧ settlements p (trace st) = [];
  tk_settled : ∀ p pr, promises st !! p = Some pr → already_resolved pr = true →
               status pr ≠ Pending ∧ settlements p (trace st) = [status pr];
  tk_jobs : ∀ j, j ∈ jobs st →
            ∃ pr, promises st !! jsrc j = Some pr ∧ status pr ≠ Pending
                  ∧ jarg j = payload (status pr);
  tk_notified : ∀ i p h x, trace st !! i = Some (Notified p h x) →
                ∃ i' s t, (i' < i)%nat ∧ trace st !! i' = Some (Settled p s t)
                          ∧ x = payload s
}.

(** [keeps I m]: [m] keeps the invariant [I]. *)
Definition keeps (I : state → Prop) : relation state := λ st st', I st → I st'.

(** The calls a script makes: the functions of the script and of the
    runtime, with any arguments, sequenced in any way. An async function
    makes its promise, runs its body up to the [await] and awaits. *)
Inductive scripted : ∀ {A : Type}, M A → Prop :=
| scripted_ret {A} (a : A) : scripted (mret a)
| scripted_bind {A B} (m : M A) (k : A → M B) : scripted m → (∀ a, scripted (k a)) → scripted (m ≫= k)
| scripted_fetchData name delay shouldFail : scripted (fetchData name delay shouldFail)
| scripted_then p onF onR : user_handler onF → user_handler onR → scripted (then_ p onF onR)
| scripted_all ps : scripted (Promise_all ps)
| scripted_race ps : scripted (Promise_race ps)
| scripted_allSettled ps : scripted (Promise_allSettled ps)
| scripted_resolve v : scripted (Promise_resolve v)
| scripted_reject v : scripted (Promise_reject v)
| scripted_async f (body : M pid) :
    scripted body →
    scripted (retp ← new_promise; p ← body; await_ p f retp;; mret retp).

(** The states that come after [st]: by calls of the script and turns of the
    loop, in any order. *)
Inductive reaches (st : state) : state → Prop :=
| reaches_refl : reaches st st
| reaches_call {A} (m : M A) st' : reaches st st' → scripted m → reaches st (m st').2
| reaches_step st' st'' : reaches st st' → step st' = Some st'' → reaches st st''.

Definition reachable (st : state) : Prop := reaches init st.

(** ** The calls of the script in the middle of a run *)

(** A call made when [b] promises and [ab] aggregate records exist, at time
    [t0], names its promises and records from [b] and [ab] on and sets its
    timers from [t0] on. Everything it makes is what the same call makes in
    the initial state, with the names and times shifted. *)
Definition shift_handler (b ab : nat) (h : handler) : handler :=
  match h with
  | HUndefined => HUndefined
  | HArrow l label => HArrow l label
  | HResolve p => HResolve (b + p)
  | HReject p => HReject (b + p)
  | HAllElement a i p => HAllElement (ab + a) i (b + p)
  | HSettledFulfilled a i p => HSettledFulfilled (ab + a) i (b + p)
  | HSettledRejected a i p => HSettledRejected (ab + a) i (b + p)
  | HResumeNormal f retp => HResumeNormal f (b + retp)
  | HResumeThrow f retp => HResumeThrow f (b + retp)
  end.

Definition shift_reaction (b ab : nat) (r : reaction) : reaction :=
  {| on_fulfilled := shift_handler b ab (on_fulfilled r);
     on_rejected := shift_handler b ab (on_rejected r);
     capability := Nat.add b <$> capability r |}.

Definition shift_promise (b ab : nat) (pr : promise) : promise :=
  {| status := status pr; already_resolved := already_resolved pr;
     reactions := shift_reaction b ab <$> reactions pr |}.

Definition shift_job (b ab : nat) (j : job) : job :=
  {| jhandler := shift_handler b ab (jhandler j); jrejected := jrejected j;
     jcapability := Nat.add b <$> jcapability j; jarg := jarg j;
     jsrc := (b + jsrc j)%nat |}.

Definition shift_cb (b : nat) (cb : timer_cb) : timer_cb :=
  match cb with FetchTimeout apiName shouldFail p => FetchTimeout apiName shouldFail (b + p) end.

Definition shift_timer (b : nat) (t0 : Z) (t : timer) : timer :=
  {| due := t0 + due t; callback := shift_cb b (callback t) |}.

(** [embeds sync b ab t0 c0 s c]: the state [c] of a run holds, from the
    names [b] and [ab] on, what the state [s] holds, shifted; the jobs and
    timers of [c] that come from these promises are those of [s], in the
    same order; the lines logged in [s] have been logged in [c] in the same
    order, after the lines [c0], with the lines of others in between; what
    is older in [c] only refers to what is older. While the calls are being
    made ([sync]), the clocks agree and nobody else logs. *)
Record embeds (sync : bool) (b ab : nat) (t0 : Z) (c0 : list line) (s c : state) : Prop := {
  em_next_pid : next_pid c = (b + next_pid s)%nat;
  em_next_aid : next_aid c = (ab + next_aid s)%nat;
  em_promises : ∀ p, promises c !! (b + p)%nat = shift_promise b ab <$> promises s !! p;
  em_aggregates : ∀ a, aggregates c !! (ab + a)%nat = aggregates s !! a;
  em_jobs : filter (λ j, (b ≤ jsrc j)%nat) (jobs c) = shift_job b ab <$> jobs s;
  em_timers : filter (λ t, (b ≤ timer_target t)%nat) (timers c)
              = shift_timer b t0 <$> timers s;
  em_console : ∃ ls, console c = (c0 ++ ls)%list ∧ sublist (console s) ls;
  em_sync : sync = true → now c = t0 + now s ∧ console c = (c0 ++ console s)%list;
  em_sane : sane b ab c
}.

(** [related R m m']: run in states of which one holds the other, [m] and
    [m'] give results related by [R] and states of which one holds the
    other. *)
Definition related (sync : bool) (b ab : nat) (t0 : Z) (c0 : list line) {A B}
    (R : A → B → Prop) (m : M A) (m' : M B) : Prop :=
  ∀ s c, embeds sync b ab t0 c0 s c →
    R (m s).1 (m' c).1 ∧ embeds sync b ab t0 c0 (m s).2 (m' c).2.

(** The names of the aggregate records that are not made yet are free. *)
Definition fresh_aggregates (st : state) : Prop :=
  ∀ a, (next_aid st ≤ a)%nat → aggregates st !! a = None.

(** ** The results [fetchWithAllSettled] reports *)

(** The entry [Promise.allSettled] makes for an input that was rejected
    ([true]) or fulfilled ([false]) with the given reason or value. *)
Definition settled_entry (e : bool * value) : value :=
  if e.1 then settled_rejected e.2 else settled_fulfilled e.2.

(** The line the callback of [forEach] logs for such an entry at [index]. *)
Definition settled_line (index : nat) (e : bool * value) : line :=
  if e.1
  then {| lvl := Warn;
          args := [VString ("API " ++ pretty (Z.of_nat index + 9) ++ " failed with reason:");
                   e.2] |}
  else {| lvl := Log;
          args := [VString ("API " ++ pretty (Z.of_nat index + 9) ++ " succeeded with data:");
                   e.2] |}.

(** The reaction that [await p] registers on [p] in the async function [f]
    whose promise is [retp]. *)
Definition await_reaction (f : async_fn) (retp : pid) : reaction :=
  {| on_fulfilled := HResumeNormal f retp; on_rejected := HResumeThrow f retp;
     capability := None |}.

(** The label of the [catch] block of each async function that has one. *)
Definition catch_label (f : async_fn) : option string :=
  match f with
  | GetData => Some "Async/Await Error:"
  | GetAllData => Some "Error in Promise.all:"
  | GetFastestData => Some "Error in Promise.race:"
  | FetchAllWithErrors => Some "Error in one of the APIs:"
  | FetchWithAllSettled => None
  end.

(** A well-formed state in which the promises below [n] and the aggregate
    records below [k] are allocated. *)
Definition bounded (n k : nat) (st : state) : Prop :=
  wf st ∧ (n ≤ next_pid st)%nat ∧ (k ≤ next_aid st)%nat.
Local Open Scope list_scope.

(** * Closure.js: the counter factory *)

Section counter_facts.

Lemma round_number_exact z : Z.abs z ≤ 2 ^ 53 → round_number z = z.
Proof.
  intros H. unfold round_number.
  destruct (Z.leb_spec (Z.abs z) (2 ^ 53)); [done | lia].
Qed.

Lemma createCounter_env st :
  env_of (increment (createCounter st).1) = next_env st
  ∧ env_of (decrement (createCounter st).1) = next_env st
  ∧ env_of (reset (createCounter st).1) = next_env st.
Proof. done. Qed.

Lemma call_next_env m st : next_env (call m st) = next_env st.
Proof. destruct m; simpl; by destruct (counts st !! e). Qed.

Lemma call_other m st e : e ≠ env_of m → counts (call m st) !! e = counts st !! e.
Proof.
  destruct m; simpl; intros Hne; destruct (counts st !! e0) eqn:E; simpl;
    rewrite ?lookup_insert_ne; done.
Qed.

Lemma perform_all_next_env acts st : (next_env st ≤ next_env (perform_all acts st))%nat.
Proof.
  revert st. induction acts as [|a acts IH]; intros st; simpl; [done |].
  etrans; [| apply IH]. destruct a; simpl; [lia |]. by rewrite call_next_env.
Qed.

(** C6: a counter made by [createCounter] starts at 0; after increment,
    increment, decrement its count is 1 and the last line logged shows 1;
    after reset the count is 0; and for two counters made by two calls of
    [createCounter], with anything happening in between, no method of one
    changes the count of the other, in whatever store it is called. *)
Theorem createCounter_counts_and_isolation (st : store) :
  let (c, st0) := createCounter st in
  count_of c st0 = Some 0
  ∧ (let st3 := call (decrement c) (call (increment c) (call (increment c) st0)) in
     count_of c st3 = Some 1
     ∧ output st3 = output st ++ [count_line 1; count_line 2; count_line 1]
     ∧ count_of c (call (reset c) st3) = Some 0)
  ∧ (∀ acts,
       let (d, _) := createCounter (perform_all acts st0) in
       ∀ m st',
         (m ∈ methods d → count_of c (call m st') = count_of c st')
         ∧ (m ∈ methods c → count_of d (call m st') = count_of d st')).
Proof.
  simpl. split; [| split].
  - unfold count_of; simpl. by rewrite lookup_insert_eq.
  - unfold count_of; simpl.
    repeat (rewrite ?lookup_insert_eq, ?insert_insert_eq; simpl).
    rewrite <- !app_assoc. done.
  - intros acts.
    pose proof (perform_all_next_env acts
      {| counts := <[next_env st:=0]> (counts st); next_env := S (next_env st);
         output := output st |}) as Hle.
    simpl in Hle. intros m st'. unfold count_of, methods; simpl.
    split; intros Hm; apply call_other;
      repeat (apply elem_of_cons in Hm as [-> | Hm]); simpl; try lia;
      by apply elem_of_nil in Hm.
Qed.

Lemma count_op_cons o x ops :
  count_op o (x :: ops) = (if decide (x = o) then 1 else 0) + count_op o ops.
Proof.
  unfold count_op. rewrite filter_cons. destruct (decide (x = o)); simpl length; lia.
Qed.

Lemma count_op_bounds o ops : 0 ≤ count_op o ops ≤ Z.of_nat (length ops).
Proof.
  unfold count_op. pose proof (length_filter (λ x, x = o) ops). lia.
Qed.

Lemma count_op_total ops : count_op Inc ops + count_op Dec ops = Z.of_nat (length ops).
Proof.
  induction ops as [|x ops IH]; [done |].
  rewrite !count_op_cons. simpl length. destruct x; repeat case_decide; try done; lia.
Qed.

(** While the count stays within 2^53 of zero, every step is exact. *)
Lemma apply_ops_exact e ops : ∀ st v,
  counts st !! e = Some v →
  Z.abs v + Z.of_nat (length ops) ≤ 2 ^ 53 →
  counts (apply_ops (counter_object e) ops st) !! e
  = Some (v + count_op Inc ops - count_op Dec ops).
Proof.
  induction ops as [|o ops IH]; intros st v Hv Hle.
  - simpl. rewrite Hv. f_equal. unfold count_op. simpl. lia.
  - simpl length in Hle.
    change (apply_ops (counter_object e) (o :: ops) st)
      with (apply_ops (counter_object e) ops (call (method_of (counter_object e) o) st)).
    rewrite !count_op_cons.
    destruct o; simpl method_of; simpl call; rewrite Hv.
    + erewrite IH; [| simpl; apply lookup_insert_eq |].
      * unfold number_add. rewrite round_number_exact by lia.
        f_equal. repeat case_decide; try done; lia.
      * unfold number_add. rewrite round_number_exact by lia. lia.
    + erewrite IH; [| simpl; apply lookup_insert_eq |].
      * unfold number_sub. rewrite round_number_exact by lia.
        f_equal. repeat case_decide; try done; lia.
      * unfold number_sub. rewrite round_number_exact by lia. lia.
Qed.

Lemma apply_ops_app c ops1 ops2 st :
  apply_ops c (ops1 ++ ops2) st = apply_ops c ops2 (apply_ops c ops1 st).
Proof. apply fold_left_app. Qed.

(** The last line on the console after a non-empty run shows the count. *)
Lemma apply_ops_last_line e ops o st v :
  counts (apply_ops (counter_object e) ops st) !! e = Some v →
  ∃ v', counts (apply_ops (counter_object e) (ops ++ [o]) st) !! e = Some v'
        ∧ last (output (apply_ops (counter_object e) (ops ++ [o]) st)) = Some (count_line v').
Proof.
  intros Hv. rewrite apply_ops_app. simpl.
  destruct o; simpl; rewrite Hv; simpl; rewrite lookup_insert_eq, last_snoc; eauto.
Qed.

(** C10 (as amended): for a counter made by [createCounter] and a run of at
    most 2^53 increments and decrements, started right after the creation or
    in any store where the count is 0 (as after a reset), the count is the
    number of increments minus the number of decrements, and the last line
    logged shows it; the count is not clamped at zero: one decrement on a
    fresh counter gives -1. *)
Theorem count_is_increments_minus_decrements (st : store) (ops : list op) :
  Z.of_nat (length ops) ≤ 2 ^ 53 →
  let (c, st0) := createCounter st in
  (∀ st', count_of c st' = Some 0 →
     count_of c (apply_ops c ops st') = Some (count_op Inc ops - count_op Dec ops)
     ∧ (ops ≠ [] →
        last (output (apply_ops c ops st'))
        = Some (count_line (count_op Inc ops - count_op Dec ops))))
  ∧ count_of c st0 = Some 0
  ∧ (∀ st', is_Some (count_of c st') → count_of c (call (reset c) st') = Some 0)
  ∧ count_of c (call (decrement c) st0) = Some (-1).
Proof.
  intros Hlen. simpl. unfold count_of. simpl.
  split; [| split; [| split]].
  - intros st' H0. split.
    + rewrite (apply_ops_exact _ _ _ 0) by (done || lia). f_equal; lia.
    + intros Hne. destruct (exists_last Hne) as (ops' & o & ->).
      rewrite length_app in Hlen. simpl in Hlen.
      pose proof (apply_ops_exact (next_env st) ops' st' 0 H0 ltac:(lia)) as H1.
      destruct (apply_ops_last_line _ _ o _ _ H1) as (v' & Hv' & Hl).
      rewrite Hl. f_equal. f_equal.
      rewrite (apply_ops_exact _ (ops' ++ [o]) _ 0) in Hv'
        by (done || rewrite ?length_app; simpl; lia).
      injection Hv' as <-. lia.
  - by rewrite lookup_insert_eq.
  - intros st' [v Hv]. rewrite Hv. simpl. by rewrite lookup_insert_eq.
  - rewrite lookup_insert_eq. simpl. by rewrite lookup_insert_eq.
Qed.

Lemma count_is_increments_minus_decrements_witness :
  Z.of_nat (length [Inc; Dec; Dec]) ≤ 2 ^ 53
  ∧ let (c, st0) := createCounter empty_store in
    (∀ st', count_of c st' = Some 0 →
       count_of c (apply_ops c [Inc; Dec; Dec] st')
       = Some (count_op Inc [Inc; Dec; Dec] - count_op Dec [Inc; Dec; Dec])
       ∧ ([Inc; Dec; Dec] ≠ [] →
          last (output (apply_ops c [Inc; Dec; Dec] st'))
          = Some (count_line (count_op Inc [Inc; Dec; Dec] - count_op Dec [Inc; Dec; Dec]))))
    ∧ count_of c st0 = Some 0
    ∧ (∀ st', is_Some (count_of c st') → count_of c (call (reset c) st') = Some 0)
    ∧ count_of c (call (decrement c) st0) = Some (-1).
Proof.
  split; [simpl; lia |].
  apply (count_is_increments_minus_decrements empty_store [Inc; Dec; Dec]).
  simpl; lia.
Defined.

(** One increment too many: at 2^53 the next integer is not a number, and
    [count += 1] leaves the count where it is. *)
Lemma saturated_increment e (k : nat) st :
  Z.of_nat k = 2 ^ 53 →
  counts st !! e = Some 0 →
  counts (apply_ops (counter_object e) (repeat Inc (S k)) st) !! e = Some (2 ^ 53)
  ∧ count_op Inc (repeat Inc (S k)) = 2 ^ 53 + 1
  ∧ count_op Dec (repeat Inc (S k)) = 0.
Proof.
  intros Hk H0.
  assert (Hc : ∀ n, count_op Inc (repeat Inc n) = Z.of_nat n
                    ∧ count_op Dec (repeat Inc n) = 0).
  { induction n as [|n [IH1 IH2]]; [done |].
    change (repeat Inc (S n)) with (Inc :: repeat Inc n).
    rewrite !count_op_cons, IH1, IH2. repeat case_decide; try done. lia. }
  split; [| split]; [| rewrite (proj1 (Hc _)); lia | apply Hc].
  change (repeat Inc (S k)) with (Inc :: repeat Inc k).
  rewrite repeat_cons, apply_ops_app.
  pose proof (apply_ops_exact e (repeat Inc k) st 0 H0) as Hex.
  rewrite repeat_length in Hex. specialize (Hex ltac:(lia)).
  destruct (Hc k) as [E1 E2]. rewrite E1, E2, Hk in Hex.
  unfold apply_ops at 1. simpl fold_left. simpl method_of. unfold call.
  rewrite Hex. simpl counts. rewrite lookup_insert_eq. reflexivity.
Qed.

(** C10 fails as stated: after 2^53 + 1 increments (and no decrement) on a
    fresh counter the count is 2^53, not 2^53 + 1. *)
Lemma count_after_too_many_increments :
  count_of (createCounter empty_store).1
    (apply_ops (createCounter empty_store).1 (repeat Inc (S (Z.to_nat (2 ^ 53))))
       (createCounter empty_store).2)
  = Some 9007199254740992
  ∧ count_op Inc (repeat Inc (S (Z.to_nat (2 ^ 53))))
    - count_op Dec (repeat Inc (S (Z.to_nat (2 ^ 53)))) = 9007199254740993
  ∧ count_of (createCounter empty_store).1
      (apply_ops (createCounter empty_store).1 (repeat Inc (S (Z.to_nat (2 ^ 53))))
         (createCounter empty_store).2)
    ≠ Some (count_op Inc (repeat Inc (S (Z.to_nat (2 ^ 53))))
            - count_op Dec (repeat Inc (S (Z.to_nat (2 ^ 53))))).
Proof.
  destruct (saturated_increment 0%nat (Z.to_nat (2 ^ 53)) (createCounter empty_store).2)
    as (Hv & Hi & Hd).
  - apply Z2Nat.id. lia.
  - reflexivity.
  - unfold count_of. change (env_of _) with 0%nat.
    change ((createCounter empty_store).1) with (counter_object 0%nat).
    rewrite Hv, Hi, Hd. split; [reflexivity |]. split; [reflexivity |].
    intros H. injection H. intros H'. discriminate H'.
Qed.

End counter_facts.

(** * The promise script *)

(** ** Reasoning about computations of the runtime monad *)

Lemma bind_run {A B} (m : M A) (k : A → M B) st :
  (m ≫= k) st = k (m st).1 (m st).2.
Proof. unfold mbind, M_bind, bind. by destruct (m st). Qed.

Lemma ret_run {A} (a : A) st : (mret a : M A) st = (a, st).
Proof. done. Qed.

Section preserves.
Context (R : relation state) `{!PreOrder R}.

Lemma preserves_ret {A} (a : A) : preserves R (mret a : M A).
Proof. intros st. simpl. reflexivity. Qed.

Lemma preserves_bind {A B} (m : M A) (k : A → M B) :
  preserves R m → (∀ a, preserves R (k a)) → preserves R (m ≫= k).
Proof.
  intros Hm Hk st. rewrite bind_run. etrans; [apply Hm | apply Hk].
Qed.

Lemma preserves_modify f : (∀ st, R st (f st)) → preserves R (modify f).
Proof. intros H st. apply H. Qed.

Lemma preserves_get_promise p : preserves R (get_promise p).
Proof. intros st. simpl. reflexivity. Qed.

Lemma preserves_forEach f xs i :
  (∀ x j, preserves R (f x j)) → preserves R (forEach f xs i).
Proof.
  intros Hf. revert i. induction xs as [|x xs IH]; intros i; simpl.
  - apply preserves_ret.
  - apply preserves_bind; [apply Hf |]. intros [v|e]; [apply IH | apply preserves_ret].
Qed.
End preserves.

(** ** Termination of the event loop *)

Lemma reaction_count_insert_None m i x :
  m !! i = None →
  reaction_count (<[i:=x]> m) = (length (reactions x) + reaction_count m)%nat.
Proof.
  intros H. unfold reaction_count.
  rewrite map_fold_insert_L; [done | intros; lia | done].
Qed.

Lemma reaction_count_insert_Some m i x y :
  m !! i = Some y →
  (reaction_count (<[i:=x]> m) + length (reactions y)
   = length (reactions x) + reaction_count m)%nat.
Proof.
  intros H.
  rewrite <- (insert_delete_eq m i x).
  rewrite <- (insert_id m i y H) at 2.
  rewrite <- (insert_delete_eq m i y).
  rewrite !reaction_count_insert_None by apply lookup_delete_eq. lia.
Qed.

Lemma work_backlog st : work st = (length (timers st) + backlog st)%nat.
Proof. unfold work, backlog, reaction_count. lia. Qed.

#[export] Instance same_backlog_preorder : PreOrder same_backlog.
Proof.
  split.
  - by intros st.
  - intros st1 st2 st3 [H1 H2] [H3 H4]. split; congruence.
Qed.

Lemma settle_backlog p s : preserves same_backlog (settle p s).
Proof.
  intros st. unfold settle. destruct (promises st !! p) as [pr|] eqn:E; simpl; [| done].
  split; [| done]. unfold backlog. simpl.
  rewrite length_app, length_map.
  pose proof (reaction_count_insert_Some (promises st) p
    {| status := s; already_resolved := true; reactions := [] |} pr E) as H.
  simpl in H. lia.
Qed.

Lemma resolve_fn_backlog p v : preserves same_backlog (resolve_fn p v).
Proof.
  unfold resolve_fn. apply preserves_bind; [apply _ | apply preserves_get_promise; apply _ |].
  intros [pr|]; [destruct (already_resolved pr) |];
    try apply preserves_ret; try apply _. apply settle_backlog.
Qed.

Lemma reject_fn_backlog p v : preserves same_backlog (reject_fn p v).
Proof.
  unfold reject_fn. apply preserves_bind; [apply _ | apply preserves_get_promise; apply _ |].
  intros [pr|]; [destruct (already_resolved pr) |];
    try apply preserves_ret; try apply _. apply settle_backlog.
Qed.

Create HintDb pres discriminated.

Ltac pres :=
  repeat first
    [ solve [eauto with pres]
    | apply preserves_ret; apply _
    | apply preserves_get_promise; apply _
    | apply preserves_bind; [apply _ | | intros ?]
    | match goal with
      | |- preserves _ (match ?x with _ => _ end) => destruct x
      | |- preserves _ (if ?x then _ else _) => destruct x
      end ].

#[export] Hint Resolve settle_backlog resolve_fn_backlog reject_fn_backlog : pres.

Lemma console_call_backlog l xs : preserves same_backlog (console_call l xs).
Proof. by intros st. Qed.

Lemma element_fn_backlog a i agg x : preserves same_backlog (element_fn a i agg x).
Proof.
  intros st. unfold element_fn.
  destruct (aggregates st !! a) as [r|]; [| done].
  destruct (called r !! i) as [[]|]; try done.
  all: destruct (Z.eqb _ 0); [| done].
  all: match goal with
       | |- same_backlog _ (resolve_fn ?p ?v ?s).2 =>
           transitivity s; [done | apply resolve_fn_backlog]
       end.
Qed.

#[export] Hint Resolve console_call_backlog element_fn_backlog : pres.

Lemma report_settled_backlog x i : preserves same_backlog (report_settled x i).
Proof. unfold report_settled. pres. Qed.

#[export] Hint Resolve report_settled_backlog : pres.

Lemma resume_backlog f c retp : preserves same_backlog (resume f c retp).
Proof.
  unfold resume, resume_body. pres.
  apply preserves_forEach; [apply _ |]. intros. pres.
Qed.

#[export] Hint Resolve resume_backlog : pres.

Lemma call_handler_backlog h b x : preserves same_backlog (call_handler h b x).
Proof. unfold call_handler. pres. Qed.

#[export] Hint Resolve call_handler_backlog : pres.

Lemma run_job_backlog j : preserves same_backlog (run_job j).
Proof. unfold run_job, react. pres. apply preserves_modify; first [done | apply _]. Qed.

Lemma run_timer_backlog cb : preserves same_backlog (run_timer cb).
Proof. unfold run_timer. pres. Qed.

Lemma pop_timer_length ts t rest :
  pop_timer ts = Some (t, rest) → length ts = S (length rest).
Proof.
  revert t rest. induction ts as [|u ts IH]; intros t rest; simpl; [done |].
  destruct (pop_timer ts) as [[v rest']|] eqn:E.
  - specialize (IH _ _ eq_refl). case_match; intros [= <- <-]; simpl; lia.
  - intros [= <- <-]. done.
Qed.

Lemma pop_timer_None ts : pop_timer ts = None → ts = [].
Proof.
  destruct ts as [|u ts]; simpl; [done |].
  destruct (pop_timer ts) as [[v rest']|]; [case_match |]; done.
Qed.

(** Every turn of the loop takes one unit of work away. *)
Lemma step_work st st' : step st = Some st' → work st = S (work st').
Proof.
  unfold step. rewrite !work_backlog.
  destruct (jobs st) as [|j js] eqn:Ej.
  - destruct (pop_timer (timers st)) as [[t rest]|] eqn:Et; [| done].
    intros [= <-]. unfold exec.
    destruct (run_timer_backlog (callback t)
                (set_now (Z.max (now st) (due t)) (set_timers rest st))) as [H1 H2].
    rewrite H1, H2. simpl. apply pop_timer_length in Et.
    unfold backlog in *. simpl. rewrite Ej. simpl. lia.
  - intros [= <-]. unfold exec.
    destruct (run_job_backlog j (set_jobs js st)) as [H1 H2].
    rewrite H1, H2. unfold backlog. simpl. rewrite Ej. simpl. lia.
Qed.

Lemma step_None st : step st = None ↔ quiescent st.
Proof.
  unfold step, quiescent. split.
  - destruct (jobs st); [| done].
    destruct (pop_timer (timers st)) as [[t rest]|] eqn:E; [done |].
    intros _. split; [done |]. by apply pop_timer_None.
  - intros [-> ->]. done.
Qed.

Lemma run_for_steps n st : steps st (run_for n st).
Proof.
  revert st. induction n as [|n IH]; intros st; simpl; [apply rtc_refl |].
  destruct (step st) as [st'|] eqn:E; [| apply rtc_refl].
  eapply rtc_l; [exact E | apply IH].
Qed.

Lemma run_for_quiescent n st : (work st ≤ n)%nat → quiescent (run_for n st).
Proof.
  revert st. induction n as [|n IH]; intros st Hle; simpl.
  - apply step_None. destruct (step st) as [st'|] eqn:E; [| done].
    apply step_work in E. lia.
  - destruct (step st) as [st'|] eqn:E; [| by apply step_None].
    apply IH. apply step_work in E. lia.
Qed.

(** The loop always comes to rest, and [run] gives the state it rests in. *)
Lemma run_quiescent st : quiescent (run st).
Proof. apply run_for_quiescent. done. Qed.

Lemma run_steps st : steps st (run st).
Proof. apply run_for_steps. Qed.

(** What holds at the start and survives every turn holds in [run st]. *)
Lemma run_invariant (I : state → Prop) st :
  I st → (∀ s s', I s → step s = Some s' → I s') → I (run st).
Proof.
  intros H0 Hstep. pose proof (run_steps st) as Hs.
  induction Hs as [|s1 s2 s3 H12 _ IH]; [done |]. apply IH. eauto.
Qed.

(** ** Footprints *)

#[export] Instance touches_preorder T A : PreOrder (touches T A).
Proof.
  split.
  - intros st. split; try done; eauto.
    + exists []. rewrite app_nil_r. split; [done |]. intros j Hj. by apply elem_of_nil in Hj.
    + exists []. by rewrite app_nil_r.
    + exists []. by rewrite app_nil_r.
  - intros st1 st2 st3 H12 H23. split.
    + intros p.
      destruct (t_promises _ _ _ _ H23 p) as [E23 | (HT & pr & s & E2 & Hf & Hs & E3)];
        destruct (t_promises _ _ _ _ H12 p) as [E12 | (HT' & pr' & s' & E1 & Hf' & Hs' & E2')].
      * left. congruence.
      * right. split; [done |]. exists pr', s'. rewrite E23. done.
      * right. split; [done |]. exists pr, s. rewrite <- E12. done.
      * rewrite E2' in E2. injection E2 as <-. done.
    + intros a Ha. rewrite (t_aggregates _ _ _ _ H23 a Ha). by apply H12.
    + rewrite (t_timers _ _ _ _ H23). apply H12.
    + rewrite (t_now _ _ _ _ H23). apply H12.
    + rewrite (t_next_pid _ _ _ _ H23). apply H12.
    + rewrite (t_next_aid _ _ _ _ H23). apply H12.
    + destruct (t_jobs _ _ _ _ H12) as (n1 & E1 & Hn1).
      destruct (t_jobs _ _ _ _ H23) as (n2 & E2 & Hn2).
      exists (n1 ++ n2). split; [by rewrite E2, E1, app_assoc |].
      intros j [Hj | Hj]%elem_of_app; [by apply Hn1 |].
      destruct (Hn2 j Hj) as (HT & pr & r & s & Ep & Hr & Hs & Ej).
      split; [done |].
      destruct (t_promises _ _ _ _ H12 (jsrc j))
        as [E | (_ & pr' & s' & _ & _ & _ & E)].
      * exists pr, r, s. rewrite <- E. done.
      * rewrite E in Ep. injection Ep as <-. by apply elem_of_nil in Hr.
    + destruct (t_trace _ _ _ _ H12) as (e1 & E1).
      destruct (t_trace _ _ _ _ H23) as (e2 & E2).
      exists (e1 ++ e2). by rewrite E2, E1, app_assoc.
    + destruct (t_console _ _ _ _ H12) as (e1 & E1).
      destruct (t_console _ _ _ _ H23) as (e2 & E2).
      exists (e1 ++ e2). by rewrite E2, E1, app_assoc.
Qed.

Lemma touches_weaken (T T' : pid → Prop) (A A' : aid → Prop) st st' :
  (∀ p, T p → T' p) → (∀ a, A a → A' a) → touches T A st st' → touches T' A' st st'.
Proof.
  intros HT HA H. split; try apply H.
  - intros p. destruct (t_promises _ _ _ _ H p) as [E | (Hp & R)]; [by left | right; eauto].
  - intros a Ha. apply H. naive_solver.
  - destruct (t_jobs _ _ _ _ H) as (new & E & Hn). exists new. split; [done |].
    intros j Hj. destruct (Hn j Hj) as [Hs R]. eauto.
Qed.

Lemma preserves_weaken {X} (T T' : pid → Prop) (A A' : aid → Prop) (m : M X) :
  (∀ p, T p → T' p) → (∀ a, A a → A' a) →
  preserves (touches T A) m → preserves (touches T' A') m.
Proof. intros HT HA H st. eapply touches_weaken; eauto. Qed.

Lemma touches_logs T A st tr c :
  touches T A st (set_trace (trace st ++ tr) (set_console (console st ++ c) st)).
Proof.
  split; simpl; eauto.
  exists []. rewrite app_nil_r. split; [done |]. intros j Hj. by apply elem_of_nil in Hj.
Qed.

Lemma settle_touches (T : pid → Prop) A p s st pr :
  T p → s ≠ Pending →
  promises st !! p = Some pr → already_resolved pr = false →
  touches T A st (settle p s st).2.
Proof.
  intros HT Hs E Hf. unfold settle. rewrite E. simpl.
  split; simpl; eauto.
  - intros q. destruct (decide (q = p)) as [->|Hne].
    + right. split; [done |]. exists pr, s. by rewrite lookup_insert_eq.
    + left. by rewrite lookup_insert_ne.
  - eexists. split; [done |]. intros j (r & -> & Hr)%list_elem_of_fmap.
    assert (jsrc (reaction_job p s r) = p) as -> by by destruct s.
    split; [done |]. exists pr, r, s. done.
  - exists []. by rewrite app_nil_r.
Qed.

Lemma resolve_fn_touches (T : pid → Prop) A p v :
  T p → preserves (touches T A) (resolve_fn p v).
Proof.
  intros HT st. unfold resolve_fn. rewrite bind_run. simpl.
  destruct (promises st !! p) as [pr|] eqn:E; [| reflexivity].
  destruct (already_resolved pr) eqn:Hf; [reflexivity |].
  by eapply settle_touches.
Qed.

Lemma reject_fn_touches (T : pid → Prop) A p v :
  T p → preserves (touches T A) (reject_fn p v).
Proof.
  intros HT st. unfold reject_fn. rewrite bind_run. simpl.
  destruct (promises st !! p) as [pr|] eqn:E; [| reflexivity].
  destruct (already_resolved pr) eqn:Hf; [reflexivity |].
  by eapply settle_touches.
Qed.

Lemma console_call_touches T A l xs : preserves (touches T A) (console_call l xs).
Proof.
  intros st. simpl.
  split; simpl; eauto.
  - exists []. rewrite app_nil_r. split; [done |]. intros j Hj. by apply elem_of_nil in Hj.
  - exists []. by rewrite app_nil_r.
Qed.

Lemma set_aggregate_touches (T : pid → Prop) (A : aid → Prop) a r st :
  A a → touches T A st (set_aggregates (next_aid st) (<[a:=r]> (aggregates st)) st).
Proof.
  intros HA. split; simpl; eauto.
  - intros b Hb. rewrite lookup_insert_ne; [done |]. by intros ->.
  - exists []. rewrite app_nil_r. split; [done |]. intros j Hj. by apply elem_of_nil in Hj.
  - exists []. by rewrite app_nil_r.
  - exists []. by rewrite app_nil_r.
Qed.

Lemma element_fn_touches (T : pid → Prop) (A : aid → Prop) a i agg x :
  T agg → A a → preserves (touches T A) (element_fn a i agg x).
Proof.
  intros HT HA st. unfold element_fn.
  destruct (aggregates st !! a) as [r|]; [| reflexivity].
  assert (∀ r', touches T A st
    (if Z.eqb (remaining r') 0
     then resolve_fn agg (VArray (values r'))
            (set_aggregates (next_aid st) (<[a:=r']> (aggregates st)) st)
     else (tt, set_aggregates (next_aid st) (<[a:=r']> (aggregates st)) st)).2) as H.
  { intros r'. destruct (Z.eqb _ 0); simpl.
    - etrans; [by apply set_aggregate_touches | by apply resolve_fn_touches].
    - by apply set_aggregate_touches. }
  destruct (called r !! i) as [[]|]; [reflexivity | apply H | apply H].
Qed.

#[export] Hint Resolve console_call_touches : pres.

Ltac pres_touches :=
  repeat first
    [ solve [eauto with pres]
    | apply resolve_fn_touches; solve [simpl; auto]
    | apply reject_fn_touches; solve [simpl; auto]
    | apply element_fn_touches; solve [simpl; auto]
    | apply preserves_ret; apply _
    | apply preserves_bind; [apply _ | | intros ?]
    | match goal with
      | |- preserves _ (match ?x with _ => _ end) => destruct x
      | |- preserves _ (if ?x then _ else _) => destruct x
      end ].

Lemma report_settled_touches T A x i : preserves (touches T A) (report_settled x i).
Proof. unfold report_settled. pres. Qed.

#[export] Hint Resolve report_settled_touches : pres.

Lemma resume_touches (T : pid → Prop) A f c retp :
  T retp → preserves (touches T A) (resume f c retp).
Proof.
  intros HT. unfold resume, resume_body. pres_touches.
  apply preserves_forEach; [apply _ |]. intros. pres.
Qed.

Lemma call_handler_touches h b x :
  preserves (touches (htarget h) (hcell h)) (call_handler h b x).
Proof.
  destruct h; simpl.
  all: try (apply preserves_bind; [apply _ | | intros; apply preserves_ret; apply _]).
  all: first [apply resume_touches; by simpl | pres_touches].
Qed.

Lemma react_touches j :
  preserves (touches (jtarget j) (hcell (jhandler j))) (react j).
Proof.
  unfold react.
  apply preserves_bind; [apply _ | | intros c].
  { eapply preserves_weaken; [| | apply call_handler_touches]; [| done].
    intros p Hp. by left. }
  destruct (jcapability j) as [d|] eqn:E; [destruct c |].
  - apply resolve_fn_touches. by right.
  - apply reject_fn_touches. by right.
  - apply preserves_ret. apply _.
Qed.

Lemma run_job_touches j :
  preserves (touches (jtarget j) (hcell (jhandler j))) (run_job j).
Proof.
  unfold run_job.
  apply preserves_bind; [apply _ | | intros _; apply react_touches].
  intros st.
  pose proof (touches_logs (jtarget j) (hcell (jhandler j)) st
                [Notified (jsrc j) (jhandler j) (jarg j)] []) as H.
  rewrite app_nil_r in H. by destruct st.
Qed.


Lemma run_timer_touches cb A :
  preserves (touches (λ q, q = match cb with FetchTimeout _ _ p => p end) A) (run_timer cb).
Proof. destruct cb. simpl. pres_touches. Qed.

(** ** The timer queue *)

Lemma pop_timer_perm ts t rest : pop_timer ts = Some (t, rest) → ts ≡ₚ t :: rest.
Proof.
  revert t rest. induction ts as [|u ts IH]; intros t rest; simpl; [done |].
  destruct (pop_timer ts) as [[v rest']|] eqn:E.
  - specialize (IH _ _ eq_refl). case_match; intros [= <- <-]; [| done].
    rewrite IH. apply perm_swap.
  - intros [= <- <-]. done.
Qed.

(** The timer taken is due no later than any other. *)
Lemma pop_timer_min ts t rest :
  pop_timer ts = Some (t, rest) → ∀ u, u ∈ ts → due t ≤ due u.
Proof.
  revert t rest. induction ts as [|x ts IH]; intros t rest; simpl; [done |].
  destruct (pop_timer ts) as [[v rest']|] eqn:E.
  - specialize (IH _ _ eq_refl).
    destruct (Z.ltb_spec (due v) (due x)); intros [= <- <-] u [-> | Hu]%elem_of_cons.
    + lia.
    + by apply IH.
    + lia.
    + specialize (IH u Hu). lia.
  - apply pop_timer_None in E as ->.
    intros [= <- <-] u [-> | Hu]%elem_of_cons; [lia | by apply elem_of_nil in Hu].
Qed.

Lemma pop_timer_elem ts t rest u :
  pop_timer ts = Some (t, rest) → u ∈ ts ↔ u = t ∨ u ∈ rest.
Proof.
  intros H%pop_timer_perm. rewrite H. apply elem_of_cons.
Qed.

(** ** The two kinds of turns *)

Lemma step_cases st st' :
  step st = Some st' →
  (∃ j js, jobs st = j :: js ∧ st' = (run_job j (set_jobs js st)).2)
  ∨ (∃ t rest, jobs st = [] ∧ pop_timer (timers st) = Some (t, rest)
               ∧ st' = (run_timer (callback t)
                          (set_now (Z.max (now st) (due t)) (set_timers rest st))).2).
Proof.
  unfold step. destruct (jobs st) as [|j js].
  - destruct (pop_timer (timers st)) as [[t rest]|]; [| done].
    intros [= <-]. right. by exists t, rest.
  - intros [= <-]. left. by exists j, js.
Qed.


(** No turn registers a reaction: the record of a promise stays or becomes
    a settled one. *)
Lemma step_promise st st' p :
  step st = Some st' →
  promises st' !! p = promises st !! p
  ∨ ∃ pr s, promises st !! p = Some pr ∧ already_resolved pr = false
            ∧ s ≠ Pending ∧ promises st' !! p = Some (settled s).
Proof.
  intros Hs.
  destruct (step_cases _ _ Hs) as [(j & js & Ej & ->) | (t & rest & Ej & Et & ->)].
  - destruct (t_promises _ _ _ _ (run_job_touches j (set_jobs js st)) p)
      as [E | (_ & R)]; [by left | by right].
  - destruct (t_promises _ _ _ _
      (run_timer_touches (callback t) (λ _, False)
         (set_now (Z.max (now st) (due t)) (set_timers rest st))) p)
      as [E | (_ & R)]; [by left | by right].
Qed.

Lemma step_trace st st' : step st = Some st' → ∃ ev, trace st' = trace st ++ ev.
Proof.
  intros Hs.
  destruct (step_cases _ _ Hs) as [(j & js & Ej & ->) | (t & rest & Ej & Et & ->)].
  - apply (t_trace _ _ _ _ (run_job_touches j (set_jobs js st))).
  - apply (t_trace _ _ _ _
      (run_timer_touches (callback t) (λ _, False)
         (set_now (Z.max (now st) (due t)) (set_timers rest st)))).
Qed.

(** ** Old and new: what the loop does to promises made later *)

Lemma reaction_job_target q s r p : jtarget (reaction_job q s r) p → rtarget r p.
Proof. unfold jtarget, rtarget. destruct s; simpl; intros [H | H]; auto; done. Qed.

Lemma reaction_job_cell q s r b : hcell (jhandler (reaction_job q s r)) b → rcell r b.
Proof. unfold rcell. destruct s; simpl; tauto. Qed.

Lemma reaction_job_src q s r : jsrc (reaction_job q s r) = q.
Proof. by destruct s. Qed.

Lemma sane_step base abase st st' :
  sane base abase st → step st = Some st' → sane base abase st'.
Proof.
  intros Hs Hstep.
  assert (Hr : ∀ p pr r, promises st' !! p = Some pr → r ∈ reactions pr →
               promises st !! p = Some pr).
  { intros p pr r Hp Hr.
    destruct (step_promise _ _ p Hstep) as [E | (pr' & s & _ & _ & _ & E)];
      [congruence |].
    rewrite E in Hp. injection Hp as <-. by apply elem_of_nil in Hr. }
  destruct (step_cases _ _ Hstep) as [(j & js & Ej & ->) | (t & rest & Ej & Et & ->)].
  - pose proof (run_job_touches j (set_jobs js st)) as Ht. split.
    + intros p pr r Hp Hin. eapply sane_reactions; eauto.
    + intros j' Hj'. destruct (t_jobs _ _ _ _ Ht) as (new & E & Hnew).
      rewrite E in Hj'. simpl in Hj'. apply elem_of_app in Hj' as [Hj' | Hj'].
      * apply Hs. rewrite Ej. by right.
      * destruct (Hnew _ Hj') as (_ & pr & r & s & Hp & Hin & _ & Ejob).
        simpl in Hp. intros Hlt.
        destruct (sane_reactions _ _ _ Hs _ _ _ Hp Hin Hlt) as [H1 H2].
        rewrite Ejob. split.
        -- intros q Hq. by apply H1, (reaction_job_target (jsrc j') s).
        -- intros b Hb. by apply H2, (reaction_job_cell (jsrc j') s).
    + intros t. rewrite (t_timers _ _ _ _ Ht), (t_now _ _ _ _ Ht). simpl. apply Hs.
  - pose proof (run_timer_touches (callback t) (λ _, False)
                  (set_now (Z.max (now st) (due t)) (set_timers rest st))) as Ht.
    split.
    + intros p pr r Hp Hin. eapply sane_reactions; eauto.
    + intros j' Hj'. destruct (t_jobs _ _ _ _ Ht) as (new & E & Hnew).
      rewrite E in Hj'. simpl in Hj'. rewrite Ej in Hj'. simpl in Hj'.
      destruct (Hnew _ Hj') as (_ & pr & r & s & Hp & Hin & _ & Ejob).
      simpl in Hp. intros Hlt.
      destruct (sane_reactions _ _ _ Hs _ _ _ Hp Hin Hlt) as [H1 H2].
      rewrite Ejob. split.
      * intros q Hq. by apply H1, (reaction_job_target (jsrc j') s).
      * intros b Hb. by apply H2, (reaction_job_cell (jsrc j') s).
    + intros u. rewrite (t_timers _ _ _ _ Ht), (t_now _ _ _ _ Ht). simpl. intros Hu.
      pose proof (pop_timer_min _ _ _ Et) as Hmin.
      assert (u ∈ timers st) as Hu' by (apply (pop_timer_elem _ _ _ _ Et); by right).
      assert (t ∈ timers st) as Htin by (apply (pop_timer_elem _ _ _ _ Et); by left).
      specialize (Hmin u Hu'). pose proof (sane_timers _ _ _ Hs t Htin). lia.
Qed.

Lemma run_timer_pending name fail p rs st :
  promises st !! p = Some (pending_with rs) →
  (run_timer (FetchTimeout name fail p) st).2
  = set_trace (trace st ++ [Settled p (outcome name fail) (now st)])
      (set_jobs (jobs st ++ map (reaction_job p (outcome name fail)) rs)
         (set_promises (next_pid st) (<[p := settled (outcome name fail)]> (promises st)) st)).
Proof.
  intros Hp. unfold run_timer, outcome.
  destruct fail; unfold reject_fn, resolve_fn; rewrite bind_run; simpl; rewrite Hp; simpl;
    unfold settle; rewrite Hp; reflexivity.
Qed.

Lemma run_timer_resolved name fail p pr st :
  promises st !! p = Some pr → already_resolved pr = true →
  (run_timer (FetchTimeout name fail p) st).2 = st.
Proof.
  intros Hp Hf. unfold run_timer.
  destruct fail; unfold reject_fn, resolve_fn; rewrite bind_run; simpl; rewrite Hp, Hf; done.
Qed.

Lemma waiting_not_done d st : waiting d st → done d st → False.
Proof. intros [H1 _] [H2 _]. rewrite H1 in H2. discriminate. Qed.

Lemma input_timer_inj base ins d d' :
  inputs_ok base ins → d ∈ ins → d' ∈ ins → input_timer d = input_timer d' → d = d'.
Proof.
  intros Hok Hd Hd' E. apply (io_inj _ _ Hok); [done | done |].
  unfold input_timer in E. by injection E.
Qed.

(** A change that leaves the inputs alone and brings no new job from a new
    promise keeps the invariant of the inputs. *)
Lemma inputs_inv_touches base ins (T : nat → Prop) A st0 st' :
  (∀ d, d ∈ ins → ¬ T (ip d)) →
  (∀ j, j ∈ jobs st' → j ∈ jobs st0 ∨ (jsrc j < base)%nat) →
  inputs_inv base ins st0 → touches T A st0 st' → inputs_inv base ins st'.
Proof.
  intros HT Hjobs Hinv Ht.
  assert (Hsame : ∀ d, d ∈ ins → promises st' !! ip d = promises st0 !! ip d).
  { intros d Hd. destruct (t_promises _ _ _ _ Ht (ip d)) as [E | [HTd _]]; [done |].
    by destruct (HT d Hd). }
  assert (Hdone : ∀ d, d ∈ ins → done d st0 → done d st').
  { intros d Hd [H1 H2]. split; [by rewrite Hsame |].
    destruct (t_trace _ _ _ _ Ht) as (ev & ->). apply elem_of_app. by left. }
  split.
  - intros d Hd. destruct (ii_phase _ _ _ Hinv d Hd) as [[H1 H2] | HD].
    + left. split; [by rewrite Hsame |]. by rewrite (t_timers _ _ _ _ Ht).
    + right. by apply Hdone.
  - intros j Hj Hb. destruct (Hjobs j Hj) as [Hj0 | Hlt]; [| lia].
    destruct (ii_jobs _ _ _ Hinv j Hj0 Hb) as (d & Hd & Es & HD & Hin).
    exists d. split_and!; try done. by apply Hdone.
  - intros t. rewrite (t_timers _ _ _ _ Ht). apply Hinv.
  - intros q pr Hq Hne Hp.
    destruct (t_promises _ _ _ _ Ht q) as [E | (_ & pr' & s & _ & _ & _ & E)].
    + eapply (ii_others _ _ _ Hinv); eauto. by rewrite <- E.
    + rewrite E in Hp. by injection Hp as <-.
Qed.

Lemma inputs_inv_dequeue base ins st j js :
  jobs st = j :: js → inputs_inv base ins st → inputs_inv base ins (set_jobs js st).
Proof.
  intros Ej Hinv. split; simpl.
  - apply Hinv.
  - intros j' Hj'. apply (ii_jobs _ _ _ Hinv). rewrite Ej. by right.
  - apply Hinv.
  - apply Hinv.
Qed.

Lemma inputs_inv_pop base ins st t rest n :
  inputs_ok base ins →
  pop_timer (timers st) = Some (t, rest) →
  (∀ d, d ∈ ins → waiting d st → t ≠ input_timer d) →
  inputs_inv base ins st → inputs_inv base ins (set_now n (set_timers rest st)).
Proof.
  intros Hok Et Hne Hinv. split; simpl.
  - intros d Hd. destruct (ii_phase _ _ _ Hinv d Hd) as [[H1 H2] | HD]; [| by right].
    left. split; [done |]. simpl.
    assert (Hw : waiting d st) by done.
    apply (pop_timer_elem _ _ _ _ Et) in H2 as [E | H2]; [| done].
    by destruct (Hne d Hd Hw).
  - apply Hinv.
  - intros u Hu. apply (ii_timers _ _ _ Hinv). apply (pop_timer_elem _ _ _ _ Et). by right.
  - apply Hinv.
Qed.

(** Every turn is of one of the five kinds, and keeps the invariant. *)
Lemma inputs_turn base abase ins st st' :
  sane base abase st → inputs_ok base ins → inputs_inv base ins st →
  step st = Some st' →
  turn base abase ins st st' ∧ inputs_inv base ins st'.
Proof.
  intros Hs Hok Hinv Hstep.
  destruct (step_cases _ _ Hstep) as [(j & js & Ej & ->) | (t & rest & Ej & Et & ->)].
  - (* a job *)
    pose proof (run_job_touches j (set_jobs js st)) as Ht.
    pose proof (inputs_inv_dequeue _ _ _ _ _ Ej Hinv) as Hinv0.
    assert (Hjin : j ∈ jobs st) by (rewrite Ej; by left).
    destruct (decide (jsrc j < base)%nat) as [Hlt | Hge].
    + destruct (sane_jobs _ _ _ Hs j Hjin Hlt) as [H1 H2].
      apply (touches_weaken _ (λ q, (q < base)%nat) _ (λ b, (b < abase)%nat)) in Ht;
        [| done | done].
      split; [by eapply turn_old_job |].
      eapply inputs_inv_touches; [| | exact Hinv0 | exact Ht].
      * intros d Hd. pose proof (io_new _ _ Hok d Hd). simpl. lia.
      * intros j' Hj'. destruct (t_jobs _ _ _ _ Ht) as (new & E & Hnew).
        rewrite E in Hj'. apply elem_of_app in Hj' as [Hj' | Hj']; [by left |].
        right. by apply Hnew.
    + destruct (ii_jobs _ _ _ Hinv j Hjin ltac:(lia)) as (d & Hd & Esrc & HD & Hin).
      pose proof Hin as Hin'.
      apply list_elem_of_fmap in Hin as (r & Ejob & Hr).
      apply (touches_weaken _ (λ q, (base ≤ q)%nat ∧ ∀ d', d' ∈ ins → q ≠ ip d')
               _ (hcell (jhandler j))) in Ht; [| | done].
      2:{ intros q Hq. rewrite Ejob in Hq. apply reaction_job_target in Hq.
          by apply (io_targets _ _ Hok d r q). }
      assert (Enew : jobs (run_job j (set_jobs js st)).2 = js).
      { destruct (t_jobs _ _ _ _ Ht) as (new & E & Hnew). rewrite E. simpl.
        destruct new as [|j' new]; [by rewrite app_nil_r |].
        destruct (Hnew j' ltac:(by left)) as ([Hb Hni] & pr & r' & s & Hp & Hr' & _).
        simpl in Hp. rewrite (ii_others _ _ _ Hinv _ _ Hb Hni Hp) in Hr'.
        by apply elem_of_nil in Hr'. }
      split; [by eapply (turn_input_job _ _ _ _ _ d j js) |].
      eapply inputs_inv_touches; [| | exact Hinv0 | exact Ht].
      * intros d' Hd' [_ Hne]. by apply (Hne d' Hd').
      * intros j' Hj'. rewrite Enew in Hj'. by left.
  - (* a timer *)
    set (st1 := set_now (Z.max (now st) (due t)) (set_timers rest st)).
    assert (Htin : t ∈ timers st) by (apply (pop_timer_elem _ _ _ _ Et); by left).
    destruct (decide (timer_target t < base)%nat) as [Hlt | Hge].
    + pose proof (run_timer_touches (callback t) (λ b, (b < abase)%nat) st1) as Ht.
      apply (touches_weaken _ (λ q, (q < base)%nat) _ (λ b, (b < abase)%nat)) in Ht;
        [| | done].
      2:{ intros q ->. exact Hlt. }
      assert (Hinv1 : inputs_inv base ins st1).
      { eapply inputs_inv_pop; [done | exact Et | | done].
        intros d Hd _ ->. pose proof (io_new _ _ Hok d Hd).
        unfold timer_target in Hlt. simpl in Hlt. lia. }
      split; [by eapply turn_old_timer |].
      eapply inputs_inv_touches; [| | exact Hinv1 | exact Ht].
      * intros d Hd. pose proof (io_new _ _ Hok d Hd). simpl. lia.
      * intros j' Hj'. destruct (t_jobs _ _ _ _ Ht) as (new & E & Hnew).
        rewrite E in Hj'. apply elem_of_app in Hj' as [Hj' | Hj']; [by left |].
        right. by apply Hnew.
    + destruct (ii_timers _ _ _ Hinv t Htin ltac:(lia)) as (d & Hd & ->).
      pose proof (sane_timers _ _ _ Hs _ Htin) as Hdue. simpl in Hdue.
      destruct (ii_phase _ _ _ Hinv d Hd) as [HW | HD].
      * destruct HW as [Hp Htm]. simpl callback.
        rewrite (run_timer_pending _ _ _ (irs d)) by done.
        subst st1. simpl. rewrite Ej. simpl.
        replace (Z.max (now st) (idue d)) with (idue d) by lia.
        split; [by eapply (turn_input_timer _ _ _ _ _ d rest) |].
        split; simpl.
        -- intros d' Hd'. destruct (decide (ip d' = ip d)) as [E | Hip].
           ++ apply (io_inj _ _ Hok) in E as ->; [| done | done].
              right. split; simpl; [by rewrite lookup_insert_eq |].
              apply elem_of_app. right. by left.
           ++ assert (d' ≠ d) as Hne by (by intros ->).
              destruct (ii_phase _ _ _ Hinv d' Hd') as [[H1 H2] | [H1 H2]].
              ** left. split; simpl; [by rewrite lookup_insert_ne |].
                 apply (pop_timer_elem _ _ _ _ Et) in H2 as [E | H2]; [| done].
                 destruct Hne. by eapply input_timer_inj.
              ** right. split; simpl; [by rewrite lookup_insert_ne |].
                 apply elem_of_app. by left.
        -- intros j' Hj' _. exists d. split_and!; try done.
           ++ apply list_elem_of_fmap in Hj' as (r & -> & _). apply reaction_job_src.
           ++ split; simpl; [by rewrite lookup_insert_eq |].
              apply elem_of_app. right. by left.
        -- intros u Hu. apply (ii_timers _ _ _ Hinv).
           apply (pop_timer_elem _ _ _ _ Et). by right.
        -- intros q pr Hq Hne. rewrite lookup_insert_ne by (intros E; by apply (Hne d)).
           by apply (ii_others _ _ _ Hinv).
      * simpl callback. destruct HD as [Hp Htr].
        rewrite (run_timer_resolved _ _ _ (settled (input_outcome d))) by done.
        split; [by eapply (turn_input_timer_again _ _ _ _ _ d rest) |].
        eapply inputs_inv_pop; [done | exact Et | | done].
        intros d' Hd' HW E. apply (input_timer_inj _ _ _ _ Hok Hd Hd') in E as <-.
        by eapply waiting_not_done.
Qed.

(** ** The synchronous part: what the calls leave behind *)

Lemma wf_init : wf init.
Proof.
  split; simpl.
  - intros p pr. by rewrite lookup_empty.
  - intros p pr r. by rewrite lookup_empty.
  - intros j Hj. by apply elem_of_nil in Hj.
  - intros t Ht. by apply elem_of_nil in Ht.
Qed.

Lemma wf_sane st : wf st → sane (next_pid st) (next_aid st) st.
Proof.
  intros H. split.
  - intros p pr r Hp Hr _. by apply (wf_reactions _ H p pr r).
  - intros j Hj _. by apply (wf_jobs _ H j).
  - intros t Ht. by apply (wf_timers _ H t).
Qed.

Lemma with_pending_lookup m base k q :
  with_pending m base k !! q
  = if decide (base ≤ q < base + k)%nat then Some (pending_with []) else m !! q.
Proof.
  revert m base. induction k as [|k IH]; intros m base; simpl.
  - case_decide; [lia | done].
  - rewrite IH. repeat case_decide; try lia; try done.
    + destruct (decide (q = base)) as [-> | Hne]; [by rewrite lookup_insert_eq | lia].
    + rewrite lookup_insert_ne; [done | lia].
Qed.

Lemma fetch_run r st :
  fetch r st
  = (next_pid st,
     set_timers (timers st ++ [request_timer (now st) (next_pid st) r])
       (set_promises (S (next_pid st))
          (<[next_pid st := pending_with []]> (promises st)) st)).
Proof. reflexivity. Qed.

(** The array literal of [fetch] calls: the promises are the next [k] names,
    all pending, and the timers are appended in order. *)
Lemma fetch_all_run rs : ∀ st,
  fetch_all rs st
  = (seq (next_pid st) (length rs),
     set_timers (timers st ++ imap (λ i r, request_timer (now st) (next_pid st + i) r) rs)
       (set_promises (next_pid st + length rs)
          (with_pending (promises st) (next_pid st) (length rs)) st)).
Proof.
  unfold fetch_all. induction rs as [|r rs IH]; intros st.
  - simpl. rewrite app_nil_r, Nat.add_0_r. by destruct st.
  - simpl map. simpl array_of. rewrite bind_run, fetch_run. simpl.
    rewrite bind_run, IH. simpl.
    f_equal. unfold set_timers, set_promises. simpl. f_equal.
    + lia.
    + rewrite <- app_assoc. simpl. do 2 f_equal.
      * f_equal. lia.
      * apply imap_ext. intros i x _. simpl. f_equal. lia.
Qed.

Lemma then_pending p onF onR rs st :
  promises st !! p = Some (pending_with rs) → p ≠ next_pid st →
  then_ p onF onR st
  = (next_pid st,
     set_promises (S (next_pid st))
       (<[p := pending_with (rs ++ [then_reaction onF onR (next_pid st)])]>
          (<[next_pid st := pending_with []]> (promises st))) st).
Proof.
  intros Hp Hne. unfold then_. rewrite bind_run. simpl. rewrite bind_run. simpl.
  unfold perform_then. simpl. rewrite lookup_insert_ne by done. rewrite Hp. reflexivity.
Qed.

Lemma add_slot_run a st :
  add_slot a st = (tt, set_aggregates (next_aid st) (slot_added a (aggregates st)) st).
Proof.
  unfold add_slot, modify, slot_added. destruct (aggregates st !! a); [done |].
  by destruct st.
Qed.

Lemma slot_added_iter a k m r :
  m !! a = Some r →
  Nat.iter k (slot_added a) m
  = <[a := {| values := values r ++ replicate k VUndefined;
              remaining := remaining r + Z.of_nat k;
              called := called r ++ replicate k false |}]> m.
Proof.
  revert m r. induction k as [|k IH]; intros m r Hm.
  - simpl. rewrite !app_nil_r, Z.add_0_r. destruct r. simpl. by rewrite insert_id.
  - rewrite Nat.iter_succ_r. unfold slot_added at 2. rewrite Hm.
    erewrite IH by apply lookup_insert_eq. simpl.
    rewrite insert_insert_eq. f_equal. f_equal.
    + by rewrite <- app_assoc.
    + lia.
    + by rewrite <- app_assoc.
Qed.

(** The loop of a combinator over fresh pending inputs. *)
Lemma each_then_run pre G onF onR :
  (∀ st, pre st = (tt, set_aggregates (next_aid st) (G (aggregates st)) st)) →
  ∀ ps i st,
    NoDup ps →
    (∀ p, p ∈ ps → promises st !! p = Some (pending_with []) ∧ (p < next_pid st)%nat) →
    let st' := (each_then pre onF onR i ps st).2 in
    next_pid st' = (next_pid st + length ps)%nat
    ∧ (∀ j p, ps !! j = Some p →
         promises st' !! p
         = Some (pending_with [then_reaction (onF (i + j)%nat) (onR (i + j)%nat)
                                 (next_pid st + j)%nat]))
    ∧ (∀ j, (j < length ps)%nat →
         promises st' !! (next_pid st + j)%nat = Some (pending_with []))
    ∧ (∀ q, q ∉ ps → ¬ (next_pid st ≤ q < next_pid st + length ps)%nat →
         promises st' !! q = promises st !! q)
    ∧ aggregates st' = Nat.iter (length ps) G (aggregates st)
    ∧ next_aid st' = next_aid st
    ∧ timers st' = timers st ∧ jobs st' = jobs st ∧ now st' = now st
    ∧ trace st' = trace st ∧ console st' = console st.
Proof.
  intros Hpre ps. induction ps as [|p ps IH]; intros i st Hnd Hps.
  - simpl. split_and!; try done. intros; lia.
  - apply NoDup_cons in Hnd as [Hnotin Hnd].
    destruct (Hps p ltac:(by left)) as [Hp Hlt].
    cbn [each_then]. rewrite bind_run, Hpre. simpl.
    rewrite bind_run.
    rewrite (then_pending p _ _ []) by (simpl; first [done | lia]). simpl.
    match goal with |- context [each_then _ _ _ _ _ ?s] => set (st1 := s) end.
    specialize (IH (S i) st1 Hnd).
    destruct IH as (H1 & H2 & H3 & H4 & H5 & H6 & H7 & H8 & H9 & H10 & H11).
    { intros p' Hp'. destruct (Hps p' ltac:(by right)) as [Hp'1 Hp'2].
      subst st1. simpl. split; [| lia].
      rewrite !lookup_insert_ne; [done | lia | by intros ->]. }
    subst st1. simpl in *. split_and!; try done.
    + lia.
    + intros [|j] q Hq; simpl in Hq.
      * injection Hq as <-. rewrite H4; [| done | lia].
        rewrite lookup_insert_eq, !Nat.add_0_r. done.
      * rewrite (H2 j q Hq).
        replace (i + S j)%nat with (S (i + j)) by lia.
        by replace (next_pid st + S j)%nat with (S (next_pid st + j)) by lia.
    + intros [|j] Hj.
      * rewrite H4; [| | lia].
        -- rewrite Nat.add_0_r, lookup_insert_ne by lia. by rewrite lookup_insert_eq.
        -- rewrite Nat.add_0_r. intros Hin. destruct (Hps _ ltac:(by right)). lia.
      * replace (next_pid st + S j)%nat with (S (next_pid st + j)) by lia.
        apply H3. lia.
    + intros q Hq Hr. rewrite H4.
      * rewrite !lookup_insert_ne; [done | lia |]. intros ->. apply Hq. by left.
      * intros Hin. apply Hq. by right.
      * lia.
    + rewrite H5.
      change (G (Nat.iter (length ps) G (aggregates st)))
        with (Nat.iter (S (length ps)) G (aggregates st)).
      by rewrite Nat.iter_succ_r.
Qed.

Lemma elem_of_batch_inputs t0 base mk rs d :
  d ∈ batch_inputs t0 base mk rs
  ↔ ∃ i r, rs !! i = Some r
           ∧ d = {| ip := base + i; iname := api r; ifail := failing r;
                    idue := t0 + Z.max 0 (latency r); irs := mk i |}.
Proof.
  unfold batch_inputs. rewrite elem_of_lookup_imap.
  split; intros (i & r & H1 & H2); exists i, r; done.
Qed.

(** After the set-up the invariants of the loop hold. *)
Lemma set_up_inv st st2 mk rs :
  wf st → set_up st st2 mk rs →
  sane (next_pid st) (next_aid st) st2
  ∧ inputs_ok (next_pid st) (batch_inputs (now st) (next_pid st) mk rs)
  ∧ inputs_inv (next_pid st) (batch_inputs (now st) (next_pid st) mk rs) st2.
Proof.
  intros Hwf Hsu. split_and!.
  - split.
    + intros p pr r Hp Hr Hlt. rewrite (su_old _ _ _ _ Hsu) in Hp by done.
      by apply (wf_reactions _ Hwf p pr r).
    + intros j Hj _. rewrite (su_jobs _ _ _ _ Hsu) in Hj. by apply (wf_jobs _ Hwf j).
    + intros t. rewrite (su_timers _ _ _ _ Hsu), (su_now _ _ _ _ Hsu).
      intros [Ht | Ht]%elem_of_app.
      * by apply (wf_timers _ Hwf t).
      * apply elem_of_lookup_imap in Ht as (i & r & -> & _). simpl. lia.
  - split.
    + intros d (i & r & _ & ->)%elem_of_batch_inputs. simpl. lia.
    + intros d d' (i & r & Hr & ->)%elem_of_batch_inputs
        (i' & r' & Hr' & ->)%elem_of_batch_inputs. simpl. intros E.
      assert (i = i') as <- by lia. rewrite Hr in Hr'. by injection Hr' as <-.
    + intros d r q (i & x & Hx & ->)%elem_of_batch_inputs. simpl. intros Hr Hq.
      pose proof (lookup_lt_Some _ _ _ Hx) as Hi.
      pose proof (su_targets _ _ _ _ Hsu i r q Hi Hr Hq) as Hge.
      split; [lia |].
      intros d' (i' & x' & Hx' & ->)%elem_of_batch_inputs. simpl.
      pose proof (lookup_lt_Some _ _ _ Hx'). lia.
  - split.
    + intros d (i & r & Hr & ->)%elem_of_batch_inputs. left. split; simpl.
      * by apply (su_inputs _ _ _ _ Hsu i r).
      * rewrite (su_timers _ _ _ _ Hsu). apply elem_of_app. right.
        by apply (elem_of_lookup_imap_2 (λ i r, request_timer (now st) (next_pid st + i) r)
                    rs r i).
    + intros j Hj Hge. rewrite (su_jobs _ _ _ _ Hsu) in Hj.
      destruct (wf_jobs _ Hwf j Hj) as [Hlt _]. lia.
    + intros t. rewrite (su_timers _ _ _ _ Hsu). intros [Ht | Ht]%elem_of_app Hge.
      * destruct (wf_timers _ Hwf t Ht) as [Hlt _]. lia.
      * apply elem_of_lookup_imap in Ht as (i & r & -> & Hr).
        eexists. split; [apply elem_of_batch_inputs; by exists i, r | done].
    + intros q pr Hq Hne Hp. apply (su_new _ _ _ _ Hsu q pr); [| done].
      destruct (decide (next_pid st + length rs ≤ q)%nat) as [|Hlt]; [done |].
      destruct (lookup_lt_is_Some_2 rs (q - next_pid st)) as [r Hr]; [lia |].
      destruct (Hne {| ip := next_pid st + (q - next_pid st); iname := api r;
                       ifail := failing r;
                       idue := now st + Z.max 0 (latency r);
                       irs := mk (q - next_pid st)%nat |}).
      * apply elem_of_batch_inputs. by exists (q - next_pid st)%nat, r.
      * simpl. lia.
Qed.

Lemma set_up_waiting st st2 mk rs d :
  set_up st st2 mk rs → d ∈ batch_inputs (now st) (next_pid st) mk rs → waiting d st2.
Proof.
  intros Hsu (i & r & Hr & ->)%elem_of_batch_inputs. split; simpl.
  - by apply (su_inputs _ _ _ _ Hsu i r).
  - rewrite (su_timers _ _ _ _ Hsu). apply elem_of_app. right.
    by apply (elem_of_lookup_imap_2 (λ i r, request_timer (now st) (next_pid st + i) r)
                rs r i).
Qed.

(** ** Running the loop with followed inputs *)

Lemma done_status d st :
  done d st → status_of st (ip d) = Some (input_outcome d).
Proof. intros [H _]. unfold status_of. by rewrite H. Qed.

(** The loop ends with every input settled with its outcome, and with
    whatever else survives all five kinds of turns. *)
Lemma run_with_inputs base abase ins (L : state → Prop) st :
  sane base abase st → inputs_ok base ins → inputs_inv base ins st → L st →
  (∀ s s', sane base abase s → inputs_inv base ins s → L s → step s = Some s' →
           turn base abase ins s s' → inputs_inv base ins s' → L s') →
  quiescent (run st) ∧ (∀ d, d ∈ ins → done d (run st)) ∧ L (run st).
Proof.
  intros Hs Hok Hinv HL Hturn.
  assert (H : sane base abase (run st) ∧ inputs_inv base ins (run st) ∧ L (run st)).
  { apply (run_invariant (λ s, sane base abase s ∧ inputs_inv base ins s ∧ L s)); [done |].
    intros s s' (H1 & H2 & H3) Hstep.
    destruct (inputs_turn _ _ _ _ _ H1 Hok H2 Hstep) as [Ht Hi].
    split_and!; [by eapply sane_step | done | by eapply Hturn]. }
  destruct H as (_ & Hi & HLr). pose proof (run_quiescent st) as Hq.
  split_and!; [done | | done].
  intros d Hd. destruct (ii_phase _ _ _ Hi d Hd) as [[_ Ht] | HD]; [| done].
  destruct Hq as [_ Hq]. rewrite Hq in Ht. by apply elem_of_nil in Ht.
Qed.

(** *** One call of fetchData *)

Lemma fetch_set_up r st :
  wf st → set_up st (fetch r st).2 (λ _, []) [r].
Proof.
  intros Hwf. rewrite fetch_run. split; simpl; try done.
  - intros [|i] x; [| done]. intros [= <-]. rewrite Nat.add_0_r. apply lookup_insert_eq.
  - intros q Hq. rewrite lookup_insert_ne; [done | lia].
  - intros q pr Hq. rewrite lookup_insert_ne; [| lia].
    intros Hp. apply (wf_dom _ Hwf) in Hp. lia.
  - by rewrite Nat.add_0_r.
  - intros i r' q _ Hr. by apply elem_of_nil in Hr.
Qed.

(** From a well-formed state, the promise of a [fetch] call is settled with
    its outcome, at its due time, when the loop comes to rest. *)
Lemma fetch_settles r st :
  wf st →
  quiescent (run (fetch r st).2)
  ∧ promises (run (fetch r st).2) !! (fetch r st).1
    = Some (settled (outcome (api r) (failing r)))
  ∧ Settled (fetch r st).1 (outcome (api r) (failing r)) (now st + Z.max 0 (latency r))
    ∈ trace (run (fetch r st).2).
Proof.
  intros Hwf.
  destruct (set_up_inv _ _ _ _ Hwf (fetch_set_up r st Hwf)) as (Hs & Hok & Hinv).
  destruct (run_with_inputs _ _ _ (λ _, True) _ Hs Hok Hinv I) as (Hq & Hd & _); [done |].
  split; [done |].
  specialize (Hd {| ip := next_pid st + 0; iname := api r; ifail := failing r;
                    idue := now st + Z.max 0 (latency r); irs := [] |}).
  destruct Hd as [H1 H2]; [by left |].
  simpl in H1, H2. rewrite Nat.add_0_r in H1, H2. done.
Qed.





(** C9: called with a name only, [fetchData] takes 1000 for the delay and
    false for shouldFail: from every well-formed state of the runtime the
    promise is fulfilled with name ++ " data", 1000 time units after the
    call. *)
Theorem fetchData_defaults (st : state) (name : string) :
  wf st →
  fetchData name None None st = fetchData name (Some 1000) (Some false) st
  ∧ let (p, st1) := fetchData name None None st in
    quiescent (run st1)
    ∧ status_of (run st1) p = Some (Fulfilled (VString (name ++ " data")))
    ∧ Settled p (Fulfilled (VString (name ++ " data"))) (now st + 1000) ∈ trace (run st1).
Proof.
  intros Hwf. split; [done |].
  pose proof (fetch_settles {| api := name; latency := 1000; failing := false |} st Hwf)
    as (Hq & Hp & Ht).
  unfold fetch in *. simpl in *.
  change (fetchData name None None st) with (fetchData name (Some 1000) (Some false) st).
  destruct (fetchData name (Some 1000) (Some false) st) as [p st1] eqn:E.
  simpl in *. unfold status_of. by rewrite Hp.
Qed.

Lemma fetchData_defaults_witness :
  wf init
  ∧ fetchData "API 2" None None init = fetchData "API 2" (Some 1000) (Some false) init
  ∧ let (p, st1) := fetchData "API 2" None None init in
    quiescent (run st1)
    ∧ status_of (run st1) p = Some (Fulfilled (VString ("API 2" ++ " data")))
    ∧ Settled p (Fulfilled (VString ("API 2" ++ " data"))) (now init + 1000)
      ∈ trace (run st1).
Proof.
  split; [apply wf_init |].
  apply (fetchData_defaults init "API 2"). apply wf_init.
Defined.

(** *** An observer attached after the call *)


Lemma outcome_not_pending name fail : outcome name fail ≠ Pending.
Proof. by destruct fail. Qed.




(** ** The combinators *)

(** The set-up of a combinator: [fetch_all rs], a fresh aggregate promise,
    then the loop over the inputs with handlers that act on the aggregate
    only. *)
Lemma combinator_set_up pre G onF onR rs st st1a :
  wf st →
  (∀ s, pre s = (tt, set_aggregates (next_aid s) (G (aggregates s)) s)) →
  let base := next_pid st in
  let k := length rs in
  let agg := (base + k)%nat in
  promises st1a = <[agg := pending_with []]> (promises (fetch_all rs st).2) →
  next_pid st1a = S agg →
  timers st1a = timers (fetch_all rs st).2 → jobs st1a = jobs st → now st1a = now st →
  trace st1a = trace st →
  (∀ i q, htarget (onF i) q → q = agg) → (∀ i q, htarget (onR i) q → q = agg) →
  let st2 := (each_then pre onF onR 0 (fetch_all rs st).1 st1a).2 in
  set_up st st2 (λ j, [then_reaction (onF j) (onR j) (S agg + j)]) rs
  ∧ promises st2 !! agg = Some (pending_with [])
  ∧ aggregates st2 = Nat.iter k G (aggregates st1a)
  ∧ next_aid st2 = next_aid st1a
  ∧ next_pid st2 = (S agg + k)%nat.
Proof.
  intros Hwf Hpre base k agg Hp Hn Htm Hj Hnow Htr HF HR.
  rewrite fetch_all_run in *. simpl in *. fold base k in Hp, Htm |- *. fold agg in Hp |- *.
  destruct (each_then_run pre G onF onR Hpre (seq base k) 0 st1a)
    as (H1 & H2 & H3 & H4 & H5 & H6 & H7 & H8 & H9 & H10 & H11).
  { apply NoDup_seq. }
  { intros p Hp'%elem_of_seq. rewrite Hp, Hn. split; [| lia].
    rewrite lookup_insert_ne by lia. rewrite with_pending_lookup.
    case_decide; [done | lia]. }
  rewrite length_seq in *. rewrite Hn in *.
  split_and!; try done.
  - split.
    + intros i r Hr. pose proof (lookup_lt_Some _ _ _ Hr) as Hi. fold k in Hi.
      apply (H2 i (base + i)%nat). by apply lookup_seq.
    + intros q Hq. rewrite H4.
      * rewrite Hp, lookup_insert_ne by lia. rewrite with_pending_lookup.
        case_decide; [lia | done].
      * rewrite elem_of_seq. lia.
      * lia.
    + intros q pr Hq. fold k in Hq.
      destruct (decide (S agg ≤ q < S agg + k)%nat) as [Hin | Hout].
      * replace q with (S agg + (q - S agg))%nat by lia. rewrite H3 by lia.
        by intros [= <-].
      * rewrite H4; [| rewrite elem_of_seq; lia | lia].
        rewrite Hp. destruct (decide (q = agg)) as [-> | Hne].
        -- rewrite lookup_insert_eq. by intros [= <-].
        -- rewrite lookup_insert_ne by done. rewrite with_pending_lookup.
           case_decide; [lia |]. intros Hq'. apply (wf_dom _ Hwf) in Hq'. lia.
    + by rewrite H7, Htm.
    + by rewrite H8.
    + by rewrite H9.
    + by rewrite H10.
    + intros i r q Hi ->%list_elem_of_singleton. unfold rtarget. simpl.
      fold k. intros [H | [H | H]].
      * apply HF in H. lia.
      * apply HR in H. lia.
      * injection H as <-. lia.
  - rewrite H4; [| rewrite elem_of_seq; lia | lia]. rewrite Hp. apply lookup_insert_eq.
Qed.

Lemma resolve_fn_unresolved p v pr st :
  promises st !! p = Some pr → already_resolved pr = false →
  (resolve_fn p v st).2 = (settle p (Fulfilled v) st).2.
Proof. intros Hp Hf. unfold resolve_fn. rewrite bind_run. simpl. by rewrite Hp, Hf. Qed.

Lemma reject_fn_unresolved p v pr st :
  promises st !! p = Some pr → already_resolved pr = false →
  (reject_fn p v st).2 = (settle p (Rejected v) st).2.
Proof. intros Hp Hf. unfold reject_fn. rewrite bind_run. simpl. by rewrite Hp, Hf. Qed.

Lemma settle_lookup p s pr st :
  promises st !! p = Some pr → promises (settle p s st).2 !! p = Some (settled s).
Proof. intros Hp. unfold settle. rewrite Hp. simpl. apply lookup_insert_eq. Qed.

(** *** Promise.race *)








(** *** Promise.all and Promise.allSettled: the jobs of the inputs *)

Lemma resolve_fn_resolved p v pr st :
  promises st !! p = Some pr → already_resolved pr = true → (resolve_fn p v st).2 = st.
Proof. intros Hp Hf. unfold resolve_fn. rewrite bind_run. simpl. by rewrite Hp, Hf. Qed.

Lemma reject_fn_resolved p v pr st :
  promises st !! p = Some pr → already_resolved pr = true → (reject_fn p v st).2 = st.
Proof. intros Hp Hf. unfold reject_fn. rewrite bind_run. simpl. by rewrite Hp, Hf. Qed.

Lemma settle_aggregates p s st : aggregates (settle p s st).2 = aggregates st.
Proof. unfold settle. by destruct (promises st !! p). Qed.

Lemma resolve_fn_aggregates p v st : aggregates (resolve_fn p v st).2 = aggregates st.
Proof.
  unfold resolve_fn. rewrite bind_run. simpl.
  destruct (promises st !! p) as [pr|]; [| done].
  destruct (already_resolved pr); [done | apply settle_aggregates].
Qed.

Lemma reject_fn_aggregates p v st : aggregates (reject_fn p v st).2 = aggregates st.
Proof.
  unfold reject_fn. rewrite bind_run. simpl.
  destruct (promises st !! p) as [pr|]; [| done].
  destruct (already_resolved pr); [done | apply settle_aggregates].
Qed.

Lemma resolve_fn_other p v q st : q ≠ p → promises (resolve_fn p v st).2 !! q = promises st !! q.
Proof.
  intros Hne.
  destruct (t_promises _ _ _ _
    (resolve_fn_touches (λ x, x = p) (λ _, False) p v eq_refl st) q) as [E | [Hc _]]; done.
Qed.

Lemma element_fn_effect a i agg x s :
  slot_effect a i agg x s (element_fn a i agg x s).2.
Proof.
  intros r Hr. unfold element_fn. rewrite Hr. split.
  - intros ->. done.
  - intros ->. simpl.
    set (s1 := set_aggregates _ _ s).
    assert (Ha1 : aggregates s1 !! a = Some (slot_filled r i x)) by apply lookup_insert_eq.
    destruct (Z.eqb_spec (remaining r - 1) 0) as [E0 | Hne0].
    + split_and!.
      * by rewrite resolve_fn_aggregates.
      * done.
      * intros _. split.
        -- intros Hp. erewrite resolve_fn_unresolved; [| exact Hp | done].
           by eapply settle_lookup.
        -- intros pr Hp Hf. by erewrite resolve_fn_resolved.
    + split_and!; done.
Qed.

(** A job with an element function as handler and a derived promise. *)
Lemma slot_job_effect a i agg x h rej arg cap p s :
  (∀ s0, (call_handler h rej arg s0).2 = (element_fn a i agg x s0).2
         ∧ (call_handler h rej arg s0).1 = Normal VUndefined) →
  cap ≠ agg →
  slot_effect a i agg x s
    (run_job {| jhandler := h; jrejected := rej; jcapability := Some cap;
                jarg := arg; jsrc := p |} s).2.
Proof.
  intros Hcall Hne. unfold run_job. rewrite bind_run. simpl.
  set (s1 := set_trace _ s). unfold react. rewrite bind_run. simpl.
  destruct (Hcall s1) as [E1 ->]. rewrite E1.
  pose proof (element_fn_effect a i agg x s1) as He.
  set (s2 := (element_fn a i agg x s1).2) in *.
  intros r Hr. destruct (He r Hr) as [H1 H2]. split.
  - intros Hc. destruct (H1 Hc) as [H3 H4].
    by rewrite resolve_fn_aggregates, resolve_fn_other.
  - intros Hc. destruct (H2 Hc) as (H3 & H4 & H5).
    rewrite resolve_fn_aggregates, resolve_fn_other by done. done.
Qed.

Lemma reject_job_effect a agg x cap p s :
  cap ≠ agg →
  reject_effect a agg (Rejected x)
    s (run_job {| jhandler := HReject agg; jrejected := true; jcapability := Some cap;
                  jarg := x; jsrc := p |} s).2.
Proof.
  intros Hne. unfold run_job. rewrite bind_run. simpl.
  set (s1 := set_trace _ s). unfold react. rewrite bind_run. simpl. rewrite bind_run. simpl.
  split_and!.
  - by rewrite resolve_fn_aggregates, reject_fn_aggregates.
  - intros Hp. rewrite resolve_fn_other by done.
    erewrite reject_fn_unresolved; [| exact Hp | done]. by eapply settle_lookup.
  - intros pr Hp Hf. rewrite resolve_fn_other by done. by erewrite reject_fn_resolved.
Qed.

(** *** Counting the open slots *)

Lemma open_slots_cons b l :
  open_slots (b :: l) = ((if b then 0 else 1) + open_slots l)%nat.
Proof. unfold open_slots. rewrite filter_cons. by destruct b. Qed.

Lemma open_slots_fill l i :
  l !! i = Some false → open_slots l = S (open_slots (<[i:=true]> l)).
Proof.
  revert i. induction l as [|b l IH]; intros i; [done |].
  destruct i as [|i]; simpl.
  - intros [= ->]. by rewrite !open_slots_cons.
  - intros H. rewrite !open_slots_cons, (IH i H). destruct b; lia.
Qed.

Lemma open_slots_none l i :
  open_slots l = 0%nat → (i < length l)%nat → l !! i = Some true.
Proof.
  revert i. induction l as [|b l IH]; intros i; simpl; [lia |].
  rewrite open_slots_cons. destruct b; [| done]. simpl.
  intros H Hi. destruct i as [|i]; [done |]. simpl. apply IH; [done | lia].
Qed.

Lemma open_slots_replicate k : open_slots (replicate k false) = k.
Proof.
  induction k as [|k IH]; [done |]. simpl. rewrite open_slots_cons, IH. done.
Qed.

(** *** The invariant through the turns *)

Lemma queued_src d j : j ∈ input_jobs d → jsrc j = ip d.
Proof. intros (r & -> & _)%list_elem_of_fmap. apply reaction_job_src. Qed.

(** A change that leaves the aggregate and the inputs as they are and keeps
    the queued jobs of the inputs. *)
Lemma collect_inv_frame ins idx slot a agg k s s' :
  aggregates s' !! a = aggregates s !! a →
  promises s' !! agg = promises s !! agg →
  (∀ d, d ∈ ins → promises s' !! ip d = promises s !! ip d) →
  (∀ d, d ∈ ins → queued d s → queued d s') →
  collect_inv ins idx slot a agg k s → collect_inv ins idx slot a agg k s'.
Proof.
  intros Ha Hagg Hin Hq (r & Hr & Hl1 & Hl2 & Hrem & Hc & Hs & Hst).
  assert (Hsi : ∀ d, d ∈ ins → settled_in d s' ↔ settled_in d s).
  { intros d Hd. unfold settled_in. by rewrite Hin. }
  exists r. split_and!; try done.
  - by rewrite Ha.
  - intros d Hd Hcd. destruct (Hc d Hd Hcd) as [H1 H2]. split; [by apply Hsi | done].
  - intros d x Hd Hx Hcd Hsd. apply Hq; [done |]. eapply Hs; eauto. by apply Hsi.
  - destruct Hst as [(Hp & Hpos & Hn) | [(Hp & Hall) | (d & Hd & Hx & Hp)]].
    + left. split_and!; [by rewrite Hagg | done |].
      intros d Hd Hx Hsd. apply Hq; [done |]. apply Hn; [done | done |]. by apply Hsi.
    + right. left. split; [by rewrite Hagg | done].
    + right. right. exists d. split_and!; [done | done | by rewrite Hagg].
Qed.

Section collect.
Context (base abase : nat) (ins : list input) (idx : input → nat)
        (slot : input → option value) (a agg k : nat).
Context (Hok : inputs_ok base ins) (Hco : collect_ok base abase ins idx slot a agg k).

Local Abbreviation inv := (collect_inv ins idx slot a agg k).

Lemma collect_old (T : nat → Prop) (A : nat → Prop) s0 s s' :
  (∀ q, T q → (q < base)%nat) → (∀ b, A b → (b < abase)%nat) →
  aggregates s0 = aggregates s → promises s0 = promises s →
  (∀ d, d ∈ ins → queued d s → ∃ j, j ∈ input_jobs d ∧ j ∈ jobs s0) →
  touches T A s0 s' → inv s → inv s'.
Proof.
  intros HT HA Ea Ep Hq Ht. apply collect_inv_frame.
  - rewrite <- Ea. apply (t_aggregates _ _ _ _ Ht).
    intros Hb%HA. pose proof (co_a _ _ _ _ _ _ _ _ Hco). lia.
  - rewrite <- Ep.
    destruct (t_promises _ _ _ _ Ht agg) as [E | [Hl%HT _]]; [done |].
    pose proof (co_agg _ _ _ _ _ _ _ _ Hco). lia.
  - intros d Hd. rewrite <- Ep.
    destruct (t_promises _ _ _ _ Ht (ip d)) as [E | [Hl%HT _]]; [done |].
    pose proof (io_new _ _ Hok d Hd). lia.
  - intros d Hd Hqd. destruct (Hq d Hd Hqd) as (j & Hj & Hin).
    exists j. split; [done |].
    destruct (t_jobs _ _ _ _ Ht) as (new & -> & _). apply elem_of_app. by left.
Qed.

Lemma same_input d d1 : d ∈ ins → d1 ∈ ins → d = d1 ∨ ip d ≠ ip d1.
Proof using Hok.
  intros Hd Hd1. destruct (decide (ip d = ip d1)) as [E | Hne]; [left | by right].
  by apply (io_inj _ _ Hok).
Qed.

Lemma collect_timer d1 s s' :
  d1 ∈ ins → jobs s = [] →
  promises s' = <[ip d1 := settled (input_outcome d1)]> (promises s) →
  jobs s' = input_jobs d1 → aggregates s' = aggregates s →
  inv s → inv s'.
Proof using Hok Hco.
  intros Hd1 Ej Ep Ejs Ea (r & Hr & Hl1 & Hl2 & Hrem & Hc & Hs & Hst).
  assert (Hagg : promises s' !! agg = promises s !! agg).
  { rewrite Ep. apply lookup_insert_ne. intros E.
    by apply (co_agg_ne _ _ _ _ _ _ _ _ Hco d1). }
  assert (Hq1 : queued d1 s').
  { destruct (input_jobs d1) as [|j js] eqn:E.
    - by destruct (co_jobs _ _ _ _ _ _ _ _ Hco d1 Hd1).
    - exists j. rewrite E, Ejs. split; by left. }
  assert (Hnq : ∀ d, ¬ queued d s).
  { intros d (j & _ & Hj). rewrite Ej in Hj. by apply elem_of_nil in Hj. }
  assert (Hsi : ∀ d, ip d ≠ ip d1 → settled_in d s' ↔ settled_in d s).
  { intros d Hne. unfold settled_in. by rewrite Ep, lookup_insert_ne. }
  assert (Hs1 : settled_in d1 s').
  { unfold settled_in. rewrite Ep. apply lookup_insert_eq. }
  exists r. split_and!; try done.
  - by rewrite Ea.
  - intros d Hd Hcd. destruct (Hc d Hd Hcd) as [H1 H2]. split; [| done].
    destruct (same_input d d1 Hd Hd1) as [-> | Hne]; [done | by apply Hsi].
  - intros d x Hd Hx Hcd Hsd.
    destruct (same_input d d1 Hd Hd1) as [-> | Hne]; [done |].
    destruct (Hnq d). eapply Hs; eauto. by apply Hsi.
  - destruct Hst as [(Hp & Hpos & Hn) | [(Hp & Hall) | (d & Hd & Hx & Hp)]].
    + left. split_and!; [by rewrite Hagg | done |].
      intros d Hd Hx Hsd.
      destruct (same_input d d1 Hd Hd1) as [-> | Hne]; [done |].
      destruct (Hnq d). apply Hn; [done | done |]. by apply Hsi.
    + right. left. split; [by rewrite Hagg | done].
    + right. right. exists d. split_and!; [done | done | by rewrite Hagg].
Qed.

(** The job of input [d1] runs: what every such turn gives. *)
Lemma collect_job_facts d1 j js s s' :
  d1 ∈ ins → jobs s = j :: js → j ∈ input_jobs d1 →
  touches (λ q, (base ≤ q)%nat ∧ ∀ d', d' ∈ ins → q ≠ ip d') (hcell (jhandler j))
    (set_jobs js s) s' →
  jobs s' = js →
  (∀ d, d ∈ ins → promises s' !! ip d = promises s !! ip d)
  ∧ (∀ d, d ∈ ins → d ≠ d1 → queued d s → queued d s').
Proof using Hok.
  intros Hd1 Ej Hj Ht Ejs. split.
  - intros d Hd.
    destruct (t_promises _ _ _ _ Ht (ip d)) as [E | [[_ Hn] _]]; [done |].
    by destruct (Hn d Hd).
  - intros d Hd Hne (j0 & Hj0 & Hin). exists j0. split; [done |].
    rewrite Ej in Hin. apply elem_of_cons in Hin as [-> | Hin]; [| by rewrite Ejs].
    destruct Hne. apply (io_inj _ _ Hok); [done | done |].
    by rewrite <- (queued_src d j Hj0), <- (queued_src d1 j Hj).
Qed.

Lemma collect_job_slot d1 x js s s' :
  d1 ∈ ins → slot d1 = Some x → settled_in d1 s →
  slot_effect a (idx d1) agg x (set_jobs js s) s' →
  (∀ d, d ∈ ins → promises s' !! ip d = promises s !! ip d) →
  (∀ d, d ∈ ins → d ≠ d1 → queued d s → queued d s') →
  inv s → inv s'.
Proof using Hok Hco.
  intros Hd1 Hx1 Hs1 He Hin Hq (r & Hr & Hl1 & Hl2 & Hrem & Hc & Hs & Hst).
  assert (Hsi : ∀ d, d ∈ ins → settled_in d s' ↔ settled_in d s).
  { intros d Hd. unfold settled_in. by rewrite Hin. }
  destruct (He r Hr) as [H1 H2].
  pose proof (co_idx _ _ _ _ _ _ _ _ Hco d1 Hd1) as Hi1.
  assert (Hne1 : ∀ d, d ∈ ins → slot d = None → d ≠ d1).
  { intros d _ Hn ->. rewrite Hn in Hx1. discriminate. }
  destruct (lookup_lt_is_Some_2 (called r) (idx d1)) as [[|] Hcd1]; [lia | |].
  - (* the slot was filled before: nothing changes *)
    destruct (H1 Hcd1) as [Ha Hagg].
    exists r. split_and!; try done.
    + intros d Hd Hcd. destruct (Hc d Hd Hcd) as [H3 H4]. split; [by apply Hsi | done].
    + intros d y Hd Hy Hcd Hsd. apply Hq; [done | | ].
      * intros ->. rewrite Hcd1 in Hcd. discriminate.
      * eapply Hs; eauto. by apply Hsi.
    + destruct Hst as [(Hp & Hpos & Hn) | [(Hp & Hall) | (d & Hd & Hy & Hp)]].
      * left. split_and!; [by rewrite Hagg | done |].
        intros d Hd Hy Hsd. apply Hq; [done | by apply Hne1 |].
        apply Hn; [done | done |]. by apply Hsi.
      * right. left. split; [by rewrite Hagg | done].
      * right. right. exists d. split_and!; [done | done | by rewrite Hagg].
  - (* the slot is filled now *)
    destruct (H2 Hcd1) as (Ha & Hkeep & Hzero).
    pose proof (open_slots_fill _ _ Hcd1) as Hopen.
    exists (slot_filled r (idx d1) x). simpl. split_and!.
    + done.
    + by rewrite length_insert.
    + by rewrite length_insert.
    + rewrite Hrem, Hopen. lia.
    + intros d Hd Hcd. destruct (decide (idx d = idx d1)) as [E | Hne].
      * apply (co_inj _ _ _ _ _ _ _ _ Hco) in E as ->; [| done | done].
        split; [by apply Hsi |]. exists x. split; [done |].
        apply list_lookup_insert_eq. lia.
      * rewrite list_lookup_insert_ne in Hcd by done.
        destruct (Hc d Hd Hcd) as [H3 (y & Hy & Hv)]. split; [by apply Hsi |].
        exists y. split; [done |]. by rewrite list_lookup_insert_ne.
    + intros d y Hd Hy Hcd Hsd.
      destruct (decide (idx d = idx d1)) as [E | Hne].
      * rewrite E, list_lookup_insert_eq in Hcd by lia. discriminate.
      * rewrite list_lookup_insert_ne in Hcd by done.
        apply Hq; [done | by intros -> |]. eapply Hs; eauto. by apply Hsi.
    + destruct Hst as [(Hp & Hpos & Hn) | [(Hp & Hall) | (d & Hd & Hy & Hp)]].
      * destruct (decide (remaining r - 1 = 0)) as [E0 | Hne0].
        -- right. left. destruct (Hzero E0) as [Hz _]. split; [by apply Hz |].
           intros i Hi. apply open_slots_none; [lia | rewrite length_insert; lia].
        -- left. split_and!; [rewrite (Hkeep Hne0); done | lia |].
           intros d Hd Hy Hsd. apply Hq; [done | by apply Hne1 |].
           apply Hn; [done | done |]. by apply Hsi.
      * rewrite (Hall (idx d1) Hi1) in Hcd1. discriminate.
      * right. right. exists d. split_and!; [done | done |].
        destruct (decide (remaining r - 1 = 0)) as [E0 | Hne0].
        -- destruct (Hzero E0) as [_ Hz]. by apply Hz.
        -- by rewrite (Hkeep Hne0).
Qed.

Lemma collect_job_reject d1 js s s' :
  d1 ∈ ins → slot d1 = None → settled_in d1 s →
  reject_effect a agg (input_outcome d1) (set_jobs js s) s' →
  (∀ d, d ∈ ins → promises s' !! ip d = promises s !! ip d) →
  (∀ d, d ∈ ins → d ≠ d1 → queued d s → queued d s') →
  inv s → inv s'.
Proof using Hok Hco.
  intros Hd1 Hx1 Hs1 (Ha & Hpend & Hres) Hin Hq (r & Hr & Hl1 & Hl2 & Hrem & Hc & Hs & Hst).
  assert (Hsi : ∀ d, d ∈ ins → settled_in d s' ↔ settled_in d s).
  { intros d Hd. unfold settled_in. by rewrite Hin. }
  exists r. split_and!; try done.
  - by rewrite Ha.
  - intros d Hd Hcd. destruct (Hc d Hd Hcd) as [H3 H4]. split; [by apply Hsi | done].
  - intros d y Hd Hy Hcd Hsd. apply Hq; [done | | ].
    + intros ->. rewrite Hx1 in Hy. discriminate.
    + eapply Hs; eauto. by apply Hsi.
  - destruct Hst as [(Hp & Hpos & Hn) | [(Hp & Hall) | (d & Hd & Hy & Hp)]].
    + right. right. exists d1. split_and!; [done | done | by apply Hpend].
    + right. left. split; [by apply Hres | done].
    + right. right. exists d. split_and!; [done | done |]. by apply Hres.
Qed.

Lemma collect_layer st :
  sane base abase st → inputs_inv base ins st → inv st →
  quiescent (run st) ∧ (∀ d, d ∈ ins → done d (run st)) ∧ inv (run st).
Proof using Hok Hco.
  intros Hs Hinv HL.
  apply (run_with_inputs _ _ _ inv _ Hs Hok Hinv HL).
  intros s s' Hss Hi HLs Hstep Hturn Hi'.
  destruct Hturn as [j js Ej Hlt Ht | t rest Ej Et Hlt Ht
                    | d1 rest Hd1 Ej Et HW Ep Ejs Etm Eag Etr
                    | d1 rest Hd1 Ej Et HD ->
                    | d1 j js Hd1 Ej Hj HD Es' Ht Ejs ].
  - eapply (collect_old _ _ (set_jobs js s) s s'); [| | done | done | | exact Ht | done];
      [by intros q Hq | by intros b Hb |].
    intros d Hd (j0 & Hj0 & Hin). exists j0. split; [done |]. simpl.
    rewrite Ej in Hin. apply elem_of_cons in Hin as [-> | Hin]; [| done].
    rewrite (queued_src d j Hj0) in Hlt. pose proof (io_new _ _ Hok d Hd). lia.
  - eapply (collect_old _ _ _ s s'); [| | | | | exact Ht | done];
      [by intros q Hq | by intros b Hb | done | done |].
    intros d Hd (j0 & Hj0 & Hin). rewrite Ej in Hin. by apply elem_of_nil in Hin.
  - by eapply collect_timer.
  - eapply collect_inv_frame; [| | | | exact HLs]; try done.
  - destruct (collect_job_facts d1 j js s s' Hd1 Ej Hj Ht Ejs) as [Hin Hq].
    destruct HD as [HD _].
    destruct (slot d1) as [x|] eqn:Hx.
    + eapply (collect_job_slot d1 x js s s'); try done.
      rewrite Es'. by apply (co_slot _ _ _ _ _ _ _ _ Hco).
    + eapply (collect_job_reject d1 js s s'); try done.
      rewrite Es'. by apply (co_reject _ _ _ _ _ _ _ _ Hco).
Qed.

(** What the invariant says once the loop is at rest. *)
Lemma collect_result s :
  quiescent s → (∀ d, d ∈ ins → done d s) → inv s →
  (∀ i, (i < k)%nat → ∃ d, d ∈ ins ∧ idx d = i) →
  ((∀ d, d ∈ ins → slot d ≠ None) →
   ∃ vs, promises s !! agg = Some (settled (Fulfilled (VArray vs)))
         ∧ length vs = k
         ∧ ∀ d, d ∈ ins → ∃ x, slot d = Some x ∧ vs !! idx d = Some x)
  ∧ (∀ d0, d0 ∈ ins → slot d0 = None →
     ∃ d, d ∈ ins ∧ slot d = None
          ∧ promises s !! agg = Some (settled (input_outcome d))).
Proof using Hok Hco.
  intros [Hj _] Hdone (r & Hr & Hl1 & Hl2 & Hrem & Hc & Hs & Hst) Hsurj.
  assert (Hnq : ∀ d, ¬ queued d s).
  { intros d (j & _ & Hin). rewrite Hj in Hin. by apply elem_of_nil in Hin. }
  assert (Hsi : ∀ d, d ∈ ins → settled_in d s).
  { intros d Hd. by destruct (Hdone d Hd). }
  split.
  - intros Hall.
    assert (Hcalled : ∀ d, d ∈ ins → called r !! idx d = Some true).
    { intros d Hd. pose proof (co_idx _ _ _ _ _ _ _ _ Hco d Hd) as Hi.
      destruct (lookup_lt_is_Some_2 (called r) (idx d)) as [[|] Hcd]; [lia | done |].
      destruct (slot d) as [x|] eqn:Hx; [| by destruct (Hall d Hd)].
      destruct (Hnq d). eapply Hs; eauto. }
    assert (Hopen : open_slots (called r) = 0%nat).
    { destruct (open_slots (called r)) as [|n] eqn:E; [done |].
      assert (∃ i, (i < k)%nat ∧ called r !! i = Some false) as (i & Hi & Hf).
      { clear -E Hl2. revert k Hl2. induction (called r) as [|b l IH]; intros k Hl2.
        - done.
        - rewrite open_slots_cons in E. destruct b.
          + simpl in E. destruct (IH E (length l) eq_refl) as (i & Hi & Hf).
            exists (S i). simpl in Hl2. split; [lia | done].
          + exists 0%nat. simpl in Hl2. split; [lia | done]. }
      destruct (Hsurj i Hi) as (d & Hd & <-). rewrite (Hcalled d Hd) in Hf. discriminate. }
    exists (values r). split_and!; [| done |].
    + destruct Hst as [(Hp & Hpos & Hn) | [(Hp & _) | (d & Hd & Hy & Hp)]].
      * lia.
      * done.
      * by destruct (Hall d Hd).
    + intros d Hd. destruct (Hc d Hd (Hcalled d Hd)) as [_ H]. done.
  - intros d0 Hd0 Hx0.
    destruct Hst as [(Hp & Hpos & Hn) | [(Hp & Hall) | (d & Hd & Hy & Hp)]].
    + destruct (Hnq d0). apply Hn; [done | done | by apply Hsi].
    + pose proof (co_idx _ _ _ _ _ _ _ _ Hco d0 Hd0) as Hi.
      destruct (Hc d0 Hd0 (Hall _ Hi)) as [_ (x & Hx & _)]. rewrite Hx0 in Hx. discriminate.
    + by exists d.
Qed.
End collect.

(** *** The two collectors from a well-formed state *)

Lemma collector_run onF onR ps st :
  collector onF onR ps st
  = (next_pid st,
     (finish_loop (next_aid st) (next_pid st)
        (each_then (add_slot (next_aid st))
           (onF (next_aid st) (next_pid st)) (onR (next_aid st) (next_pid st)) 0 ps
           (new_aggregate {| values := []; remaining := 1; called := [] |}
              (new_promise st).2).2).2).2).
Proof.
  unfold collector. rewrite bind_run. simpl. rewrite bind_run. simpl.
  rewrite bind_run. rewrite bind_run. done.
Qed.

Lemma finish_loop_run a agg r st :
  aggregates st !! a = Some r → remaining r - 1 ≠ 0 →
  (finish_loop a agg st).2
  = set_aggregates (next_aid st)
      (<[a := {| values := values r; remaining := remaining r - 1; called := called r |}]>
         (aggregates st)) st.
Proof.
  intros Hr Hne. unfold finish_loop. rewrite Hr. simpl.
  by destruct (Z.eqb_spec (remaining r - 1) 0).
Qed.

Lemma set_up_aggregates st st2 mk rs n m :
  set_up st st2 mk rs → set_up st (set_aggregates n m st2) mk rs.
Proof. intros H. split; try apply H. Qed.

Section collector.
Context (onF onR : nat → nat → nat → handler) (slotf : pstate → option value).
Context (HonF : ∀ a agg i q, htarget (onF a agg i) q → q = agg).
Context (HonR : ∀ a agg i q, htarget (onR a agg i) q → q = agg).
Context (Hslot : ∀ a agg i cap p o x s,
           slotf o = Some x → cap ≠ agg →
           slot_effect a i agg x s
             (run_job (reaction_job p o (then_reaction (onF a agg i) (onR a agg i) cap)) s).2).
Context (Hreject : ∀ a agg i cap p o s,
           slotf o = None → o ≠ Pending → cap ≠ agg →
           reject_effect a agg o s
             (run_job (reaction_job p o (then_reaction (onF a agg i) (onR a agg i) cap)) s).2).

Lemma collector_settles st rs :
  wf st → rs ≠ [] →
  let (ps, st1) := fetch_all rs st in
  let (agg, st2) := collector onF onR ps st1 in
  quiescent (run st2)
  ∧ (∀ j r p, rs !! j = Some r → ps !! j = Some p →
       status_of (run st2) p = Some (outcome (api r) (failing r)))
  ∧ ((∀ r, r ∈ rs → slotf (outcome (api r) (failing r)) ≠ None) →
     ∃ vs, status_of (run st2) agg = Some (Fulfilled (VArray vs))
           ∧ length vs = length rs
           ∧ ∀ j r, rs !! j = Some r →
               ∃ x, slotf (outcome (api r) (failing r)) = Some x ∧ vs !! j = Some x)
  ∧ (∀ r0, r0 ∈ rs → slotf (outcome (api r0) (failing r0)) = None →
     ∃ r, r ∈ rs ∧ slotf (outcome (api r) (failing r)) = None
          ∧ status_of (run st2) agg = Some (outcome (api r) (failing r))).
Proof using HonF HonR Hslot Hreject.
  intros Hwf Hne.
  destruct (fetch_all rs st) as [ps st1] eqn:Efa.
  rewrite collector_run. unfold new_promise, new_aggregate. simpl.
  assert (Ef : ps = seq (next_pid st) (length rs)
               ∧ next_pid st1 = (next_pid st + length rs)%nat
               ∧ next_aid st1 = next_aid st ∧ aggregates st1 = aggregates st
               ∧ jobs st1 = jobs st ∧ now st1 = now st ∧ trace st1 = trace st).
  { rewrite fetch_all_run in Efa. by injection Efa as <- <-. }
  destruct Ef as (Eps & En & Ea & Eag & Ej & Enow & Etr).
  rewrite En, Ea.
  set (base := next_pid st) in *. set (k := length rs) in *.
  set (agg := (base + k)%nat) in *. set (a := next_aid st) in *.
  assert (Hk : (0 < k)%nat) by (unfold k; destruct rs; [done | simpl; lia]).
  match goal with |- context [each_then _ _ _ _ _ ?s] => set (s_b := s) end.
  pose proof (combinator_set_up (add_slot a) (slot_added a) (onF a agg) (onR a agg)
                rs st s_b Hwf (add_slot_run a)) as Hsu.
  rewrite Efa in Hsu. simpl in Hsu. fold base k agg in Hsu.
  destruct Hsu as (Hsu & Hpa & Hags & Hna & Hnp); try done;
    try (intros i q; by apply HonF); try (intros i q; by apply HonR).
  set (st2' := (each_then _ _ _ _ _ s_b).2) in *.
  set (mk := λ j : nat, [then_reaction (onF a agg j) (onR a agg j) (S agg + j)]) in *.
  set (r0 := {| values := replicate k VUndefined; remaining := 1 + Z.of_nat k;
                called := replicate k false |}).
  assert (Hag2 : aggregates st2' !! a = Some r0).
  { rewrite Hags.
    rewrite (slot_added_iter a k _ {| values := []; remaining := 1; called := [] |}).
    - by rewrite lookup_insert_eq.
    - subst s_b. simpl. apply lookup_insert_eq. }
  rewrite (finish_loop_run a agg r0) by (done || (simpl; lia)).
  set (r1 := {| values := values r0; remaining := remaining r0 - 1; called := called r0 |}).
  set (st2 := set_aggregates _ _ st2').
  pose proof (set_up_aggregates _ _ _ _ (next_aid st2') (<[a:=r1]> (aggregates st2')) Hsu)
    as Hsu2. fold st2 in Hsu2.
  destruct (set_up_inv _ _ _ _ Hwf Hsu2) as (Hs & Hok & Hinv).
  fold base a in Hs, Hok, Hinv.
  set (ins := batch_inputs (now st) base mk rs) in *.
  set (idx := λ d : input, (ip d - base)%nat).
  set (slot := λ d : input, slotf (input_outcome d)).
  assert (Hco : collect_ok base a ins idx slot a agg k).
  { split.
    - intros d (j & r & Hr & ->)%elem_of_batch_inputs. unfold idx. simpl.
      pose proof (lookup_lt_Some _ _ _ Hr). unfold k. lia.
    - intros d d' Hd Hd'. unfold idx. intros E. apply (io_inj _ _ Hok); [done | done |].
      pose proof (io_new _ _ Hok d Hd). pose proof (io_new _ _ Hok d' Hd'). lia.
    - done.
    - unfold agg. lia.
    - intros d (j & r & Hr & ->)%elem_of_batch_inputs. simpl.
      pose proof (lookup_lt_Some _ _ _ Hr). unfold agg, k. lia.
    - by intros d (j & r & Hr & ->)%elem_of_batch_inputs.
    - intros d x j s (i & r & Hr & ->)%elem_of_batch_inputs Hx.
      unfold input_jobs, idx. simpl. intros ->%list_elem_of_singleton.
      replace (base + i - base)%nat with i by lia.
      apply Hslot; [done | lia].
    - intros d j s (i & r & Hr & ->)%elem_of_batch_inputs Hx.
      unfold input_jobs. simpl. intros ->%list_elem_of_singleton.
      apply Hreject; [done | apply outcome_not_pending | lia]. }
  assert (Hw : ∀ d, d ∈ ins → waiting d st2) by (intros d Hd; by eapply set_up_waiting).
  assert (Hns : ∀ d, d ∈ ins → ¬ settled_in d st2).
  { intros d Hd Hsd. destruct (Hw d Hd) as [Hp _]. unfold settled_in in Hsd.
    rewrite Hp in Hsd. discriminate. }
  assert (HL : collect_inv ins idx slot a agg k st2).
  { exists r1. split_and!.
    - subst st2. simpl. apply lookup_insert_eq.
    - simpl. apply length_replicate.
    - simpl. apply length_replicate.
    - simpl. rewrite open_slots_replicate. lia.
    - intros d Hd. simpl. intros [E _]%lookup_replicate. discriminate.
    - intros d x Hd _ _ Hsd. by destruct (Hns d Hd).
    - left. split_and!; [done | simpl; lia |].
      intros d Hd _ Hsd. by destruct (Hns d Hd). }
  destruct (collect_layer base a ins idx slot a agg k Hok Hco st2 Hs Hinv HL)
    as (Hq & Hd & HLr).
  destruct (collect_result base a ins idx slot a agg k Hok Hco (run st2) Hq Hd HLr)
    as [Hall Hone].
  { intros i Hi. destruct (lookup_lt_is_Some_2 rs i Hi) as [r Hr].
    eexists. split; [apply elem_of_batch_inputs; by exists i, r |].
    unfold idx. simpl. lia. }
  split; [done |]. split_and!.
  - intros j r p Hr Hp. rewrite Eps in Hp. apply lookup_seq in Hp as [-> _].
    apply (done_status {| ip := base + j; iname := api r; ifail := failing r;
                          idue := now st + Z.max 0 (latency r); irs := mk j |}).
    apply Hd. apply elem_of_batch_inputs. by exists j, r.
  - intros Hsl. destruct Hall as (vs & Hp & Hl & Hv).
    { intros d (j & r & Hr & ->)%elem_of_batch_inputs. unfold slot. simpl.
      apply Hsl. by eapply list_elem_of_lookup_2. }
    exists vs. split_and!; [unfold status_of; by rewrite Hp | done |].
    intros j r Hr.
    destruct (Hv {| ip := base + j; iname := api r; ifail := failing r;
                    idue := now st + Z.max 0 (latency r); irs := mk j |})
      as (x & Hx & Hvx).
    { apply elem_of_batch_inputs. by exists j, r. }
    exists x. split; [done |]. unfold idx in Hvx. simpl in Hvx.
    by replace (base + j - base)%nat with j in Hvx by lia.
  - intros r [j Hr]%list_elem_of_lookup_1 Hx.
    destruct (Hone {| ip := base + j; iname := api r; ifail := failing r;
                      idue := now st + Z.max 0 (latency r); irs := mk j |})
      as (d & (j' & r' & Hr' & ->)%elem_of_batch_inputs & Hx' & Hp).
    { apply elem_of_batch_inputs. by exists j, r. }
    { done. }
    exists r'. split_and!; [by eapply list_elem_of_lookup_2 | done |].
    unfold status_of. by rewrite Hp.
Qed.
End collector.

Lemma element_call a i agg x h rej arg :
  (∀ s, call_handler h rej arg s
        = (element_fn a i agg x ≫= λ _, mret (Normal VUndefined)) s) →
  ∀ s0, (call_handler h rej arg s0).2 = (element_fn a i agg x s0).2
        ∧ (call_handler h rej arg s0).1 = Normal VUndefined.
Proof. intros H s0. rewrite H, bind_run. done. Qed.

Lemma all_slot_effect a agg i cap p o x s :
  all_slot o = Some x → cap ≠ agg →
  slot_effect a i agg x s
    (run_job (reaction_job p o (then_reaction (HAllElement a i agg) (HReject agg) cap)) s).2.
Proof.
  destruct o as [|v|e]; try done. intros [= ->] Hne.
  apply (slot_job_effect a i agg x (HAllElement a i agg) false x cap p s);
    [by apply element_call | done].
Qed.

Lemma all_reject_effect a agg i cap p o s :
  all_slot o = None → o ≠ Pending → cap ≠ agg →
  reject_effect a agg o s
    (run_job (reaction_job p o (then_reaction (HAllElement a i agg) (HReject agg) cap)) s).2.
Proof.
  destruct o as [|v|e]; try done. intros _ _ Hne. by apply reject_job_effect.
Qed.

Lemma allSettled_slot_effect a agg i cap p o x s :
  allSettled_slot o = Some x → cap ≠ agg →
  slot_effect a i agg x s
    (run_job (reaction_job p o
                (then_reaction (HSettledFulfilled a i agg) (HSettledRejected a i agg) cap)) s).2.
Proof.
  destruct o as [|v|e]; try done; intros [= <-] Hne.
  - apply (slot_job_effect a i agg _ (HSettledFulfilled a i agg) false v cap p s);
      [by apply element_call | done].
  - apply (slot_job_effect a i agg _ (HSettledRejected a i agg) true e cap p s);
      [by apply element_call | done].
Qed.

(** C3: from every well-formed state of the runtime, for every non-empty
    sequence of [fetchData] calls, [Promise.all] over their promises has
    settled once the event loop has come to rest: if every call succeeds, it
    is fulfilled with the array of their values, in the order of the inputs;
    if exactly one call fails, it is rejected with the reason of that call.
    In both cases every input is settled with its own outcome. *)
Theorem all_collects_or_rejects (st : state) (rs : list request) :
  wf st → rs ≠ [] →
  let (ps, st1) := fetch_all rs st in
  let (agg, st2) := Promise_all ps st1 in
  quiescent (run st2)
  ∧ ((∀ r, r ∈ rs → failing r = false) →
     status_of (run st2) agg
     = Some (Fulfilled (VArray (map (λ r, VString (api r ++ " data")) rs))))
  ∧ (∀ i r, rs !! i = Some r → failing r = true →
       (∀ j r', rs !! j = Some r' → failing r' = true → j = i) →
       status_of (run st2) agg
       = Some (Rejected (VString ("Error fetching data from " ++ api r))))
  ∧ (∀ j r p, rs !! j = Some r → ps !! j = Some p →
       status_of (run st2) p = Some (outcome (api r) (failing r))).
Proof.
  intros Hwf Hne.
  pose proof (collector_settles (λ a agg i, HAllElement a i agg) (λ _ agg _, HReject agg)
                all_slot) as H.
  specialize (H ltac:(by intros a agg i q) ltac:(by intros a agg i q)
                all_slot_effect all_reject_effect st rs Hwf Hne).
  destruct (fetch_all rs st) as [ps st1].
  change (Promise_all ps st1)
    with (collector (λ a agg i, HAllElement a i agg) (λ _ agg _, HReject agg) ps st1).
  destruct (collector _ _ ps st1) as [agg st2].
  destruct H as (Hq & Hin & Hall & Hone). split_and!; [done | | | done].
  - intros Hok. destruct Hall as (vs & Hs & Hl & Hv).
    { intros r Hr. unfold outcome. by rewrite (Hok r Hr). }
    rewrite Hs. do 3 f_equal. apply list_eq. intros j.
    rewrite list_lookup_fmap. destruct (rs !! j) as [r|] eqn:Hr; simpl.
    + destruct (Hv j r Hr) as (x & Hx & ->).
      unfold outcome in Hx. rewrite (Hok r) in Hx by (by eapply list_elem_of_lookup_2).
      by injection Hx as <-.
    + apply lookup_ge_None. apply lookup_ge_None in Hr. lia.
  - intros i r Hr Hf Honly.
    destruct (Hone r) as (r' & [j Hr']%list_elem_of_lookup_1 & Hx & Hs).
    { by eapply list_elem_of_lookup_2. }
    { unfold outcome. by rewrite Hf. }
    assert (failing r' = true) as Hf'.
    { unfold outcome in Hx. by destruct (failing r'). }
    rewrite (Honly j r' Hr' Hf') in Hr'. rewrite Hr in Hr'. injection Hr' as <-.
    rewrite Hs. unfold outcome. by rewrite Hf.
Qed.

Lemma all_collects_or_rejects_witness :
  wf init ∧ error_requests ≠ []
  ∧ let (ps, st1) := fetch_all error_requests init in
    let (agg, st2) := Promise_all ps st1 in
    quiescent (run st2)
    ∧ ((∀ r, r ∈ error_requests → failing r = false) →
       status_of (run st2) agg
       = Some (Fulfilled (VArray (map (λ r, VString (api r ++ " data")) error_requests))))
    ∧ (∀ i r, error_requests !! i = Some r → failing r = true →
         (∀ j r', error_requests !! j = Some r' → failing r' = true → j = i) →
         status_of (run st2) agg
         = Some (Rejected (VString ("Error fetching data from " ++ api r))))
    ∧ (∀ j r p, error_requests !! j = Some r → ps !! j = Some p →
         status_of (run st2) p = Some (outcome (api r) (failing r))).
Proof.
  split; [apply wf_init |]. split; [discriminate |].
  apply (all_collects_or_rejects init error_requests); [apply wf_init | discriminate].
Defined.

(** C5: from every well-formed state of the runtime, for every non-empty
    sequence of [fetchData] calls, succeeding or failing,
    [Promise.allSettled] over their promises is fulfilled once the event
    loop has come to rest, every input being settled by then, and its value
    is an array with one entry per input, in the order of the inputs: the
    object fulfilled-with-value for a call that succeeds, the object
    rejected-with-reason for one that fails. *)
Theorem allSettled_reports_every_input (st : state) (rs : list request) :
  wf st → rs ≠ [] →
  let (ps, st1) := fetch_all rs st in
  let (agg, st2) := Promise_allSettled ps st1 in
  quiescent (run st2)
  ∧ status_of (run st2) agg
    = Some (Fulfilled (VArray (map (λ r,
        if failing r
        then VObject [("status", VString "rejected");
                      ("reason", VString ("Error fetching data from " ++ api r))]
        else VObject [("status", VString "fulfilled");
                      ("value", VString (api r ++ " data"))]) rs)))
  ∧ (∀ j r p, rs !! j = Some r → ps !! j = Some p →
       status_of (run st2) p = Some (outcome (api r) (failing r))).
Proof.
  intros Hwf Hne.
  pose proof (collector_settles (λ a agg i, HSettledFulfilled a i agg)
                (λ a agg i, HSettledRejected a i agg) allSettled_slot) as H.
  specialize (H ltac:(by intros a agg i q) ltac:(by intros a agg i q)
                allSettled_slot_effect).
  specialize (H ltac:(intros a agg i cap p o s Hn Ho; by destruct o) st rs Hwf Hne).
  destruct (fetch_all rs st) as [ps st1].
  change (Promise_allSettled ps st1)
    with (collector (λ a agg i, HSettledFulfilled a i agg)
            (λ a agg i, HSettledRejected a i agg) ps st1).
  destruct (collector _ _ ps st1) as [agg st2].
  destruct H as (Hq & Hin & Hall & _). split_and!; [done | | done].
  destruct Hall as (vs & Hs & Hl & Hv).
  { intros r Hr. unfold outcome. by destruct (failing r). }
  rewrite Hs. do 3 f_equal. apply list_eq. intros j.
  rewrite list_lookup_fmap. destruct (rs !! j) as [r|] eqn:Hr; simpl.
  - destruct (Hv j r Hr) as (x & Hx & ->).
    unfold outcome in Hx. destruct (failing r); by injection Hx as <-.
  - apply lookup_ge_None. apply lookup_ge_None in Hr. lia.
Qed.

Lemma allSettled_reports_every_input_witness :
  wf init ∧ allSettled_requests ≠ []
  ∧ let (ps, st1) := fetch_all allSettled_requests init in
    let (agg, st2) := Promise_allSettled ps st1 in
    quiescent (run st2)
    ∧ status_of (run st2) agg
      = Some (Fulfilled (VArray (map (λ r,
          if failing r
          then VObject [("status", VString "rejected");
                        ("reason", VString ("Error fetching data from " ++ api r))]
          else VObject [("status", VString "fulfilled");
                        ("value", VString (api r ++ " data"))]) allSettled_requests)))
    ∧ (∀ j r p, allSettled_requests !! j = Some r → ps !! j = Some p →
         status_of (run st2) p = Some (outcome (api r) (failing r))).
Proof.
  split; [apply wf_init |]. split; [discriminate |].
  apply (allSettled_reports_every_input init allSettled_requests);
    [apply wf_init | discriminate].
Defined.

(** ** Settling once *)

#[export] Instance keeps_preorder (I : state → Prop) : PreOrder (keeps I).
Proof. split; [intros st H; exact H | intros s1 s2 s3 H1 H2 H; by apply H2, H1]. Qed.

Lemma settlements_app p tr1 tr2 :
  settlements p (tr1 ++ tr2) = settlements p tr1 ++ settlements p tr2.
Proof.
  induction tr1 as [|[q s t | q h x] tr1 IH]; simpl; [done | |].
  - case_decide; by rewrite IH.
  - by rewrite IH.
Qed.

Lemma settlements_elem p s tr :
  s ∈ settlements p tr → ∃ i t, tr !! i = Some (Settled p s t).
Proof.
  induction tr as [|[q s' t | q h x] tr IH]; simpl.
  - intros H. by apply elem_of_nil in H.
  - case_decide as Hq.
    + intros [-> | H]%elem_of_cons.
      * subst q. by exists 0%nat, t.
      * destruct (IH H) as (i & t' & Hi). by exists (S i), t'.
    + intros H. destruct (IH H) as (i & t' & Hi). by exists (S i), t'.
  - intros H. destruct (IH H) as (i & t' & Hi). by exists (S i), t'.
Qed.

(** The invariant only looks at the promises, the jobs and the trace. *)
Lemma trace_ok_ext st st' :
  promises st' = promises st → next_pid st' = next_pid st →
  jobs st' = jobs st → trace st' = trace st →
  trace_ok st → trace_ok st'.
Proof.
  intros Ep En Ej Et H. split.
  - intros p pr. rewrite Ep, En. apply H.
  - intros p. rewrite Ep, Et. apply H.
  - intros p pr. rewrite Ep, Et. apply H.
  - intros p pr. rewrite Ep, Et. apply H.
  - intros j. rewrite Ep, Ej. apply H.
  - intros i p h x. rewrite Et. apply H.
Qed.

Lemma trace_ok_init : trace_ok init.
Proof.
  split; simpl.
  - intros p pr. by rewrite lookup_empty.
  - done.
  - intros p pr. by rewrite lookup_empty.
  - intros p pr. by rewrite lookup_empty.
  - intros j Hj. by apply elem_of_nil in Hj.
  - intros i p h x. by rewrite lookup_nil.
Qed.

Lemma notified_app tr ev :
  (∀ i p h x, tr !! i = Some (Notified p h x) →
     ∃ i' s t, (i' < i)%nat ∧ tr !! i' = Some (Settled p s t) ∧ x = payload s) →
  (∀ p h x, Notified p h x ∈ ev →
     ∃ i' s t, tr !! i' = Some (Settled p s t) ∧ x = payload s) →
  ∀ i p h x, (tr ++ ev) !! i = Some (Notified p h x) →
    ∃ i' s t, (i' < i)%nat ∧ (tr ++ ev) !! i' = Some (Settled p s t) ∧ x = payload s.
Proof.
  intros Hold Hnew i p h x Hi.
  apply lookup_app_Some in Hi as [Hi | [Hge Hi]].
  - destruct (Hold i p h x Hi) as (i' & s & t & Hlt & Hi' & Hx).
    exists i', s, t. split_and!; [done | | done]. by apply lookup_app_l_Some.
  - destruct (Hnew p h x) as (i' & s & t & Hi' & Hx); [by eapply list_elem_of_lookup_2 |].
    exists i', s, t. pose proof (lookup_lt_Some _ _ _ Hi').
    split_and!; [lia | by apply lookup_app_l_Some | done].
Qed.

Lemma new_promise_trace_ok : preserves (keeps trace_ok) new_promise.
Proof.
  intros st H. unfold new_promise. simpl.
  assert (Hnone : promises st !! next_pid st = None).
  { destruct (promises st !! next_pid st) as [pr|] eqn:E; [| done].
    apply (tk_dom _ H) in E. lia. }
  split; simpl.
  - intros p pr [[-> _] | [_ Hp]]%lookup_insert_Some; [lia |].
    apply (tk_dom _ H) in Hp. lia.
  - intros p [Hp _]%lookup_insert_None. by apply (tk_fresh _ H).
  - intros p pr [[<- <-] | [_ Hp]]%lookup_insert_Some Hf.
    + split; [done |]. by apply (tk_fresh _ H).
    + by apply (tk_pending _ H p pr).
  - intros p pr [[<- <-] | [_ Hp]]%lookup_insert_Some Hf; [done |].
    by apply (tk_settled _ H p pr).
  - intros j Hj. destruct (tk_jobs _ H j Hj) as (pr & Hp & Hs & Ha).
    exists pr. split_and!; try done.
    rewrite lookup_insert_ne; [done |]. intros E. rewrite <- E, Hnone in Hp. done.
  - apply H.
Qed.

Lemma perform_then_trace_ok p onF onR cap :
  preserves (keeps trace_ok) (perform_then p onF onR cap).
Proof.
  intros st H. unfold perform_then.
  destruct (promises st !! p) as [pr|] eqn:Ep; [| done].
  destruct (status pr) eqn:Es.
  - simpl. split; simpl.
    + intros q pr' [[-> _] | [_ Hq]]%lookup_insert_Some; by eapply (tk_dom _ H).
    + intros q [Hq _]%lookup_insert_None. by apply (tk_fresh _ H).
    + intros q pr' [[<- <-] | [_ Hq]]%lookup_insert_Some Hf; simpl in *.
      * split; [done |]. by apply (tk_pending _ H p pr).
      * by apply (tk_pending _ H q pr').
    + intros q pr' [[<- <-] | [_ Hq]]%lookup_insert_Some Hf; simpl in *.
      * destruct (tk_settled _ H p pr Ep Hf) as [Hc _]. by rewrite Es in Hc.
      * by apply (tk_settled _ H q pr').
    + intros j Hj. destruct (tk_jobs _ H j Hj) as (pr' & Hp & Hs & Ha).
      destruct (decide (jsrc j = p)) as [E | Hne].
      * rewrite E, Ep in Hp. injection Hp as <-. by rewrite Es in Hs.
      * exists pr'. by rewrite lookup_insert_ne.
    + apply H.
  - simpl. split; simpl; try apply H.
    intros j [Hj | ->%list_elem_of_singleton]%elem_of_app; [by apply (tk_jobs _ H) |].
    exists pr. simpl. rewrite Ep, Es. done.
  - simpl. split; simpl; try apply H.
    intros j [Hj | ->%list_elem_of_singleton]%elem_of_app; [by apply (tk_jobs _ H) |].
    exists pr. simpl. rewrite Ep, Es. done.
Qed.

Lemma settle_trace_ok p s pr st :
  trace_ok st → promises st !! p = Some pr → already_resolved pr = false →
  s ≠ Pending → trace_ok (settle p s st).2.
Proof.
  intros H Ep Hf Hs. unfold settle. rewrite Ep. simpl.
  destruct (tk_pending _ H p pr Ep Hf) as [Hpend Hnone].
  assert (Hset : ∀ q, q ≠ p →
            settlements q (trace st ++ [Settled p s (now st)]) = settlements q (trace st)).
  { intros q Hne. rewrite settlements_app. simpl.
    destruct (decide (p = q)) as [E | _]; [by destruct Hne | by rewrite app_nil_r]. }
  split; simpl.
  - intros q pr' [[-> _] | [_ Hq]]%lookup_insert_Some; by eapply (tk_dom _ H).
  - intros q [Hq Hne]%lookup_insert_None. rewrite Hset by done. by apply (tk_fresh _ H).
  - intros q pr' [[<- <-] | [Hne Hq]]%lookup_insert_Some Hf'; [done |].
    rewrite Hset by done. by apply (tk_pending _ H q pr').
  - intros q pr' [[<- <-] | [Hne Hq]]%lookup_insert_Some Hf'; simpl.
    + split; [done |]. rewrite settlements_app, Hnone. simpl.
      by destruct (decide (p = p)).
    + rewrite Hset by done. by apply (tk_settled _ H q pr').
  - intros j [Hj | Hj]%elem_of_app.
    + destruct (tk_jobs _ H j Hj) as (pr' & Hp & Hs' & Ha).
      destruct (decide (jsrc j = p)) as [E | Hne].
      * rewrite E, Ep in Hp. injection Hp as <-. by rewrite Hpend in Hs'.
      * exists pr'. by rewrite lookup_insert_ne.
    + apply list_elem_of_fmap in Hj as (r & -> & _).
      rewrite reaction_job_src, lookup_insert_eq. eexists. split; [done |]. simpl.
      split; [done |]. by destruct s.
  - apply notified_app; [apply H |].
    intros q h x Hin. apply list_elem_of_singleton in Hin. discriminate.
Qed.

Lemma resolve_fn_trace_ok p v : preserves (keeps trace_ok) (resolve_fn p v).
Proof.
  intros st H. unfold resolve_fn. rewrite bind_run. simpl.
  destruct (promises st !! p) as [pr|] eqn:Ep; [| done].
  destruct (already_resolved pr) eqn:Hf; [done |]. by eapply settle_trace_ok.
Qed.

Lemma reject_fn_trace_ok p v : preserves (keeps trace_ok) (reject_fn p v).
Proof.
  intros st H. unfold reject_fn. rewrite bind_run. simpl.
  destruct (promises st !! p) as [pr|] eqn:Ep; [| done].
  destruct (already_resolved pr) eqn:Hf; [done |]. by eapply settle_trace_ok.
Qed.

Lemma console_call_trace_ok l xs : preserves (keeps trace_ok) (console_call l xs).
Proof. intros st H. by apply (trace_ok_ext st). Qed.

Lemma setTimeout_trace_ok cb delay : preserves (keeps trace_ok) (setTimeout cb delay).
Proof. intros st H. by apply (trace_ok_ext st). Qed.

Lemma new_aggregate_trace_ok r : preserves (keeps trace_ok) (new_aggregate r).
Proof. intros st H. by apply (trace_ok_ext st). Qed.

Lemma add_slot_trace_ok a : preserves (keeps trace_ok) (add_slot a).
Proof. intros st H. rewrite add_slot_run. by apply (trace_ok_ext st). Qed.

#[export] Hint Resolve new_promise_trace_ok perform_then_trace_ok resolve_fn_trace_ok
  reject_fn_trace_ok console_call_trace_ok setTimeout_trace_ok new_aggregate_trace_ok
  add_slot_trace_ok : pres.

Lemma element_fn_trace_ok a i agg x : preserves (keeps trace_ok) (element_fn a i agg x).
Proof.
  intros st H. unfold element_fn.
  destruct (aggregates st !! a) as [r|]; [| done].
  assert (∀ r', trace_ok
    (if Z.eqb (remaining r') 0
     then resolve_fn agg (VArray (values r'))
            (set_aggregates (next_aid st) (<[a:=r']> (aggregates st)) st)
     else (tt, set_aggregates (next_aid st) (<[a:=r']> (aggregates st)) st)).2) as H'.
  { intros r'. destruct (Z.eqb _ 0); simpl.
    - apply resolve_fn_trace_ok. by apply (trace_ok_ext st).
    - by apply (trace_ok_ext st). }
  destruct (called r !! i) as [[]|]; [done | apply H' | apply H'].
Qed.

Lemma finish_loop_trace_ok a agg : preserves (keeps trace_ok) (finish_loop a agg).
Proof.
  intros st H. unfold finish_loop.
  destruct (aggregates st !! a) as [r|]; [| done]. simpl.
  destruct (Z.eqb _ 0); simpl.
  - apply resolve_fn_trace_ok. by apply (trace_ok_ext st).
  - by apply (trace_ok_ext st).
Qed.

#[export] Hint Resolve element_fn_trace_ok finish_loop_trace_ok : pres.

Lemma report_settled_trace_ok x i : preserves (keeps trace_ok) (report_settled x i).
Proof. unfold report_settled. pres. Qed.

#[export] Hint Resolve report_settled_trace_ok : pres.

Lemma resume_trace_ok f c retp : preserves (keeps trace_ok) (resume f c retp).
Proof.
  unfold resume, resume_body. pres.
  apply preserves_forEach; [apply _ |]. intros. pres.
Qed.

#[export] Hint Resolve resume_trace_ok : pres.

Lemma react_trace_ok j : preserves (keeps trace_ok) (react j).
Proof. unfold react, call_handler. pres. Qed.

Lemma run_timer_trace_ok cb : preserves (keeps trace_ok) (run_timer cb).
Proof. unfold run_timer. pres. Qed.

Lemma step_trace_ok st st' : trace_ok st → step st = Some st' → trace_ok st'.
Proof.
  intros H Hstep.
  destruct (step_cases _ _ Hstep) as [(j & js & Ej & ->) | (t & rest & Ej & Et & ->)].
  - unfold run_job. rewrite bind_run. apply react_trace_ok. simpl.
    destruct (tk_jobs _ H j ltac:(rewrite Ej; by left)) as (pr & Hp & Hs & Ha).
    destruct (already_resolved pr) eqn:Hf.
    2:{ destruct (tk_pending _ H _ _ Hp Hf) as [Hc _]. by rewrite Hc in Hs. }
    destruct (tk_settled _ H _ _ Hp Hf) as [_ Hset].
    destruct (settlements_elem (jsrc j) (status pr) (trace st)) as (i' & t & Hi');
      [rewrite Hset; by left |].
    split; simpl.
    + apply H.
    + intros p Hp'. rewrite settlements_app. simpl. rewrite app_nil_r. by apply (tk_fresh _ H).
    + intros p pr' Hp' Hf'. rewrite settlements_app. simpl. rewrite app_nil_r.
      by apply (tk_pending _ H p pr').
    + intros p pr' Hp' Hf'. rewrite settlements_app. simpl. rewrite app_nil_r.
      by apply (tk_settled _ H p pr').
    + intros j' Hj'. apply (tk_jobs _ H). rewrite Ej. by right.
    + apply notified_app; [apply H |].
      intros p h x [= -> -> ->]%list_elem_of_singleton. by exists i', (status pr), t.
  - apply run_timer_trace_ok. by apply (trace_ok_ext st).
Qed.

Lemma each_then_trace_ok pre onF onR :
  preserves (keeps trace_ok) pre →
  ∀ ps i, preserves (keeps trace_ok) (each_then pre onF onR i ps).
Proof.
  intros Hpre ps. induction ps as [|p ps IH]; intros i; simpl; [pres |].
  unfold then_. pres.
Qed.

Lemma await_trace_ok p f retp : preserves (keeps trace_ok) (await_ p f retp).
Proof. unfold await_. pres. Qed.

#[export] Hint Resolve await_trace_ok : pres.

Lemma scripted_trace_ok {A} (m : M A) : scripted m → preserves (keeps trace_ok) m.
Proof.
  induction 1; pres; try (apply each_then_trace_ok; pres).
Qed.

Lemma reaches_trace_ok st st' : trace_ok st → reaches st st' → trace_ok st'.
Proof.
  intros H Hr. induction Hr as [| A m st' _ IH Hm | st' st'' _ IH Hstep]; [done | |].
  - by apply (scripted_trace_ok m Hm).
  - by eapply step_trace_ok.
Qed.

(** C7: for every promise made by [fetchData] in a state the script can
    reach, in every state that comes after it: the trace has at most one
    settlement of the promise, and it is a success or a failure; the status
    of the promise is pending exactly as long as there is none, and is the
    settled one afterwards; and every call of a handler registered on the
    promise comes after that settlement and is given its value or reason. *)
Theorem fetchData_settles_once (st : state) (name : string) (delay : option Z)
    (shouldFail : option bool) :
  reachable st →
  let (p, st1) := fetchData name delay shouldFail st in
  status_of st1 p = Some Pending
  ∧ ∀ st2, reaches st1 st2 →
      (length (settlements p (trace st2)) ≤ 1)%nat
      ∧ (∀ s, s ∈ settlements p (trace st2) → s ≠ Pending)
      ∧ (∀ s, status_of st2 p = Some s →
           (s = Pending ∧ settlements p (trace st2) = [])
           ∨ (s ≠ Pending ∧ settlements p (trace st2) = [s]))
      ∧ (∀ i h x, trace st2 !! i = Some (Notified p h x) →
           ∃ i' s t, (i' < i)%nat ∧ trace st2 !! i' = Some (Settled p s t)
                     ∧ x = payload s).
Proof.
  intros Hst.
  pose proof (reaches_trace_ok _ _ trace_ok_init Hst) as H0.
  pose proof (scripted_trace_ok _ (scripted_fetchData name delay shouldFail) st H0) as H1.
  destruct (fetchData name delay shouldFail st) as [p st1] eqn:E. simpl in H1.
  split.
  { unfold fetchData in E. rewrite bind_run in E. simpl in E. injection E as <- <-.
    unfold status_of. simpl. by rewrite lookup_insert_eq. }
  intros st2 Hr. pose proof (reaches_trace_ok _ _ H1 Hr) as H2.
  assert (Hcases : settlements p (trace st2) = []
                   ∨ ∃ pr, promises st2 !! p = Some pr ∧ status pr ≠ Pending
                           ∧ settlements p (trace st2) = [status pr]).
  { destruct (promises st2 !! p) as [pr|] eqn:Ep.
    - destruct (already_resolved pr) eqn:Hf.
      + right. exists pr. destruct (tk_settled _ H2 p pr Ep Hf). done.
      + left. by destruct (tk_pending _ H2 p pr Ep Hf).
    - left. by apply (tk_fresh _ H2). }
  split_and!.
  - destruct Hcases as [-> | (pr & _ & _ & ->)]; simpl; lia.
  - intros s. destruct Hcases as [-> | (pr & _ & Hs & ->)].
    + intros Hin. by apply elem_of_nil in Hin.
    + by intros ->%list_elem_of_singleton.
  - intros s. unfold status_of. destruct (promises st2 !! p) as [pr|] eqn:Ep; [| done].
    simpl. intros [= <-]. destruct (already_resolved pr) eqn:Hf.
    + right. by apply (tk_settled _ H2 p pr).
    + left. by apply (tk_pending _ H2 p pr).
  - intros i h x. apply (tk_notified _ H2).
Qed.

Lemma fetchData_settles_once_witness :
  reachable init
  ∧ let (p, st1) := fetchData "API 1" (Some 500) None init in
    status_of st1 p = Some Pending
    ∧ ∀ st2, reaches st1 st2 →
        (length (settlements p (trace st2)) ≤ 1)%nat
        ∧ (∀ s, s ∈ settlements p (trace st2) → s ≠ Pending)
        ∧ (∀ s, status_of st2 p = Some s →
             (s = Pending ∧ settlements p (trace st2) = [])
             ∨ (s ≠ Pending ∧ settlements p (trace st2) = [s]))
        ∧ (∀ i h x, trace st2 !! i = Some (Notified p h x) →
             ∃ i' s t, (i' < i)%nat ∧ trace st2 !! i' = Some (Settled p s t)
                       ∧ x = payload s).
Proof.
  split; [apply reaches_refl |].
  apply (fetchData_settles_once init "API 1" (Some 500) None). apply reaches_refl.
Defined.

(** ** Every state the script can reach is well formed *)

Lemma bounded_weaken n k n' k' st :
  (n' ≤ n)%nat → (k' ≤ k)%nat → bounded n k st → bounded n' k' st.
Proof. intros Hn Hk (H & H1 & H2). split; [done | lia]. Qed.

Lemma wf_bounded st : wf st ↔ bounded 0 0 st.
Proof. split; [intros H; split; [done | lia] | by intros [H _]]. Qed.

Lemma touches_bounded T A n k st st' :
  touches T A st st' → bounded n k st → bounded n k st'.
Proof.
  intros Ht (Hwf & Hn & Hk).
  split; [| rewrite (t_next_pid _ _ _ _ Ht), (t_next_aid _ _ _ _ Ht); lia].
  assert (Hold : ∀ p pr r, promises st' !! p = Some pr → r ∈ reactions pr →
                 promises st !! p = Some pr).
  { intros p pr r Hp Hr.
    destruct (t_promises _ _ _ _ Ht p) as [E | (_ & pr' & s & _ & _ & _ & E)];
      [congruence |].
    rewrite E in Hp. injection Hp as <-. by apply elem_of_nil in Hr. }
  split; rewrite ?(t_next_pid _ _ _ _ Ht), ?(t_next_aid _ _ _ _ Ht).
  - intros p pr Hp.
    destruct (t_promises _ _ _ _ Ht p) as [E | (_ & pr' & s & E & _)].
    + rewrite E in Hp. by apply (wf_dom _ Hwf p pr).
    + by apply (wf_dom _ Hwf p pr').
  - intros p pr r Hp Hr. apply (wf_reactions _ Hwf p pr r); eauto.
  - intros j Hj. destruct (t_jobs _ _ _ _ Ht) as (new & E & Hnew).
    rewrite E in Hj. apply elem_of_app in Hj as [Hj | Hj]; [by apply Hwf |].
    destruct (Hnew _ Hj) as (_ & pr & r & s & Hp & Hin & _ & Ejob).
    destruct (wf_reactions _ Hwf _ _ _ Hp Hin) as [H1 H2].
    split_and!.
    + by apply (wf_dom _ Hwf _ pr).
    + intros q Hq. rewrite Ejob in Hq. by apply H1, (reaction_job_target (jsrc j) s).
    + intros b Hb. rewrite Ejob in Hb. by apply H2, (reaction_job_cell (jsrc j) s).
  - intros t. rewrite (t_timers _ _ _ _ Ht), (t_now _ _ _ _ Ht). apply Hwf.
Qed.

Lemma new_promise_bounded n k st :
  bounded n k st → bounded (S (next_pid st)) k (new_promise st).2.
Proof.
  intros (Hwf & Hn & Hk). split; [| simpl; lia]. split; simpl.
  - intros p pr [[-> _] | [_ Hp]]%lookup_insert_Some; [lia |].
    pose proof (wf_dom _ Hwf p pr Hp). lia.
  - intros p pr r [[-> <-] | [_ Hp]]%lookup_insert_Some Hr.
    + by apply elem_of_nil in Hr.
    + destruct (wf_reactions _ Hwf p pr r Hp Hr) as [H1 H2].
      split; [| done]. intros q Hq. specialize (H1 q Hq). lia.
  - intros j Hj. destruct (wf_jobs _ Hwf j Hj) as (H1 & H2 & H3).
    split_and!; [lia | | done]. intros q Hq. specialize (H2 q Hq). lia.
  - intros t Ht. destruct (wf_timers _ Hwf t Ht). split; [lia | done].
Qed.

Lemma new_promise_keeps n k : preserves (keeps (bounded n k)) new_promise.
Proof.
  intros st H. pose proof H as (_ & Hn & _).
  apply (bounded_weaken (S (next_pid st)) k); [lia | done |].
  by apply (new_promise_bounded n).
Qed.

Lemma new_aggregate_bounded n k a st :
  bounded n k st → bounded n (S (next_aid st)) (new_aggregate a st).2.
Proof.
  intros (Hwf & Hn & Hk). split; [| simpl; lia]. split; simpl.
  - apply Hwf.
  - intros p pr r Hp Hr. destruct (wf_reactions _ Hwf p pr r Hp Hr) as [H1 H2].
    split; [done |]. intros b Hb. specialize (H2 b Hb). lia.
  - intros j Hj. destruct (wf_jobs _ Hwf j Hj) as (H1 & H2 & H3).
    split_and!; [done .. |]. intros b Hb. specialize (H3 b Hb). lia.
  - apply Hwf.
Qed.

Lemma setTimeout_keeps n k name fail p delay :
  (p < n)%nat → preserves (keeps (bounded n k)) (setTimeout (FetchTimeout name fail p) delay).
Proof.
  intros Hp st (Hwf & Hn & Hk). split; [| done]. split; simpl; try apply Hwf.
  intros t [Ht | ->%list_elem_of_singleton]%elem_of_app; [by apply Hwf |].
  simpl. split; [unfold timer_target; simpl |]; lia.
Qed.

Lemma aggregates_keeps n k st m :
  bounded n k st → bounded n k (set_aggregates (next_aid st) m st).
Proof. intros (Hwf & Hn & Hk). split; [| done]. split; simpl; apply Hwf. Qed.

Lemma add_slot_keeps n k a : preserves (keeps (bounded n k)) (add_slot a).
Proof.
  intros st H. unfold add_slot, modify. simpl.
  destruct (aggregates st !! a); [by apply aggregates_keeps | done].
Qed.

Lemma resolve_fn_keeps n k p v : preserves (keeps (bounded n k)) (resolve_fn p v).
Proof.
  intros st H.
  apply (touches_bounded (λ q, q = p) (λ _, False) n k st); [| done].
  by apply resolve_fn_touches.
Qed.

Lemma reject_fn_keeps n k p v : preserves (keeps (bounded n k)) (reject_fn p v).
Proof.
  intros st H.
  apply (touches_bounded (λ q, q = p) (λ _, False) n k st); [| done].
  by apply reject_fn_touches.
Qed.

Lemma finish_loop_keeps n k a agg : preserves (keeps (bounded n k)) (finish_loop a agg).
Proof.
  intros st H. unfold finish_loop.
  destruct (aggregates st !! a) as [r|]; [| done]. simpl.
  destruct (Z.eqb _ 0); simpl.
  - apply resolve_fn_keeps. by apply aggregates_keeps.
  - by apply aggregates_keeps.
Qed.

Lemma perform_then_keeps n k p onF onR cap :
  (∀ q, htarget onF q → (q < n)%nat) → (∀ q, htarget onR q → (q < n)%nat) →
  (∀ q, cap = Some q → (q < n)%nat) →
  (∀ b, hcell onF b → (b < k)%nat) → (∀ b, hcell onR b → (b < k)%nat) →
  preserves (keeps (bounded n k)) (perform_then p onF onR cap).
Proof.
  intros HF HR Hcap HcF HcR st H. pose proof H as (Hwf & Hn & Hk).
  set (r := {| on_fulfilled := onF; on_rejected := onR; capability := cap |}).
  assert (Hr : (∀ q, rtarget r q → (q < next_pid st)%nat)
               ∧ (∀ b, rcell r b → (b < next_aid st)%nat)).
  { split.
    - intros q [Hq | [Hq | Hq]]; simpl in Hq;
        [specialize (HF q Hq) | specialize (HR q Hq) | specialize (Hcap q Hq)]; lia.
    - intros b [Hb | Hb]; simpl in Hb; [specialize (HcF b Hb) | specialize (HcR b Hb)]; lia. }
  assert (Hjob : ∀ s, bounded n k (enqueue (reaction_job p s r) st).2
                      ∨ promises st !! p = None).
  { intros s. destruct (promises st !! p) as [pr|] eqn:Ep; [left | by right].
    split; [| done]. split; simpl; try apply Hwf.
    intros j [Hj | ->%list_elem_of_singleton]%elem_of_app; [by apply Hwf |].
    rewrite reaction_job_src. split_and!.
    - by apply (wf_dom _ Hwf p pr).
    - intros q Hq. by apply Hr, (reaction_job_target p s).
    - intros b Hb. by apply Hr, (reaction_job_cell p s). }
  unfold perform_then. fold r.
  destruct (promises st !! p) as [pr|] eqn:Ep; [| done].
  destruct (status pr) eqn:Es.
  - simpl. split; [| done]. split; simpl; try apply Hwf.
    + intros q pr' [[-> _] | [_ Hq]]%lookup_insert_Some;
        [by apply (wf_dom _ Hwf _ pr) | by apply (wf_dom _ Hwf q pr')].
    + intros q pr' r' [[-> <-] | [_ Hq]]%lookup_insert_Some Hin; simpl in Hin.
      * apply elem_of_app in Hin as [Hin | ->%list_elem_of_singleton]; [| done].
        by apply (wf_reactions _ Hwf q pr).
      * by apply (wf_reactions _ Hwf q pr').
  - by destruct (Hjob (Fulfilled v)).
  - by destruct (Hjob (Rejected r0)).
Qed.

Lemma then_keeps n k p onF onR :
  (∀ q, htarget onF q → (q < n)%nat) → (∀ q, htarget onR q → (q < n)%nat) →
  (∀ b, hcell onF b → (b < k)%nat) → (∀ b, hcell onR b → (b < k)%nat) →
  preserves (keeps (bounded n k)) (then_ p onF onR).
Proof.
  intros HF HR HcF HcR st H. pose proof H as (_ & Hn & _).
  unfold then_. rewrite !bind_run.
  pose proof (new_promise_bounded n k st H) as H1.
  pose proof (perform_then_keeps (S (next_pid st)) k p onF onR (Some (next_pid st))) as H2.
  specialize (H2 ltac:(intros q Hq; specialize (HF q Hq); lia)
                 ltac:(intros q Hq; specialize (HR q Hq); lia)
                 ltac:(intros q [= <-]; lia) HcF HcR _ H1).
  apply (bounded_weaken (S (next_pid st)) k); [lia | done | exact H2].
Qed.

Lemma each_then_keeps n k pre onF onR :
  preserves (keeps (bounded n k)) pre →
  (∀ i q, htarget (onF i) q → (q < n)%nat) → (∀ i q, htarget (onR i) q → (q < n)%nat) →
  (∀ i b, hcell (onF i) b → (b < k)%nat) → (∀ i b, hcell (onR i) b → (b < k)%nat) →
  ∀ ps i, preserves (keeps (bounded n k)) (each_then pre onF onR i ps).
Proof.
  intros Hpre HF HR HcF HcR ps. induction ps as [|p ps IH]; intros i; simpl.
  - apply preserves_ret; apply _.
  - apply preserves_bind; [apply _ | done | intros _].
    apply preserves_bind; [apply _ | | intros _; apply IH].
    apply then_keeps; eauto.
Qed.

Lemma fetchData_keeps n k name delay shouldFail :
  preserves (keeps (bounded n k)) (fetchData name delay shouldFail).
Proof.
  intros st H. pose proof H as (_ & Hn & _).
  unfold fetchData. rewrite !bind_run.
  pose proof (new_promise_bounded n k st H) as H1.
  pose proof (setTimeout_keeps (S (next_pid st)) k name (default false shouldFail)
                (next_pid st) (default 1000 delay) ltac:(lia) _ H1) as H2.
  apply (bounded_weaken (S (next_pid st)) k); [lia | done | exact H2].
Qed.

Lemma collector_keeps n k onF onR ps :
  (∀ a agg i q, htarget (onF a agg i) q → q = agg) →
  (∀ a agg i q, htarget (onR a agg i) q → q = agg) →
  (∀ a agg i b, hcell (onF a agg i) b → b = a) →
  (∀ a agg i b, hcell (onR a agg i) b → b = a) →
  preserves (keeps (bounded n k)) (collector onF onR ps).
Proof.
  intros HF HR HcF HcR st H. pose proof H as (_ & Hn & Hk).
  unfold collector. rewrite !bind_run.
  pose proof (new_promise_bounded n k st H) as H1.
  pose proof (new_aggregate_bounded _ _ {| values := []; remaining := 1; called := [] |}
                _ H1) as H2.
  change (next_aid (new_promise st).2) with (next_aid st) in H2.
  pose proof (each_then_keeps (S (next_pid st)) (S (next_aid st)) (add_slot (next_aid st))
                (onF (next_aid st) (next_pid st)) (onR (next_aid st) (next_pid st))
                (add_slot_keeps _ _ _)) as H3.
  specialize (H3 ltac:(intros i q ->%HF; lia) ltac:(intros i q ->%HR; lia)
                 ltac:(intros i b ->%HcF; lia) ltac:(intros i b ->%HcR; lia) ps 0%nat _ H2).
  pose proof (finish_loop_keeps _ _ (next_aid st) (next_pid st) _ H3) as H4.
  apply (bounded_weaken (S (next_pid st)) (S (next_aid st))); [lia | lia | exact H4].
Qed.

Lemma Promise_race_keeps n k ps : preserves (keeps (bounded n k)) (Promise_race ps).
Proof.
  intros st H. pose proof H as (_ & Hn & _).
  unfold Promise_race. rewrite !bind_run.
  pose proof (new_promise_bounded n k st H) as H1.
  pose proof (each_then_keeps (S (next_pid st)) k (mret tt)
                (λ _, HResolve (next_pid st)) (λ _, HReject (next_pid st))) as H3.
  specialize (H3 ltac:(apply preserves_ret; apply _)
                 ltac:(intros i q ->; lia) ltac:(intros i q ->; lia)
                 ltac:(by intros i b) ltac:(by intros i b) ps 0%nat _ H1).
  apply (bounded_weaken (S (next_pid st)) k); [lia | done | exact H3].
Qed.

Lemma Promise_resolve_keeps n k v : preserves (keeps (bounded n k)) (Promise_resolve v).
Proof.
  unfold Promise_resolve.
  apply preserves_bind; [apply _ | apply new_promise_keeps | intros p].
  apply preserves_bind; [apply _ | apply resolve_fn_keeps | intros _].
  apply preserves_ret; apply _.
Qed.

Lemma Promise_reject_keeps n k v : preserves (keeps (bounded n k)) (Promise_reject v).
Proof.
  unfold Promise_reject.
  apply preserves_bind; [apply _ | apply new_promise_keeps | intros p].
  apply preserves_bind; [apply _ | apply reject_fn_keeps | intros _].
  apply preserves_ret; apply _.
Qed.

Lemma scripted_keeps {A} (m : M A) :
  scripted m → ∀ n k, preserves (keeps (bounded n k)) m.
Proof.
  induction 1 as [A a | A B m f _ IHm _ IHf | name delay shouldFail | p onF onR HF HR
                  | ps | ps | ps | v | v | f body _ IH]; intros n k.
  - apply preserves_ret; apply _.
  - apply preserves_bind; [apply _ | apply IHm | intros a; apply IHf].
  - apply fetchData_keeps.
  - apply then_keeps; intros q Hq; by destruct onF, onR.
  - apply (collector_keeps n k (λ a agg i, HAllElement a i agg) (λ _ agg _, HReject agg));
      by intros a agg i q.
  - apply Promise_race_keeps.
  - apply (collector_keeps n k (λ a agg i, HSettledFulfilled a i agg)
             (λ a agg i, HSettledRejected a i agg)); by intros a agg i q.
  - apply Promise_resolve_keeps.
  - apply Promise_reject_keeps.
  - intros st H. pose proof H as (_ & Hn & _). rewrite !bind_run.
    pose proof (new_promise_bounded n k st H) as H1.
    pose proof (IH _ _ _ H1) as H2.
    pose proof (perform_then_keeps (S (next_pid st)) k (body (new_promise st).2).1
                  (HResumeNormal f (next_pid st)) (HResumeThrow f (next_pid st)) None) as H3.
    specialize (H3 ltac:(intros q ->; lia) ltac:(intros q ->; lia) ltac:(by intros q)
                   ltac:(by intros b) ltac:(by intros b) _ H2).
    apply (bounded_weaken (S (next_pid st)) k); [lia | done | exact H3].
Qed.

Lemma step_keeps n k st st' : step st = Some st' → bounded n k st → bounded n k st'.
Proof.
  intros Hstep H. pose proof H as (Hwf & Hn & Hk).
  destruct (step_cases _ _ Hstep) as [(j & js & Ej & ->) | (t & rest & Ej & Et & ->)].
  - apply (touches_bounded _ _ _ _ _ _ (run_job_touches j (set_jobs js st))).
    split; [| done]. split; simpl; try apply Hwf.
    intros j' Hj'. apply Hwf. rewrite Ej. by right.
  - apply (touches_bounded _ _ _ _ _ _
             (run_timer_touches (callback t) (λ _, False)
                (set_now (Z.max (now st) (due t)) (set_timers rest st)))).
    split; [| done]. split; simpl; try apply Hwf.
    intros u Hu.
    assert (u ∈ timers st) as Hu' by (apply (pop_timer_elem _ _ _ _ Et); by right).
    assert (t ∈ timers st) as Htin by (apply (pop_timer_elem _ _ _ _ Et); by left).
    pose proof (pop_timer_min _ _ _ Et u Hu').
    destruct (wf_timers _ Hwf u Hu'). destruct (wf_timers _ Hwf t Htin).
    split; [done | lia].
Qed.

Lemma reaches_wf st st' : wf st → reaches st st' → wf st'.
Proof.
  intros H Hr. induction Hr as [| A m st' _ IH Hm | st' st'' _ IH Hstep]; [done | |].
  - apply wf_bounded. apply (scripted_keeps m Hm 0%nat 0%nat st'). by apply wf_bounded.
  - apply wf_bounded. apply (step_keeps 0 0 st' st'' Hstep). by apply wf_bounded.
Qed.

(** Every state the script can reach is well formed, so what is proved from
    every well-formed state holds wherever the script makes its calls. *)
Lemma reachable_wf st : reachable st → wf st.
Proof. apply reaches_wf, wf_init. Qed.

(** ** The two scripts, run *)

Lemma reaches_steps st0 st st' : reaches st0 st → steps st st' → reaches st0 st'.
Proof.
  intros H Hs. induction Hs as [| s1 s2 s3 Hstep _ IH]; [done |].
  apply IH. by apply (reaches_step st0 s1).
Qed.

Lemma reaches_call_at {A} (m : M A) st0 st st' :
  reaches st0 st → scripted m → st' = (m st).2 → reaches st0 st'.
Proof. intros H Hm ->. by apply reaches_call. Qed.

Ltac scripted :=
  repeat first
    [ apply scripted_fetchData
    | apply scripted_then; exact I
    | apply scripted_all
    | apply scripted_race
    | apply scripted_allSettled
    | apply scripted_resolve
    | apply scripted_reject
    | apply scripted_ret
    | apply scripted_async
    | apply scripted_bind; [| intros ?] ].

Lemma scripted_array_of calls : (∀ c, c ∈ calls → scripted c) → scripted (array_of calls).
Proof.
  induction calls as [|c cs IH]; intros H; simpl; [apply scripted_ret |].
  apply scripted_bind; [apply H; by left | intros p].
  apply scripted_bind; [apply IH; intros c' Hc'; apply H; by right | intros ps].
  apply scripted_ret.
Qed.

Lemma scripted_fetch_all rs : scripted (fetch_all rs).
Proof.
  apply scripted_array_of. intros c (r & -> & _)%list_elem_of_fmap.
  apply scripted_fetchData.
Qed.

(** The script of the promises is made of calls that [scripted] describes,
    so the state it leaves, before and after the event loop has run, is one
    of the states the theorems above are about. *)
Lemma script_reachable : reachable (script init).2 ∧ reachable (run_script script).2.
Proof.
  assert (H : reachable (script init).2).
  { unfold reachable.
    pose proof (reaches_refl init) as H0.
    apply (reaches_call _ demo_then_catch) in H0;
      [| unfold demo_then_catch, catch_; scripted].
    apply (reaches_call _ getData) in H0; [| unfold getData; scripted].
    apply (reaches_call_at
             (retp ← new_promise; p ← (ps ← fetch_all all_requests; Promise_all ps);
              await_ p GetAllData retp;; mret retp) _ _
             (getAllData (getData (demo_then_catch init).2).2).2) in H0;
      [| apply scripted_async, scripted_bind;
         [apply scripted_fetch_all | intros ps; apply scripted_all]
       | by vm_compute].
    apply (reaches_call_at
             (retp ← new_promise; p ← (ps ← fetch_all fastest_requests; Promise_race ps);
              await_ p GetFastestData retp;; mret retp) _ _
             (getFastestData (getAllData (getData (demo_then_catch init).2).2).2).2) in H0;
      [| apply scripted_async, scripted_bind;
         [apply scripted_fetch_all | intros ps; apply scripted_race]
       | by vm_compute].
    apply (reaches_call _ (p ← alwaysResolve; then_ p (HArrow Log "Resolved:") HUndefined))
      in H0; [| unfold alwaysResolve; scripted].
    apply (reaches_call _ (q ← alwaysReject; catch_ q (HArrow Error "Rejected:")))
      in H0; [| unfold alwaysReject, catch_; scripted].
    apply (reaches_call_at
             (retp ← new_promise; p ← (ps ← fetch_all error_requests; Promise_all ps);
              await_ p FetchAllWithErrors retp;; mret retp) _ _
             (fetchAllWithErrors
                ((q ← alwaysReject; catch_ q (HArrow Error "Rejected:"))
                   ((p ← alwaysResolve; then_ p (HArrow Log "Resolved:") HUndefined)
                      (getFastestData
                         (getAllData (getData (demo_then_catch init).2).2).2).2).2).2).2)
      in H0;
      [| apply scripted_async, scripted_bind;
         [apply scripted_fetch_all | intros ps; apply scripted_all]
       | by vm_compute].
    apply (reaches_call_at
             (retp ← new_promise;
              p ← (ps ← fetch_all allSettled_requests; Promise_allSettled ps);
              await_ p FetchWithAllSettled retp;; mret retp) _ _
             (script init).2) in H0;
      [done
      | apply scripted_async, scripted_bind;
         [apply scripted_fetch_all | intros ps; apply scripted_allSettled]
      | by vm_compute]. }
  split; [done |].
  unfold run_script. destruct (script init) as [[] st] eqn:E. simpl in *.
  apply (reaches_steps _ st); [done | apply run_steps].
Qed.

(** What the script of the promises prints, from top to bottom. *)
Example script_console :
  console (run_script script).2
  = [ {| lvl := Log; args := [VString "Resolved:"; VString "This is resolved data"] |};
      {| lvl := Error;
         args := [VString "Rejected:"; VString "This promise is always rejected"] |};
      {| lvl := Log; args := [VString "Data received:"; VString "API 1 data"] |};
      {| lvl := Log; args := [VString "Fastest data received:"; VString "Fast API data"] |};
      {| lvl := Log; args := [VString "Async/Await data:"; VString "API 2 data"] |};
      {| lvl := Error;
         args := [VString "Error in one of the APIs:";
                  VString "Error fetching data from API 7"] |};
      {| lvl := Log;
         args := [VString "API 9 succeeded with data:"; VString "API 9 data"] |};
      {| lvl := Warn;
         args := [VString "API 10 failed with reason:";
                  VString "Error fetching data from API 10"] |};
      {| lvl := Log;
         args := [VString "API 11 succeeded with data:"; VString "API 11 data"] |};
      {| lvl := Log;
         args := [VString "All data fetched:"; VString "API 3 data";
                  VString "API 4 data"; VString "API 5 data"] |} ].
Proof. by vm_compute. Qed.

(** * Closure.js: the range of the counts, and [setupButton] *)

Section button_facts.

Lemma round_number_in_range v :
  - 2 ^ 53 ≤ v ≤ 2 ^ 53 →
  - 2 ^ 53 ≤ round_number (v + 1) ≤ 2 ^ 53 ∧ - 2 ^ 53 ≤ round_number (v - 1) ≤ 2 ^ 53.
Proof.
  intros Hv. split.
  - destruct (decide (v = 2 ^ 53)) as [-> | Hne]; [by vm_compute |].
    rewrite round_number_exact; lia.
  - destruct (decide (v = - 2 ^ 53)) as [-> | Hne]; [by vm_compute |].
    rewrite round_number_exact; lia.
Qed.

Lemma call_in_range m h : in_range h → in_range (call m h).
Proof.
  intros H e v. destruct m as [e0 | e0 | e0]; simpl;
    destruct (counts h !! e0) as [c|] eqn:E; simpl; try apply H;
    (intros [[<- <-] | [_ Hv]]%lookup_insert_Some; [| by apply (H e)]).
  - by apply round_number_in_range, (H e0).
  - by apply round_number_in_range, (H e0).
  - lia.
Qed.

Lemma perform_in_range a h : in_range h → in_range (perform a h).
Proof.
  destruct a as [| m]; simpl; [| apply call_in_range].
  intros H e v. simpl.
  intros [[<- <-] | [_ Hv]]%lookup_insert_Some; [lia | by apply (H e)].
Qed.

(** X1: the count of a counter never leaves the range in which the whole numbers
    are exact: whatever counters are made and whatever methods are called,
    every count stays between -2^53 and 2^53; an increment at 2^53 and a
    decrement at -2^53 leave the count where it is. *)
Theorem count_stays_in_range (st : store) (acts : list action) :
  in_range st →
  in_range (perform_all acts st)
  ∧ (∀ e h, counts h !! e = Some (2 ^ 53) →
       counts (call (Increment e) h) !! e = Some (2 ^ 53))
  ∧ (∀ e h, counts h !! e = Some (- 2 ^ 53) →
       counts (call (Decrement e) h) !! e = Some (- 2 ^ 53)).
Proof.
  intros H. split; [| split].
  - revert st H. induction acts as [|a acts IH]; intros st H; simpl; [done |].
    by apply IH, perform_in_range.
  - intros e h E. simpl. rewrite E. simpl. rewrite lookup_insert_eq. by vm_compute.
  - intros e h E. simpl. rewrite E. simpl. rewrite lookup_insert_eq. by vm_compute.
Qed.

Lemma count_stays_in_range_witness :
  in_range empty_store
  ∧ in_range (perform_all [Create; Call (Increment 0); Call (Decrement 0)] empty_store)
  ∧ (∀ e h, counts h !! e = Some (2 ^ 53) →
       counts (call (Increment e) h) !! e = Some (2 ^ 53))
  ∧ (∀ e h, counts h !! e = Some (- 2 ^ 53) →
       counts (call (Decrement e) h) !! e = Some (- 2 ^ 53)).
Proof.
  assert (H : in_range empty_store) by (intros e v; simpl; by rewrite lookup_empty).
  split; [exact H |].
  apply (count_stays_in_range empty_store
           [Create; Call (Increment 0); Call (Decrement 0)] H).
Defined.

(** ** Listeners *)

Lemma run_listener_next_env l h : next_env (run_listener l h) = next_env h.
Proof. destruct l as [b e]; simpl; by destruct (counts h !! e). Qed.

Lemma run_listener_other l h e :
  e ≠ listener_env l → counts (run_listener l h) !! e = counts h !! e.
Proof.
  destruct l as [b e']; simpl; intros Hne.
  destruct (counts h !! e') eqn:E; simpl; [by rewrite lookup_insert_ne | done].
Qed.

Lemma run_listener_is_Some l h e :
  is_Some (counts h !! e) → is_Some (counts (run_listener l h) !! e).
Proof.
  destruct l as [b e']; simpl. destruct (counts h !! e') eqn:E; simpl; [| done].
  intros H. destruct (decide (e' = e)) as [-> |];
    [rewrite lookup_insert_eq; eauto | by rewrite lookup_insert_ne].
Qed.

Lemma run_listener_output l h :
  is_Some (counts h !! listener_env l) →
  length (output (run_listener l h)) = S (length (output h)).
Proof.
  destruct l as [b e]; simpl. intros [c ->]. simpl. rewrite length_app. simpl. lia.
Qed.

Lemma run_listeners_app l1 l2 h :
  run_listeners (l1 ++ l2) h = run_listeners l2 (run_listeners l1 h).
Proof. apply fold_left_app. Qed.

Lemma run_listeners_next_env ls h : next_env (run_listeners ls h) = next_env h.
Proof.
  revert h. induction ls as [|l ls IH]; intros h; simpl; [done |].
  unfold run_listeners in *. simpl. by rewrite IH, run_listener_next_env.
Qed.

Lemma run_listeners_other ls h e :
  (∀ l, l ∈ ls → listener_env l ≠ e) →
  counts (run_listeners ls h) !! e = counts h !! e.
Proof.
  revert h. induction ls as [|l ls IH]; intros h H; [done |].
  unfold run_listeners in *. simpl. rewrite IH.
  - apply run_listener_other. intros ->. by apply (H l); [left |].
  - intros l' Hl'. apply H. by right.
Qed.

Lemma run_listeners_is_Some ls h e :
  is_Some (counts h !! e) → is_Some (counts (run_listeners ls h) !! e).
Proof.
  revert h. induction ls as [|l ls IH]; intros h H; [done |].
  unfold run_listeners in *. simpl. by apply IH, run_listener_is_Some.
Qed.

Lemma run_listeners_length ls h :
  (∀ l, l ∈ ls → is_Some (counts h !! listener_env l)) →
  length (output (run_listeners ls h)) = (length (output h) + length ls)%nat.
Proof.
  revert h. induction ls as [|l ls IH]; intros h H; simpl; [lia |].
  unfold run_listeners in *. simpl. rewrite IH.
  - rewrite run_listener_output; [lia |]. apply H. by left.
  - intros l' Hl'. apply run_listener_is_Some, H. by right.
Qed.

Lemma run_listeners_prefix ls h : ∃ new, output (run_listeners ls h) = output h ++ new.
Proof.
  revert h. induction ls as [|l ls IH]; intros h; [exists []; by rewrite app_nil_r |].
  unfold run_listeners in *. simpl. destruct (IH (run_listener l h)) as [new E].
  rewrite E. destruct l as [b e]; simpl. destruct (counts h !! e); simpl.
  - rewrite <- app_assoc. eauto.
  - eauto.
Qed.

(** ** The page *)

Lemma listeners_of_click id id' pg : listeners_of id (click id' pg) = listeners_of id pg.
Proof. done. Qed.

Lemma listeners_of_setupButton id id' pg :
  listeners_of id' (setupButton id pg).2
  = if decide (id ∈ elements pg ∧ id' = id)
    then listeners_of id pg ++ [OnClick id (next_env (heap pg))]
    else listeners_of id' pg.
Proof.
  unfold setupButton. destruct (decide (id ∈ elements pg)) as [Hin | Hnin]; simpl.
  - unfold listeners_of at 1. simpl. destruct (decide (id' = id)) as [-> | Hne].
    + rewrite lookup_insert_eq. simpl. by rewrite decide_True.
    + rewrite lookup_insert_ne by done. rewrite decide_False by tauto. done.
  - rewrite decide_False by tauto. done.
Qed.

Lemma elements_interact i pg : elements (interact i pg) = elements pg.
Proof.
  destruct i as [id | id]; simpl; [| done].
  unfold setupButton. by destruct (decide (id ∈ elements pg)).
Qed.

Lemma heap_setupButton id pg :
  heap (setupButton id pg).2
  = {| counts := <[next_env (heap pg) := 0]> (counts (heap pg));
       next_env := S (next_env (heap pg)); output := output (heap pg) |}.
Proof. unfold setupButton. by destruct (decide (id ∈ elements pg)). Qed.

Lemma interact_all_snoc evs i pg :
  interact_all (evs ++ [i]) pg = interact i (interact_all evs pg).
Proof. unfold interact_all. by rewrite fold_left_app. Qed.

Lemma count_of_interaction_cons i j evs :
  count_of_interaction i (j :: evs)
  = ((if decide (j = i) then 1 else 0) + count_of_interaction i evs)%nat.
Proof. unfold count_of_interaction. rewrite filter_cons. by case_decide. Qed.

Lemma count_of_interaction_snoc i j evs :
  count_of_interaction i (evs ++ [j])
  = (count_of_interaction i evs + (if decide (j = i) then 1 else 0))%nat.
Proof.
  unfold count_of_interaction. rewrite filter_app, length_app, filter_cons.
  case_decide; simpl; lia.
Qed.

Lemma page_ok_interact i pg : page_ok pg → page_ok (interact i pg).
Proof.
  intros H id l Hl. destruct i as [id0 | id0]; simpl in *.
  - rewrite listeners_of_setupButton in Hl. rewrite heap_setupButton. simpl.
    assert (Hold : ∀ l', l' ∈ listeners_of id pg ∨ l' ∈ listeners_of id0 pg →
              (listener_env l' < S (next_env (heap pg)))%nat
              ∧ is_Some (<[next_env (heap pg):=0]> (counts (heap pg)) !! listener_env l')).
    { intros l' Hl'.
      assert ((listener_env l' < next_env (heap pg))%nat
              ∧ is_Some (counts (heap pg) !! listener_env l')) as [H1 H2]
        by (destruct Hl' as [Hl' | Hl']; by eapply H).
      split; [lia |]. rewrite lookup_insert_ne by lia. done. }
    case_decide as Hd.
    + apply elem_of_app in Hl as [Hl | ->%list_elem_of_singleton]; [apply Hold; by right |].
      simpl. split; [lia |]. rewrite lookup_insert_eq. eauto.
    + apply Hold. by left.
  - rewrite listeners_of_click in Hl. destruct (H id l Hl) as [H1 H2].
    unfold click. simpl. rewrite run_listeners_next_env.
    split; [done |]. by apply run_listeners_is_Some.
Qed.

Lemma page_ok_interact_all evs pg : page_ok pg → page_ok (interact_all evs pg).
Proof.
  revert pg. induction evs as [|i evs IH]; intros pg H; [done |].
  simpl. by apply IH, page_ok_interact.
Qed.

Lemma page_ok_empty ids : page_ok (empty_page ids).
Proof. intros id l Hl. unfold listeners_of in Hl. simpl in Hl. by apply elem_of_nil in Hl. Qed.

(** The invariant behind the count: the cell holds [k], and one listener of
    the page, on the button [id], is closed over it. *)
Lemma interact_all_count id e evs : ∀ pg k,
  counts (heap pg) !! e = Some k →
  (e < next_env (heap pg))%nat →
  (∃ l1 l2, listeners_of id pg = l1 ++ OnClick id e :: l2
            ∧ ∀ l, l ∈ l1 ++ l2 → listener_env l ≠ e) →
  (∀ id' l, id' ≠ id → l ∈ listeners_of id' pg → listener_env l ≠ e) →
  0 ≤ k → k + Z.of_nat (count_of_interaction (ClickOn id) evs) ≤ 2 ^ 53 →
  let pg' := interact_all evs pg in
  counts (heap pg') !! e = Some (k + Z.of_nat (count_of_interaction (ClickOn id) evs))
  ∧ (∃ l1 l2, listeners_of id pg' = l1 ++ OnClick id e :: l2
              ∧ ∀ l, l ∈ l1 ++ l2 → listener_env l ≠ e).
Proof.
  induction evs as [|i evs IH]; intros pg k Hk He Hown Hothers H0 Hle.
  { simpl. split; [| done]. rewrite Hk. f_equal. unfold count_of_interaction. simpl. lia. }
  rewrite count_of_interaction_cons in *. simpl.
  destruct Hown as (l1 & l2 & El & Hl).
  destruct i as [id0 | id0].
  - rewrite decide_False in * by done.
    apply IH; simpl; try done.
    + rewrite heap_setupButton. simpl. rewrite lookup_insert_ne by lia. done.
    + rewrite heap_setupButton. simpl. lia.
    + rewrite listeners_of_setupButton. case_decide as Hd.
      * destruct Hd as [_ <-]. exists l1, (l2 ++ [OnClick id (next_env (heap pg))]).
        rewrite El, <- app_assoc. split; [done |].
        intros l. rewrite app_assoc.
        intros [Hin | ->%list_elem_of_singleton]%elem_of_app; [by apply Hl | simpl; lia].
      * by exists l1, l2.
    + intros id' l Hne. rewrite listeners_of_setupButton. case_decide as Hd; [| by apply Hothers].
      destruct Hd as [_ ->].
      intros [Hin | ->%list_elem_of_singleton]%elem_of_app;
        [by apply (Hothers id0) | simpl; lia].
  - assert (Hls : ∀ id', listeners_of id' (click id0 pg) = listeners_of id' pg) by done.
    destruct (decide (id0 = id)) as [-> | Hne].
    + rewrite decide_True in * by done.
      assert (Hc : counts (heap (click id pg)) !! e = Some (k + 1)).
      { unfold click. simpl. rewrite El.
        rewrite (run_listeners_app l1 (OnClick id e :: l2)).
        change (OnClick id e :: l2) with ([OnClick id e] ++ l2).
        rewrite run_listeners_app.
        rewrite run_listeners_other
          by (intros l Hin; apply Hl, elem_of_app; by right).
        unfold run_listeners at 1. simpl.
        rewrite run_listeners_other
          by (intros l Hin; apply Hl, elem_of_app; by left).
        rewrite Hk. simpl. rewrite lookup_insert_eq. f_equal.
        unfold number_add. apply round_number_exact. lia. }
      specialize (IH (click id pg) (k + 1) Hc).
      replace (k + Z.of_nat (1 + count_of_interaction (ClickOn id) evs))
        with (k + 1 + Z.of_nat (count_of_interaction (ClickOn id) evs)) by lia.
      apply IH.
      * unfold click. simpl. by rewrite run_listeners_next_env.
      * rewrite Hls. by exists l1, l2.
      * intros id' l. rewrite Hls. apply Hothers.
      * lia.
      * lia.
    + rewrite decide_False in * by congruence.
      apply IH; try done.
      * unfold click. simpl. rewrite run_listeners_other; [done |].
        intros l Hin. by apply (Hothers id0).
      * unfold click. simpl. by rewrite run_listeners_next_env.
      * rewrite Hls. by exists l1, l2.
Qed.

(** X2: after [setupButton(id)] on a page that has the element, whatever calls
    of [setupButton] and clicks follow, on this button or on others, the
    [clickCount] of the call is the number of clicks on the button since, as
    long as there are at most 2^53 of them; and the next click on the button
    logs the line of the call with that number plus one. *)
Theorem setupButton_counts_own_clicks (pg : page) (id : string) (evs : list interaction) :
  page_ok pg → id ∈ elements pg →
  Z.of_nat (count_of_interaction (ClickOn id) evs) < 2 ^ 53 →
  let e := next_env (heap pg) in
  let pg' := interact_all evs (setupButton id pg).2 in
  let k := Z.of_nat (count_of_interaction (ClickOn id) evs) in
  (setupButton id pg).1 = Normal VUndefined
  ∧ counts (heap pg') !! e = Some k
  ∧ counts (heap (click id pg')) !! e = Some (k + 1)
  ∧ click_line id (k + 1)
    ∈ drop (length (output (heap pg'))) (output (heap (click id pg'))).
Proof.
  intros Hok Hin Hlt e pg' k.
  assert (E1 : (setupButton id pg).1 = Normal VUndefined).
  { unfold setupButton. by rewrite decide_True. }
  pose proof (interact_all_count id e evs (setupButton id pg).2 0) as H.
  rewrite heap_setupButton in H. simpl in H.
  specialize (H ltac:(by rewrite lookup_insert_eq) ltac:(unfold e; lia)).
  assert (Hnew : ∀ id' l, l ∈ listeners_of id' pg → listener_env l ≠ e).
  { intros id' l Hl. destruct (Hok id' l Hl). unfold e. lia. }
  destruct H as (Hc & l1 & l2 & El & Hl).
  - exists (listeners_of id pg), []. rewrite listeners_of_setupButton.
    rewrite decide_True by done. split; [done |].
    intros l. rewrite app_nil_r. apply Hnew.
  - intros id' l Hne. rewrite listeners_of_setupButton.
    rewrite decide_False by (intros [_ ?]; done). apply Hnew.
  - lia.
  - fold k. lia.
  - fold pg' in Hc, El. replace (0 + k) with k in Hc by (unfold k; lia).
    assert (Hrun : ∃ h1, run_listeners l1 (heap pg') = h1
                   ∧ counts h1 !! e = Some k
                   ∧ ∃ new1, output h1 = output (heap pg') ++ new1).
    { eexists. split; [done |]. split.
      - rewrite run_listeners_other; [done |].
        intros l Hl'. apply Hl, elem_of_app. by left.
      - apply run_listeners_prefix. }
    destruct Hrun as (h1 & Eh1 & Hk1 & new1 & Eo1).
    assert (Eclick : heap (click id pg')
                     = run_listeners l2 (run_listener (OnClick id e) h1)).
    { unfold click. simpl. rewrite El.
      rewrite (run_listeners_app l1 (OnClick id e :: l2)), Eh1. done. }
    split; [done |]. split; [done |]. split.
    + rewrite Eclick. rewrite run_listeners_other
        by (intros l Hl'; apply Hl, elem_of_app; by right).
      simpl. rewrite Hk1. simpl. rewrite lookup_insert_eq. f_equal.
      unfold number_add. apply round_number_exact. unfold k. lia.
    + rewrite Eclick.
      destruct (run_listeners_prefix l2 (run_listener (OnClick id e) h1)) as [new2 E2].
      rewrite E2. simpl. rewrite Hk1. simpl. rewrite Eo1.
      rewrite <- !app_assoc. rewrite drop_app_length.
      apply elem_of_app. right. apply elem_of_app. left.
      apply list_elem_of_singleton. f_equal.
      unfold number_add. rewrite round_number_exact; [done |]. unfold k. lia.
Qed.

Lemma setupButton_counts_own_clicks_witness :
  page_ok (empty_page {["a"; "b"]}) ∧ "a" ∈ elements (empty_page {["a"; "b"]})
  ∧ Z.of_nat (count_of_interaction (ClickOn "a")
                [ClickOn "a"; ClickOn "b"; SetupButton "a"; ClickOn "a"]) < 2 ^ 53
  ∧ let e := next_env (heap (empty_page {["a"; "b"]})) in
    let pg' := interact_all [ClickOn "a"; ClickOn "b"; SetupButton "a"; ClickOn "a"]
                 (setupButton "a" (empty_page {["a"; "b"]})).2 in
    let k := Z.of_nat (count_of_interaction (ClickOn "a")
                         [ClickOn "a"; ClickOn "b"; SetupButton "a"; ClickOn "a"]) in
    (setupButton "a" (empty_page {["a"; "b"]})).1 = Normal VUndefined
    ∧ counts (heap pg') !! e = Some k
    ∧ counts (heap (click "a" pg')) !! e = Some (k + 1)
    ∧ click_line "a" (k + 1)
      ∈ drop (length (output (heap pg'))) (output (heap (click "a" pg'))).
Proof.
  assert (H1 : page_ok (empty_page {["a"; "b"]})) by apply page_ok_empty.
  assert (H2 : "a" ∈ elements (empty_page {["a"; "b"]})) by (simpl; set_solver).
  assert (H3 : Z.of_nat (count_of_interaction (ClickOn "a")
                           [ClickOn "a"; ClickOn "b"; SetupButton "a"; ClickOn "a"])
               < 2 ^ 53) by (by vm_compute).
  split; [exact H1 |]. split; [exact H2 |]. split; [exact H3 |].
  apply (setupButton_counts_own_clicks (empty_page {["a"; "b"]}) "a"
           [ClickOn "a"; ClickOn "b"; SetupButton "a"; ClickOn "a"] H1 H2 H3).
Defined.

(** X3: when no element has the id, [setupButton] throws a TypeError: nothing is
    logged, no listener is registered on any element, and a click on any
    element logs what it logged before the call. *)
Theorem setupButton_without_element (pg : page) (id : string) :
  page_ok pg → id ∉ elements pg →
  (setupButton id pg).1 = Throw VTypeError
  ∧ output (heap (setupButton id pg).2) = output (heap pg)
  ∧ click_listeners (setupButton id pg).2 = click_listeners pg
  ∧ ∀ id', drop (length (output (heap pg))) (output (heap (click id' (setupButton id pg).2)))
           = drop (length (output (heap pg))) (output (heap (click id' pg))).
Proof.
  intros Hok Hnin. unfold setupButton. rewrite decide_False by done. simpl.
  split; [done |]. split; [done |]. split; [done |].
  intros id'. unfold click. simpl.
  change (listeners_of id' (set_heap _ pg)) with (listeners_of id' pg).
  assert (Hls : ∀ l, l ∈ listeners_of id' pg → (listener_env l < next_env (heap pg))%nat)
    by (intros l Hl; by apply (Hok id' l)).
  f_equal.
  assert (Hgen : ∀ ls h1 h2,
            (∀ l, l ∈ ls → (listener_env l < next_env (heap pg))%nat) →
            output h1 = output h2 →
            (∀ e, (e < next_env (heap pg))%nat → counts h1 !! e = counts h2 !! e) →
            output (run_listeners ls h1) = output (run_listeners ls h2)).
  { induction ls as [|l ls IH]; intros h1 h2 Hl Ho Hc; [done |].
    unfold run_listeners in *. simpl. apply IH.
    - intros l' Hl'. apply Hl. by right.
    - destruct l as [b e]. simpl. rewrite (Hc e) by (apply (Hl (OnClick b e)); by left).
      destruct (counts h2 !! e); simpl; by rewrite ?Ho.
    - intros e' He'. destruct l as [b e]. simpl.
      rewrite (Hc e) by (apply (Hl (OnClick b e)); by left).
      destruct (counts h2 !! e) eqn:E2; simpl; [| by apply Hc].
      destruct (decide (e = e')) as [-> |];
        [by rewrite !lookup_insert_eq | rewrite !lookup_insert_ne by done; by apply Hc]. }
  apply Hgen; [done | done |].
  intros e He. simpl. rewrite lookup_insert_ne by lia. done.
Qed.

Lemma setupButton_without_element_witness :
  page_ok (empty_page {["a"]}) ∧ ("b" ∉ elements (empty_page {["a"]}))
  ∧ (setupButton "b" (empty_page {["a"]})).1 = Throw VTypeError
  ∧ output (heap (setupButton "b" (empty_page {["a"]})).2)
    = output (heap (empty_page {["a"]}))
  ∧ click_listeners (setupButton "b" (empty_page {["a"]})).2
    = click_listeners (empty_page {["a"]})
  ∧ ∀ id', drop (length (output (heap (empty_page {["a"]}))))
             (output (heap (click id' (setupButton "b" (empty_page {["a"]})).2)))
           = drop (length (output (heap (empty_page {["a"]}))))
               (output (heap (click id' (empty_page {["a"]})))).
Proof.
  assert (H1 : page_ok (empty_page {["a"]})) by apply page_ok_empty.
  assert (H2 : "b" ∉ elements (empty_page {["a"]})) by (simpl; set_solver).
  split; [exact H1 |]. split; [exact H2 |].
  apply (setupButton_without_element (empty_page {["a"]}) "b" H1 H2).
Defined.

(** X4: listeners pile up: on a page that starts without listeners, whatever
    calls of [setupButton] and clicks there were, one click on a button logs
    exactly one line for every call of [setupButton] made with its id so far
    (none when no element has the id). *)
Theorem click_logs_once_per_setupButton (ids : gset string) (evs : list interaction)
    (id : string) :
  let pg := interact_all evs (empty_page ids) in
  length (output (heap (click id pg)))
  = (length (output (heap pg))
     + if decide (id ∈ ids) then count_of_interaction (SetupButton id) evs else 0)%nat.
Proof.
  intros pg.
  assert (Hok : page_ok pg) by apply page_ok_interact_all, page_ok_empty.
  assert (Hn : length (listeners_of id pg)
               = if decide (id ∈ ids) then count_of_interaction (SetupButton id) evs
                 else 0%nat).
  { unfold pg. clear. induction evs as [|i evs IH] using rev_ind.
    - simpl. by case_decide.
    - rewrite interact_all_snoc, count_of_interaction_snoc.
      assert (Hel : elements (interact_all evs (empty_page ids)) = ids).
      { clear. induction evs as [|i evs IH] using rev_ind; [done |].
        by rewrite interact_all_snoc, elements_interact. }
      destruct i as [id0 | id0]; simpl.
      + rewrite listeners_of_setupButton, Hel.
        destruct (decide (id0 = id)) as [-> | Hne].
        * destruct (decide (id ∈ ids)) as [Hin | Hnin].
          -- rewrite !decide_True by done. rewrite length_app, IH. simpl. lia.
          -- rewrite decide_False by tauto. done.
        * rewrite decide_False by (intros [_ ?]; done).
          rewrite (decide_False (P := SetupButton id0 = SetupButton id)) by congruence.
          rewrite IH. case_decide; lia.
      + rewrite listeners_of_click, IH. case_decide; lia. }
  unfold click. simpl. rewrite run_listeners_length, Hn; [done |].
  intros l Hl. by apply (Hok id l).
Qed.

(** X5: the file as a whole, on any page: the four lines of the counter come
    first; the call [setupButton("myButton")] at the end logs nothing and
    throws a TypeError exactly when the page has no element "myButton";
    when it has one, the first click on it logs that it was clicked 1
    times. *)
Theorem closure_script_runs (ids : gset string) :
  output (heap (closure_script ids).2)
  = [count_line 1; count_line 2; count_line 1;
     {| lvl := Log; args := [VString "Counter reset."] |}]
  ∧ ("myButton" ∈ ids →
     (closure_script ids).1 = Normal VUndefined
     ∧ output (heap (click "myButton" (closure_script ids).2))
       = output (heap (closure_script ids).2) ++ [click_line "myButton" 1])
  ∧ ("myButton" ∉ ids → (closure_script ids).1 = Throw VTypeError).
Proof.
  unfold closure_script. split; [| split].
  - rewrite heap_setupButton. by vm_compute.
  - intros Hin. unfold setupButton. simpl. rewrite decide_True by done. simpl.
    split; [done |]. unfold click, listeners_of. simpl. rewrite lookup_insert_eq. by vm_compute.
  - intros Hnin. unfold setupButton. simpl. by rewrite decide_False.
Qed.

End button_facts.

(** * The promise script: after the [await], and promises settled at once *)

Section continuations.

Lemma set_console_twice c c' st : set_console c (set_console c' st) = set_console c st.
Proof. done. Qed.

Lemma report_settled_entry e k st :
  report_settled (settled_entry e) k st
  = (Normal VUndefined, set_console (console st ++ [settled_line k e]) st).
Proof. destruct e as [[] x]; reflexivity. Qed.

Lemma forEach_entries es : ∀ k st,
  forEach report_settled (map settled_entry es) k st
  = (Normal VUndefined,
     set_console (console st ++ imap (λ i, settled_line (k + i)) es) st).
Proof.
  induction es as [|e es IH]; intros k st; simpl.
  - rewrite app_nil_r. by destruct st.
  - rewrite bind_run, report_settled_entry. simpl. rewrite IH. simpl.
    rewrite set_console_twice, <- app_assoc. simpl. rewrite Nat.add_0_r.
    do 2 f_equal. f_equal. f_equal.
    apply imap_ext. intros i x _. simpl. f_equal. lia.
Qed.

Lemma forEach_throws es rest : ∀ k st,
  forEach report_settled (map settled_entry es ++ VUndefined :: rest) k st
  = (Throw VTypeError,
     set_console (console st ++ imap (λ i, settled_line (k + i)) es) st).
Proof.
  induction es as [|e es IH]; intros k st; simpl.
  - rewrite app_nil_r. by destruct st.
  - rewrite bind_run, report_settled_entry. simpl. rewrite IH. simpl.
    rewrite set_console_twice, <- app_assoc. simpl. rewrite Nat.add_0_r.
    do 2 f_equal. f_equal. f_equal.
    apply imap_ext. intros i x _. simpl. f_equal. lia.
Qed.

Lemma resolve_fn_pending p v st pr :
  promises st !! p = Some pr → already_resolved pr = false →
  status_of (resolve_fn p v st).2 p = Some (Fulfilled v)
  ∧ console (resolve_fn p v st).2 = console st.
Proof.
  intros Hp Hf. unfold resolve_fn. rewrite bind_run. simpl. rewrite Hp, Hf.
  unfold settle. rewrite Hp. simpl. unfold status_of. simpl.
  by rewrite lookup_insert_eq.
Qed.

Lemma reject_fn_pending p v st pr :
  promises st !! p = Some pr → already_resolved pr = false →
  status_of (reject_fn p v st).2 p = Some (Rejected v)
  ∧ console (reject_fn p v st).2 = console st.
Proof.
  intros Hp Hf. unfold reject_fn. rewrite bind_run. simpl. rewrite Hp, Hf.
  unfold settle. rewrite Hp. simpl. unfold status_of. simpl.
  by rewrite lookup_insert_eq.
Qed.

Ltac resolved_retp retp pr Hp Hf :=
  match goal with
  | |- context [resolve_fn retp ?v ?s] =>
      let H1 := fresh in let H2 := fresh in
      destruct (resolve_fn_pending retp v s pr Hp Hf) as [H1 H2];
      by rewrite H1, H2
  end.

(** X6: after its [await], [fetchWithAllSettled] goes through the array that
    [Promise.allSettled] made, whatever its length: it logs one line per
    entry, in the order of the entries, at level log with the value for a
    fulfilled one and at level warn with the reason for a rejected one, the
    label counting from "API 9"; then its promise is fulfilled with
    [undefined]. *)
Theorem fetchWithAllSettled_reports (es : list (bool * value)) (retp : pid)
    (st : state) (pr : promise) :
  promises st !! retp = Some pr → already_resolved pr = false →
  let st' := (resume FetchWithAllSettled (Normal (VArray (map settled_entry es))) retp st).2 in
  console st' = console st ++ imap settled_line es
  ∧ status_of st' retp = Some (Fulfilled VUndefined).
Proof.
  intros Hp Hf. simpl. unfold resume. rewrite bind_run. simpl.
  rewrite forEach_entries. simpl.
  match goal with
  | |- context [resolve_fn retp VUndefined ?s] =>
      destruct (resolve_fn_pending retp VUndefined s pr Hp Hf) as [H1 H2]
  end.
  rewrite H1, H2. done.
Qed.

Lemma fetchWithAllSettled_reports_witness :
  promises (new_promise init).2 !! 0%nat = Some (pending_with [])
  ∧ already_resolved (pending_with []) = false
  ∧ let st' := (resume FetchWithAllSettled
                  (Normal (VArray (map settled_entry
                     [(false, VString "API 9 data");
                      (true, VString "Error fetching data from API 10")])))
                  0%nat (new_promise init).2).2 in
    console st'
    = console (new_promise init).2
      ++ imap settled_line [(false, VString "API 9 data");
                            (true, VString "Error fetching data from API 10")]
    ∧ status_of st' 0%nat = Some (Fulfilled VUndefined).
Proof.
  split; [reflexivity |]. split; [reflexivity |].
  apply (fetchWithAllSettled_reports
           [(false, VString "API 9 data"); (true, VString "Error fetching data from API 10")]
           0%nat (new_promise init).2 (pending_with [])); reflexivity.
Defined.

(** X7: [fetchWithAllSettled] has no [try]: when an entry of the array is
    [undefined], reading its [status] throws a TypeError; the entries before
    it have been reported, those after it are not, and the promise of the
    function is rejected with the TypeError. *)
Theorem fetchWithAllSettled_stops_at_undefined (es : list (bool * value))
    (rest : list value) (retp : pid) (st : state) (pr : promise) :
  promises st !! retp = Some pr → already_resolved pr = false →
  let st' := (resume FetchWithAllSettled
                (Normal (VArray (map settled_entry es ++ VUndefined :: rest))) retp st).2 in
  console st' = console st ++ imap settled_line es
  ∧ status_of st' retp = Some (Rejected VTypeError).
Proof.
  intros Hp Hf. simpl. unfold resume. rewrite bind_run. simpl.
  rewrite forEach_throws. simpl.
  match goal with
  | |- context [reject_fn retp VTypeError ?s] =>
      destruct (reject_fn_pending retp VTypeError s pr Hp Hf) as [H1 H2]
  end.
  rewrite H1, H2. done.
Qed.

Lemma fetchWithAllSettled_stops_at_undefined_witness :
  promises (new_promise init).2 !! 0%nat = Some (pending_with [])
  ∧ already_resolved (pending_with []) = false
  ∧ let st' := (resume FetchWithAllSettled
                  (Normal (VArray (map settled_entry [(false, VString "API 9 data")]
                                   ++ VUndefined :: [settled_entry (false, VString "x")])))
                  0%nat (new_promise init).2).2 in
    console st'
    = console (new_promise init).2 ++ imap settled_line [(false, VString "API 9 data")]
    ∧ status_of st' 0%nat = Some (Rejected VTypeError).
Proof.
  split; [reflexivity |]. split; [reflexivity |].
  apply (fetchWithAllSettled_stops_at_undefined [(false, VString "API 9 data")]
           [settled_entry (false, VString "x")] 0%nat (new_promise init).2 (pending_with []));
    reflexivity.
Defined.

(** X8: the [catch] blocks: when the promise an async function awaits is
    rejected with [e], the reaction of the [await] resumes the function in
    its [catch] block. The four functions that have one log one error line
    with their label and [e], and their promise is fulfilled with
    [undefined]: the rejection does not reach the caller.
    [fetchWithAllSettled] has none: it logs nothing and its promise is
    rejected with [e]. *)
Theorem async_functions_on_rejection (f : async_fn) (p retp : pid) (e : value)
    (st : state) (pr : promise) :
  promises st !! retp = Some pr → already_resolved pr = false →
  let st' := (react (reaction_job p (Rejected e) (await_reaction f retp)) st).2 in
  match catch_label f with
  | Some label =>
      console st' = console st ++ [{| lvl := Error; args := [VString label; e] |}]
      ∧ status_of st' retp = Some (Fulfilled VUndefined)
  | None =>
      console st' = console st ∧ status_of st' retp = Some (Rejected e)
  end.
Proof.
  intros Hp Hf. simpl. unfold react. rewrite bind_run. simpl.
  rewrite bind_run. unfold resume. rewrite bind_run.
  destruct f; simpl;
    [resolved_retp retp pr Hp Hf .. | ].
  destruct (reject_fn_pending retp e st pr Hp Hf) as [H1 H2]. by rewrite H1, H2.
Qed.

Lemma async_functions_on_rejection_witness :
  promises (new_promise init).2 !! 0%nat = Some (pending_with [])
  ∧ already_resolved (pending_with []) = false
  ∧ let st' := (react (reaction_job 1%nat (Rejected (VString "Error fetching data from API 7"))
                         (await_reaction FetchAllWithErrors 0%nat)) (new_promise init).2).2 in
    match catch_label FetchAllWithErrors with
    | Some label =>
        console st'
        = console (new_promise init).2
          ++ [{| lvl := Error;
                 args := [VString label; VString "Error fetching data from API 7"] |}]
        ∧ status_of st' 0%nat = Some (Fulfilled VUndefined)
    | None =>
        console st' = console (new_promise init).2
        ∧ status_of st' 0%nat = Some (Rejected (VString "Error fetching data from API 7"))
    end.
Proof.
  split; [reflexivity |]. split; [reflexivity |].
  apply (async_functions_on_rejection FetchAllWithErrors 1%nat 0%nat
           (VString "Error fetching data from API 7") (new_promise init).2 (pending_with []));
    reflexivity.
Defined.

End continuations.

(** ** Jobs run in turn, before any timer *)

Section queue.



Lemma steps_run st s : steps st s → run s = run st.
Proof.
  induction 1 as [st | s1 s2 s3 Hstep _ IH]; [done |].
  rewrite IH. unfold run. rewrite (step_work _ _ Hstep). simpl. by rewrite Hstep.
Qed.







End queue.

(** * The calls of the script in the middle of a run *)

(** ** Which timer comes next *)

Lemma pop_timer_split ts t rest :
  pop_timer ts = Some (t, rest) →
  ∃ l1 l2, ts = l1 ++ t :: l2 ∧ rest = l1 ++ l2
           ∧ (∀ u, u ∈ l1 → due t < due u) ∧ (∀ u, u ∈ l2 → due t ≤ due u).
Proof.
  revert t rest. induction ts as [|x ts IH]; intros t rest; simpl; [done |].
  destruct (pop_timer ts) as [[v rest']|] eqn:E.
  - destruct (IH _ _ eq_refl) as (l1 & l2 & -> & -> & H1 & H2).
    destruct (Z.ltb_spec (due v) (due x)); intros [= <- <-].
    + exists (x :: l1), l2. split_and!; try done.
      intros u [-> | Hu]%elem_of_cons; [done | by apply H1].
    + exists [], (l1 ++ v :: l2). split_and!; try done.
      * intros u Hu. by apply elem_of_nil in Hu.
      * intros u Hu. pose proof (pop_timer_min _ _ _ E u Hu). lia.
  - intros [= <- <-]. apply pop_timer_None in E as ->.
    exists [], []. split_and!; try done; intros u Hu; by apply elem_of_nil in Hu.
Qed.

Lemma pop_timer_unique l1 t l2 :
  (∀ u, u ∈ l1 → due t < due u) → (∀ u, u ∈ l2 → due t ≤ due u) →
  pop_timer (l1 ++ t :: l2) = Some (t, l1 ++ l2).
Proof.
  intros H1 H2. induction l1 as [|x l1 IH]; simpl.
  - destruct (pop_timer l2) as [[u rest]|] eqn:E; [| done].
    assert (u ∈ l2) as Hu by (apply (pop_timer_elem _ _ _ _ E); by left).
    specialize (H2 u Hu). destruct (Z.ltb_spec (due u) (due t)); [lia | done].
  - rewrite IH by (intros u Hu; apply H1; by right).
    assert (due t < due x) as Hx by (apply H1; by left).
    destruct (Z.ltb_spec (due t) (due x)); [done | lia].
Qed.

Lemma shift_timer_target b t0 u : timer_target (shift_timer b t0 u) = (b + timer_target u)%nat.
Proof. unfold timer_target. simpl. by destruct (callback u). Qed.

(** The next timer of the run is an older one, or the next timer of the
    call. *)
Lemma pop_timer_embeds b t0 tc ts t rest :
  filter (λ t, (b ≤ timer_target t)%nat) tc = shift_timer b t0 <$> ts →
  pop_timer tc = Some (t, rest) →
  ((timer_target t < b)%nat
   ∧ filter (λ t, (b ≤ timer_target t)%nat) rest = shift_timer b t0 <$> ts)
  ∨ ((b ≤ timer_target t)%nat
     ∧ ∃ u rs, pop_timer ts = Some (u, rs) ∧ t = shift_timer b t0 u
               ∧ filter (λ t, (b ≤ timer_target t)%nat) rest = shift_timer b t0 <$> rs).
Proof.
  intros Hf Hp.
  destruct (pop_timer_split _ _ _ Hp) as (l1 & l2 & -> & -> & H1 & H2).
  rewrite filter_app, filter_cons in Hf. rewrite filter_app.
  destruct (decide (b ≤ timer_target t)%nat) as [Hnew | Hold].
  - right. split; [done |]. symmetry in Hf.
    apply fmap_app_inv in Hf as (m1 & m2' & E1 & E2 & ->).
    symmetry in E2. apply fmap_cons_inv in E2 as (u & m2 & -> & E2 & ->).
    exists u, (m1 ++ m2). split_and!; [| done | by rewrite fmap_app, E1, E2].
    apply pop_timer_unique.
    + intros x Hx.
      assert (shift_timer b t0 x ∈ l1) as Hx'.
      { apply (list_elem_of_fmap_2 (shift_timer b t0)) in Hx.
        rewrite <- E1 in Hx. by apply list_elem_of_filter in Hx as [_ Hx]. }
      specialize (H1 _ Hx'). simpl in H1. lia.
    + intros x Hx.
      assert (shift_timer b t0 x ∈ l2) as Hx'.
      { apply (list_elem_of_fmap_2 (shift_timer b t0)) in Hx.
        rewrite <- E2 in Hx. by apply list_elem_of_filter in Hx as [_ Hx]. }
      specialize (H2 _ Hx'). simpl in H2. lia.
  - left. split; [lia | done].
Qed.

(** ** What is older stays among the older *)

Lemma sane_touches b ab T A st st' : sane b ab st → touches T A st st' → sane b ab st'.
Proof.
  intros Hs Ht. split.
  - intros p pr r Hp Hr Hlt.
    destruct (t_promises _ _ _ _ Ht p) as [E | (_ & pr' & s & _ & _ & _ & E)].
    + rewrite E in Hp. by apply (sane_reactions _ _ _ Hs p pr r).
    + rewrite E in Hp. injection Hp as <-. by apply elem_of_nil in Hr.
  - intros j Hj Hlt. destruct (t_jobs _ _ _ _ Ht) as (new & E & Hnew).
    rewrite E in Hj. apply elem_of_app in Hj as [Hj | Hj]; [by apply Hs |].
    destruct (Hnew _ Hj) as (_ & pr & r & s & Hp & Hin & _ & Ejob).
    destruct (sane_reactions _ _ _ Hs _ _ _ Hp Hin Hlt) as [H1 H2].
    rewrite Ejob. split.
    + intros q Hq. by apply H1, (reaction_job_target (jsrc j) s).
    + intros a Ha. by apply H2, (reaction_job_cell (jsrc j) s).
  - intros t. rewrite (t_timers _ _ _ _ Ht), (t_now _ _ _ _ Ht). apply Hs.
Qed.

(** ** The names of the aggregate records *)

Lemma fresh_aggregates_ext st st' :
  next_aid st' = next_aid st → aggregates st' = aggregates st →
  fresh_aggregates st → fresh_aggregates st'.
Proof. intros E1 E2 H a. rewrite E1, E2. apply H. Qed.

Lemma fresh_aggregates_update a r st :
  is_Some (aggregates st !! a) → fresh_aggregates st →
  fresh_aggregates (set_aggregates (next_aid st) (<[a := r]> (aggregates st)) st).
Proof.
  intros [r0 Hr0] H a' Ha'. simpl in *. rewrite lookup_insert_ne; [by apply H |].
  intros ->. rewrite (H a' Ha') in Hr0. done.
Qed.

Lemma settle_fresh p s : preserves (keeps fresh_aggregates) (settle p s).
Proof.
  intros st H. unfold settle. destruct (promises st !! p); [| done].
  by apply (fresh_aggregates_ext st).
Qed.

Lemma resolve_fn_fresh p v : preserves (keeps fresh_aggregates) (resolve_fn p v).
Proof.
  intros st H. unfold resolve_fn. rewrite bind_run. simpl.
  destruct (promises st !! p) as [pr|]; [| done].
  destruct (already_resolved pr); [done |]. by apply settle_fresh.
Qed.

Lemma reject_fn_fresh p v : preserves (keeps fresh_aggregates) (reject_fn p v).
Proof.
  intros st H. unfold reject_fn. rewrite bind_run. simpl.
  destruct (promises st !! p) as [pr|]; [| done].
  destruct (already_resolved pr); [done |]. by apply settle_fresh.
Qed.

Lemma console_call_fresh l xs : preserves (keeps fresh_aggregates) (console_call l xs).
Proof. intros st H. by apply (fresh_aggregates_ext st). Qed.

Lemma setTimeout_fresh cb delay : preserves (keeps fresh_aggregates) (setTimeout cb delay).
Proof. intros st H. by apply (fresh_aggregates_ext st). Qed.

Lemma new_promise_fresh : preserves (keeps fresh_aggregates) new_promise.
Proof. intros st H. by apply (fresh_aggregates_ext st). Qed.

Lemma perform_then_fresh p onF onR cap :
  preserves (keeps fresh_aggregates) (perform_then p onF onR cap).
Proof.
  intros st H. unfold perform_then. destruct (promises st !! p) as [pr|]; [| done].
  destruct (status pr); by apply (fresh_aggregates_ext st).
Qed.

Lemma new_aggregate_fresh r : preserves (keeps fresh_aggregates) (new_aggregate r).
Proof.
  intros st H a Ha. simpl in *. rewrite lookup_insert_ne by lia. apply H. lia.
Qed.

Lemma add_slot_fresh a : preserves (keeps fresh_aggregates) (add_slot a).
Proof.
  intros st H. unfold add_slot, modify. simpl.
  destruct (aggregates st !! a) eqn:E; [| done]. apply fresh_aggregates_update; eauto.
Qed.

#[export] Hint Resolve resolve_fn_fresh reject_fn_fresh console_call_fresh setTimeout_fresh
  new_promise_fresh perform_then_fresh new_aggregate_fresh add_slot_fresh : pres.

Lemma element_fn_fresh a i agg x : preserves (keeps fresh_aggregates) (element_fn a i agg x).
Proof.
  intros st H. unfold element_fn.
  destruct (aggregates st !! a) as [r|] eqn:E; [| done].
  assert (∀ r', fresh_aggregates
    (if Z.eqb (remaining r') 0
     then resolve_fn agg (VArray (values r'))
            (set_aggregates (next_aid st) (<[a:=r']> (aggregates st)) st)
     else (tt, set_aggregates (next_aid st) (<[a:=r']> (aggregates st)) st)).2) as H'.
  { intros r'. destruct (Z.eqb _ 0); simpl.
    - apply resolve_fn_fresh. apply fresh_aggregates_update; eauto.
    - apply fresh_aggregates_update; eauto. }
  destruct (called r !! i) as [[]|]; [done | apply H' | apply H'].
Qed.

Lemma finish_loop_fresh a agg : preserves (keeps fresh_aggregates) (finish_loop a agg).
Proof.
  intros st H. unfold finish_loop.
  destruct (aggregates st !! a) as [r|] eqn:E; [| done]. simpl.
  destruct (Z.eqb _ 0); simpl.
  - apply resolve_fn_fresh. apply fresh_aggregates_update; eauto.
  - apply fresh_aggregates_update; eauto.
Qed.

#[export] Hint Resolve element_fn_fresh finish_loop_fresh : pres.

Lemma report_settled_fresh x i : preserves (keeps fresh_aggregates) (report_settled x i).
Proof. unfold report_settled. pres. Qed.

#[export] Hint Resolve report_settled_fresh : pres.

Lemma resume_fresh f c retp : preserves (keeps fresh_aggregates) (resume f c retp).
Proof.
  unfold resume, resume_body. pres.
  apply preserves_forEach; [apply _ |]. intros. pres.
Qed.

#[export] Hint Resolve resume_fresh : pres.

Lemma react_fresh j : preserves (keeps fresh_aggregates) (react j).
Proof. unfold react, call_handler. pres. Qed.

Lemma run_timer_fresh cb : preserves (keeps fresh_aggregates) (run_timer cb).
Proof. unfold run_timer. pres. Qed.

Lemma step_fresh st st' : fresh_aggregates st → step st = Some st' → fresh_aggregates st'.
Proof.
  intros H Hstep.
  destruct (step_cases _ _ Hstep) as [(j & js & Ej & ->) | (t & rest & Ej & Et & ->)].
  - unfold run_job. rewrite bind_run. apply react_fresh. simpl.
    by apply (fresh_aggregates_ext st).
  - apply run_timer_fresh. by apply (fresh_aggregates_ext st).
Qed.

Lemma each_then_fresh pre onF onR :
  preserves (keeps fresh_aggregates) pre →
  ∀ ps i, preserves (keeps fresh_aggregates) (each_then pre onF onR i ps).
Proof.
  intros Hpre ps. induction ps as [|p ps IH]; intros i; simpl; [pres |].
  unfold then_. pres.
Qed.

Lemma await_fresh p f retp : preserves (keeps fresh_aggregates) (await_ p f retp).
Proof. unfold await_. pres. Qed.

#[export] Hint Resolve await_fresh : pres.

Lemma scripted_fresh {A} (m : M A) : scripted m → preserves (keeps fresh_aggregates) m.
Proof. induction 1; pres; try (apply each_then_fresh; pres). Qed.

Lemma reachable_fresh st : reachable st → fresh_aggregates st.
Proof.
  intros Hr. induction Hr as [| A m st' _ IH Hm | st' st'' _ IH Hstep].
  - intros a _. apply lookup_empty.
  - by apply (scripted_fresh m Hm).
  - by eapply step_fresh.
Qed.

(** ** Every operation of the runtime does the same in the middle of a run *)

Section relations.
Context (sync : bool) (b ab : nat) (t0 : Z) (c0 : list line).

Local Abbreviation E := (embeds sync b ab t0 c0).
Local Abbreviation rel := (related sync b ab t0 c0).

Lemma related_ret {A B} (R : A → B → Prop) a a' : R a a' → rel R (mret a) (mret a').
Proof. intros H s c Hsc. by split. Qed.

Lemma related_bind {A B A' B'} (R : A → A' → Prop) (R' : B → B' → Prop)
    (m : M A) (m' : M A') (k : A → M B) (k' : A' → M B') :
  rel R m m' → (∀ a a', R a a' → rel R' (k a) (k' a')) → rel R' (m ≫= k) (m' ≫= k').
Proof.
  intros Hm Hk s c Hsc. rewrite !bind_run.
  destruct (Hm s c Hsc) as [Ha Hsc']. by apply Hk.
Qed.

Lemma related_weaken {A B} (R R' : A → B → Prop) m m' :
  (∀ a a', R a a' → R' a a') → rel R m m' → rel R' m m'.
Proof. intros HR Hm s c Hsc. destruct (Hm s c Hsc). split; auto. Qed.

Lemma sane_set_console b' ab' ls st : sane b' ab' st → sane b' ab' (set_console ls st).
Proof. intros H. split; simpl; apply H. Qed.

Lemma sane_set_trace b' ab' tr st : sane b' ab' st → sane b' ab' (set_trace tr st).
Proof. intros H. split; simpl; apply H. Qed.

Lemma sane_set_aggregates b' ab' n m st :
  sane b' ab' st → sane b' ab' (set_aggregates n m st).
Proof. intros H. split; simpl; apply H. Qed.

Lemma embeds_console s c l :
  E s c → E (set_console (console s ++ [l]) s) (set_console (console c ++ [l]) c).
Proof.
  intros [Hnp Hna Hp Ha Hj Ht (ls & Ec & Hsub) Hs Hsane]. split; simpl; try done.
  - exists (ls ++ [l]). rewrite Ec, <- app_assoc. split; [done |]. by apply sublist_app.
  - intros Hsync. destruct (Hs Hsync) as [H1 H2]. split; [done |].
    by rewrite H2, <- app_assoc.
  - by apply sane_set_console.
Qed.

Lemma embeds_trace s c tr tr' : E s c → E (set_trace tr s) (set_trace tr' c).
Proof.
  intros [Hnp Hna Hp Ha Hj Ht Hc Hs Hsane]. split; simpl; try done.
  by apply sane_set_trace.
Qed.

Lemma embeds_aggregate s c a r :
  E s c →
  E (set_aggregates (next_aid s) (<[a := r]> (aggregates s)) s)
    (set_aggregates (next_aid c) (<[(ab + a)%nat := r]> (aggregates c)) c).
Proof.
  intros [Hnp Hna Hp Ha Hj Ht Hc Hs Hsane]. split; simpl; try done.
  - intros a'. destruct (decide (a = a')) as [-> | Hne].
    + by rewrite !lookup_insert_eq.
    + rewrite !lookup_insert_ne by lia. apply Ha.
  - by apply sane_set_aggregates.
Qed.

Lemma units_equal (x y : ()) : x = y.
Proof. by destruct x, y. Qed.

Lemma related_console_call l xs : rel eq (console_call l xs) (console_call l xs).
Proof. intros s c Hsc. split; [done |]. by apply embeds_console. Qed.

Lemma related_new_promise : rel (λ p p', p' = (b + p)%nat) new_promise new_promise.
Proof.
  intros s c [Hnp Hna Hp Ha Hj Ht Hc Hs Hsane]. split; [done |].
  unfold new_promise. simpl. split; simpl; try done.
  - lia.
  - intros p. rewrite Hnp. destruct (decide (next_pid s = p)) as [-> | Hne].
    + by rewrite !lookup_insert_eq.
    + rewrite !lookup_insert_ne by lia. apply Hp.
  - split; simpl; try apply Hsane.
    intros p pr r Hpr Hr Hlt. rewrite lookup_insert_ne in Hpr by lia.
    by apply (sane_reactions _ _ _ Hsane p pr r).
Qed.

Lemma related_new_aggregate r :
  rel (λ a a', a' = (ab + a)%nat) (new_aggregate r) (new_aggregate r).
Proof.
  intros s c [Hnp Hna Hp Ha Hj Ht Hc Hs Hsane]. split; [done |].
  unfold new_aggregate. simpl. split; simpl; try done.
  - lia.
  - intros a. rewrite Hna. destruct (decide (next_aid s = a)) as [-> | Hne].
    + by rewrite !lookup_insert_eq.
    + rewrite !lookup_insert_ne by lia. apply Ha.
  - by apply sane_set_aggregates.
Qed.

Lemma shift_job_src j : jsrc (shift_job b ab j) = (b + jsrc j)%nat.
Proof. done. Qed.

Lemma reaction_job_shift p s r :
  reaction_job (b + p) s (shift_reaction b ab r) = shift_job b ab (reaction_job p s r).
Proof. by destruct s. Qed.

Lemma filter_new_jobs (js : list job) :
  filter (λ j, (b ≤ jsrc j)%nat) (shift_job b ab <$> js) = shift_job b ab <$> js.
Proof.
  induction js as [|j js IH]; [done |]. rewrite fmap_cons, filter_cons.
  rewrite decide_True by (simpl; lia). by rewrite IH.
Qed.

Lemma shift_job_map p st (rs : list reaction) :
  map (reaction_job (b + p) st) (shift_reaction b ab <$> rs)
  = shift_job b ab <$> map (reaction_job p st) rs.
Proof.
  induction rs as [|r rs IH]; [done |]. simpl.
  f_equal; [apply reaction_job_shift | apply IH].
Qed.

Lemma sane_settle q st c : sane b ab c → sane b ab (settle q st c).2.
Proof.
  intros Hsane. unfold settle. destruct (promises c !! q) as [pr|] eqn:Eq; [| done].
  simpl. split; simpl.
  - intros p pr' r [[<- <-] | [_ Hp]]%lookup_insert_Some Hr Hlt.
    + by apply elem_of_nil in Hr.
    + by apply (sane_reactions _ _ _ Hsane p pr' r).
  - intros j [Hj | Hj]%elem_of_app Hlt; [by apply Hsane |].
    apply list_elem_of_fmap in Hj as (r & -> & Hr).
    rewrite reaction_job_src in Hlt.
    destruct (sane_reactions _ _ _ Hsane _ _ _ Eq Hr Hlt) as [H1 H2]. split.
    + intros q' Hq'. by apply H1, (reaction_job_target q st).
    + intros a Ha. by apply H2, (reaction_job_cell q st).
  - apply Hsane.
Qed.

Lemma embeds_settle s c p st : E s c → E (settle p st s).2 (settle (b + p) st c).2.
Proof.
  intros H. pose proof (sane_settle (b + p) st c (em_sane _ _ _ _ _ _ _ H)) as Hsane'.
  destruct H as [Hnp Hna Hp Ha Hj Ht Hc Hs Hsane].
  unfold settle in *. rewrite Hp in *.
  destruct (promises s !! p) as [pr|]; simpl in *; [| by split].
  split; simpl; try done.
  - intros p'. destruct (decide (p = p')) as [-> | Hne].
    + by rewrite !lookup_insert_eq.
    + rewrite !lookup_insert_ne by lia. apply Hp.
  - rewrite filter_app, Hj, shift_job_map, filter_new_jobs, fmap_app. done.
Qed.

Lemma related_resolve_fn p v : rel eq (resolve_fn p v) (resolve_fn (b + p) v).
Proof.
  intros s c H. split; [apply units_equal |]. unfold resolve_fn. rewrite !bind_run. simpl.
  rewrite (em_promises _ _ _ _ _ _ _ H).
  destruct (promises s !! p) as [pr|]; simpl; [| done].
  destruct (already_resolved pr); [done |]. by apply embeds_settle.
Qed.

Lemma related_reject_fn p v : rel eq (reject_fn p v) (reject_fn (b + p) v).
Proof.
  intros s c H. split; [apply units_equal |]. unfold reject_fn. rewrite !bind_run. simpl.
  rewrite (em_promises _ _ _ _ _ _ _ H).
  destruct (promises s !! p) as [pr|]; simpl; [| done].
  destruct (already_resolved pr); [done |]. by apply embeds_settle.
Qed.

Lemma related_perform_then p onF onR cap :
  rel eq (perform_then p onF onR cap)
    (perform_then (b + p) (shift_handler b ab onF) (shift_handler b ab onR)
       (Nat.add b <$> cap)).
Proof.
  intros s c H. split; [apply units_equal |].
  destruct H as [Hnp Hna Hp Ha Hj Ht Hc Hs Hsane].
  unfold perform_then. rewrite Hp.
  destruct (promises s !! p) as [pr|] eqn:Ep; simpl; [| by split].
  set (r := {| on_fulfilled := onF; on_rejected := onR; capability := cap |}).
  assert (Hjob : ∀ st,
    E (set_jobs (jobs s ++ [reaction_job p st r]) s)
      (set_jobs (jobs c ++ [reaction_job (b + p) st (shift_reaction b ab r)]) c)).
  { intros st. split; simpl; try done.
    - rewrite filter_app, Hj, reaction_job_shift, fmap_app. simpl.
      rewrite filter_cons, decide_True by (simpl; lia). done.
    - split; simpl; try apply Hsane.
      intros j [Hj' | ->%list_elem_of_singleton]%elem_of_app Hlt; [by apply Hsane |].
      rewrite reaction_job_src in Hlt. lia. }
  destruct (status pr) eqn:Es; [| apply (Hjob (Fulfilled v)) | apply (Hjob (Rejected r0))].
  split; simpl; try done.
  - intros p'. destruct (decide (p = p')) as [-> | Hne].
    + rewrite !lookup_insert_eq. simpl. unfold shift_promise. simpl.
      by rewrite fmap_app.
    + rewrite !lookup_insert_ne by lia. apply Hp.
  - split; simpl; try apply Hsane.
    intros q pr' r' Hq Hr' Hlt. rewrite lookup_insert_ne in Hq by lia.
    by apply (sane_reactions _ _ _ Hsane q pr' r').
Qed.

Lemma related_add_slot a : rel eq (add_slot a) (add_slot (ab + a)).
Proof.
  intros s c H. split; [apply units_equal |]. unfold add_slot, modify. simpl.
  rewrite (em_aggregates _ _ _ _ _ _ _ H).
  destruct (aggregates s !! a) as [r|]; [| done]. by apply embeds_aggregate.
Qed.

Lemma related_element_fn a i agg x :
  rel eq (element_fn a i agg x) (element_fn (ab + a) i (b + agg) x).
Proof.
  intros s c H. split; [apply units_equal |]. unfold element_fn.
  rewrite (em_aggregates _ _ _ _ _ _ _ H).
  destruct (aggregates s !! a) as [r|]; [| done].
  assert (∀ r', E
    (if Z.eqb (remaining r') 0
     then resolve_fn agg (VArray (values r'))
            (set_aggregates (next_aid s) (<[a:=r']> (aggregates s)) s)
     else (tt, set_aggregates (next_aid s) (<[a:=r']> (aggregates s)) s)).2
    (if Z.eqb (remaining r') 0
     then resolve_fn (b + agg) (VArray (values r'))
            (set_aggregates (next_aid c) (<[(ab + a)%nat:=r']> (aggregates c)) c)
     else (tt, set_aggregates (next_aid c) (<[(ab + a)%nat:=r']> (aggregates c)) c)).2) as H'.
  { intros r'. destruct (Z.eqb _ 0); simpl.
    - apply related_resolve_fn. by apply embeds_aggregate.
    - by apply embeds_aggregate. }
  destruct (called r !! i) as [[]|]; [done | apply H' | apply H'].
Qed.

Lemma related_finish_loop a agg : rel eq (finish_loop a agg) (finish_loop (ab + a) (b + agg)).
Proof.
  intros s c H. split; [apply units_equal |]. unfold finish_loop.
  rewrite (em_aggregates _ _ _ _ _ _ _ H).
  destruct (aggregates s !! a) as [r|]; [| done]. simpl.
  destruct (Z.eqb _ 0); simpl.
  - apply related_resolve_fn. by apply embeds_aggregate.
  - by apply embeds_aggregate.
Qed.

Lemma related_report_settled x i : rel eq (report_settled x i) (report_settled x i).
Proof.
  unfold report_settled.
  destruct (get_field "status" x) as [tag | e]; [| by apply related_ret].
  destruct (is_fulfilled_tag tag).
  - destruct (get_field "value" x) as [v | e]; [| by apply related_ret].
    eapply related_bind; [apply related_console_call | intros _ _ _; by apply related_ret].
  - destruct (get_field "reason" x) as [v | e]; [| by apply related_ret].
    eapply related_bind; [apply related_console_call | intros _ _ _; by apply related_ret].
Qed.

Lemma related_forEach xs : ∀ i, rel eq (forEach report_settled xs i) (forEach report_settled xs i).
Proof.
  induction xs as [|x xs IH]; intros i; simpl; [by apply related_ret |].
  eapply related_bind; [apply related_report_settled |].
  intros r _ <-. destruct r; [apply IH | by apply related_ret].
Qed.

Lemma related_resume_body f r : rel eq (resume_body f r) (resume_body f r).
Proof.
  destruct f, r; simpl;
    try (eapply related_bind; [| intros _ _ _; by apply related_ret]);
    try apply related_console_call; try (by apply related_ret).
  - destruct (as_array v); apply related_console_call.
  - destruct (as_array v); [apply related_forEach | by apply related_ret].
Qed.

Lemma related_resume f r retp : rel eq (resume f r retp) (resume f r (b + retp)).
Proof.
  unfold resume. eapply related_bind; [apply related_resume_body |].
  intros x _ <-. destruct x; [apply related_resolve_fn | apply related_reject_fn].
Qed.

Lemma related_call_handler h rej x :
  rel eq (call_handler h rej x) (call_handler (shift_handler b ab h) rej x).
Proof.
  destruct h; simpl; try (by apply related_ret);
    (eapply related_bind; [| intros _ _ _; by apply related_ret]).
  - apply related_console_call.
  - apply related_resolve_fn.
  - apply related_reject_fn.
  - apply related_element_fn.
  - apply related_element_fn.
  - apply related_element_fn.
  - apply related_resume.
  - apply related_resume.
Qed.

Lemma related_react j : rel eq (react j) (react (shift_job b ab j)).
Proof.
  unfold react. simpl. eapply related_bind; [apply related_call_handler |].
  intros r _ <-. destruct (jcapability j) as [d|]; simpl; [| by apply related_ret].
  destruct r; [apply related_resolve_fn | apply related_reject_fn].
Qed.

Lemma related_run_job j : rel eq (run_job j) (run_job (shift_job b ab j)).
Proof.
  unfold run_job. eapply related_bind; [| intros _ _ _; apply related_react].
  intros s c H. split; [apply units_equal |]. by apply embeds_trace.
Qed.

Lemma related_run_timer cb : rel eq (run_timer cb) (run_timer (shift_cb b cb)).
Proof.
  destruct cb as [name fail p]. simpl.
  destruct fail; [apply related_reject_fn | apply related_resolve_fn].
Qed.

Lemma related_then p onF onR :
  rel (λ d d', d' = (b + d)%nat) (then_ p onF onR)
    (then_ (b + p) (shift_handler b ab onF) (shift_handler b ab onR)).
Proof.
  unfold then_. eapply related_bind; [apply related_new_promise |].
  intros d d' ->. eapply related_bind; [apply (related_perform_then p onF onR (Some d)) |].
  intros _ _ _. by apply related_ret.
Qed.

Lemma related_await p f retp : rel eq (await_ p f retp) (await_ (b + p) f (b + retp)).
Proof.
  unfold await_.
  apply (related_perform_then p (HResumeNormal f retp) (HResumeThrow f retp) None).
Qed.

Lemma related_each_then pre pre' onF onR onF' onR' :
  rel eq pre pre' →
  (∀ i, onF' i = shift_handler b ab (onF i)) → (∀ i, onR' i = shift_handler b ab (onR i)) →
  ∀ ps i, rel eq (each_then pre onF onR i ps)
            (each_then pre' onF' onR' i (Nat.add b <$> ps)).
Proof.
  intros Hpre HF HR ps. induction ps as [|p ps IH]; intros i; simpl; [by apply related_ret |].
  eapply related_bind; [apply Hpre | intros _ _ _].
  eapply related_bind; [rewrite HF, HR; apply related_then | intros _ _ _].
  apply IH.
Qed.

Lemma related_Promise_all ps :
  rel (λ d d', d' = (b + d)%nat) (Promise_all ps) (Promise_all (Nat.add b <$> ps)).
Proof.
  unfold Promise_all. eapply related_bind; [apply related_new_promise |].
  intros agg _ ->. eapply related_bind; [apply related_new_aggregate |].
  intros a _ ->. eapply related_bind.
  { apply (related_each_then (add_slot a) (add_slot (ab + a))
             (λ i, HAllElement a i agg) (λ _, HReject agg)); [apply related_add_slot | done ..]. }
  intros _ _ _. eapply related_bind; [apply related_finish_loop |].
  intros _ _ _. by apply related_ret.
Qed.

Lemma related_Promise_allSettled ps :
  rel (λ d d', d' = (b + d)%nat) (Promise_allSettled ps)
    (Promise_allSettled (Nat.add b <$> ps)).
Proof.
  unfold Promise_allSettled. eapply related_bind; [apply related_new_promise |].
  intros agg _ ->. eapply related_bind; [apply related_new_aggregate |].
  intros a _ ->. eapply related_bind.
  { apply (related_each_then (add_slot a) (add_slot (ab + a))
             (λ i, HSettledFulfilled a i agg) (λ i, HSettledRejected a i agg));
      [apply related_add_slot | done ..]. }
  intros _ _ _. eapply related_bind; [apply related_finish_loop |].
  intros _ _ _. by apply related_ret.
Qed.

Lemma related_Promise_race ps :
  rel (λ d d', d' = (b + d)%nat) (Promise_race ps) (Promise_race (Nat.add b <$> ps)).
Proof.
  unfold Promise_race. eapply related_bind; [apply related_new_promise |].
  intros agg _ ->. eapply related_bind.
  { apply (related_each_then (mret tt) (mret tt)
             (λ _, HResolve agg) (λ _, HReject agg)); [by apply related_ret | done ..]. }
  intros _ _ _. by apply related_ret.
Qed.

Lemma related_Promise_resolve v :
  rel (λ d d', d' = (b + d)%nat) (Promise_resolve v) (Promise_resolve v).
Proof.
  unfold Promise_resolve. eapply related_bind; [apply related_new_promise |].
  intros p _ ->. eapply related_bind; [apply related_resolve_fn |].
  intros _ _ _. by apply related_ret.
Qed.

Lemma related_Promise_reject v :
  rel (λ d d', d' = (b + d)%nat) (Promise_reject v) (Promise_reject v).
Proof.
  unfold Promise_reject. eapply related_bind; [apply related_new_promise |].
  intros p _ ->. eapply related_bind; [apply related_reject_fn |].
  intros _ _ _. by apply related_ret.
Qed.

Lemma related_array_of (calls : list (M pid)) :
  (∀ call, call ∈ calls → rel (λ d d', d' = (b + d)%nat) call call) →
  rel (λ ps ps', ps' = Nat.add b <$> ps) (array_of calls) (array_of calls).
Proof.
  induction calls as [|call calls IH]; intros H; simpl; [by apply related_ret |].
  eapply related_bind; [apply H; by left |].
  intros p _ ->. eapply related_bind; [apply IH; intros call' Hc; apply H; by right |].
  intros ps _ ->. by apply related_ret.
Qed.

End relations.

Section calls.
Context (b ab : nat) (t0 : Z) (c0 : list line).

(** [setTimeout] sets its timer from the clock, which agrees while the
    calls are made. *)
Lemma related_setTimeout cb delay :
  related true b ab t0 c0 eq (setTimeout cb delay) (setTimeout (shift_cb b cb) delay).
Proof.
  intros s c [Hnp Hna Hp Ha Hj Ht Hc Hs Hsane]. split; [apply units_equal |].
  destruct (Hs eq_refl) as [Hnow Hcon].
  unfold setTimeout, modify. simpl. split; simpl; try done.
  - rewrite filter_app, Ht, fmap_app. simpl.
    rewrite filter_cons, decide_True.
    + unfold shift_timer. simpl. rewrite Hnow. do 3 f_equal. lia.
    + unfold timer_target. simpl. destruct cb. simpl. lia.
  - split; simpl; try apply Hsane.
    intros t [Hin | ->%list_elem_of_singleton]%elem_of_app; [by apply Hsane |].
    simpl. lia.
Qed.

Lemma related_fetchData name delay fail :
  related true b ab t0 c0 (λ d d', d' = (b + d)%nat)
    (fetchData name delay fail) (fetchData name delay fail).
Proof.
  unfold fetchData. eapply related_bind; [apply related_new_promise |].
  intros p _ ->. eapply related_bind.
  { apply (related_setTimeout (FetchTimeout name (default false fail) p)). }
  intros _ _ _. by apply related_ret.
Qed.

End calls.

(** ** The event loop does the same in the middle of a run *)

Section loop.
Context (b ab : nat) (t0 : Z) (c0 : list line).

Local Abbreviation E := (embeds false b ab t0 c0).

Lemma embeds_forget sync s c : embeds sync b ab t0 c0 s c → E s c.
Proof. intros [Hnp Hna Hp Ha Hj Ht Hc Hs Hsane]. by split. Qed.

Lemma filter_none {A} (P : A → Prop) `{!∀ x, Decision (P x)} (l : list A) :
  (∀ x, x ∈ l → ¬ P x) → filter P l = [].
Proof.
  induction l as [|x l IH]; intros Hl; [done |].
  rewrite filter_cons, decide_False by (apply Hl; by left).
  apply IH. intros y Hy. apply Hl. by right.
Qed.

(** A turn of something older: nothing of the call moves. *)
Lemma embeds_touches_old T A s c cx c' :
  E s c → sane b ab c' →
  touches T A cx c' → (∀ q, T q → (q < b)%nat) → (∀ a, A a → (a < ab)%nat) →
  next_pid cx = next_pid c → next_aid cx = next_aid c →
  promises cx = promises c → aggregates cx = aggregates c →
  filter (λ j, (b ≤ jsrc j)%nat) (jobs cx) = filter (λ j, (b ≤ jsrc j)%nat) (jobs c) →
  filter (λ t, (b ≤ timer_target t)%nat) (timers cx)
  = filter (λ t, (b ≤ timer_target t)%nat) (timers c) →
  console cx = console c →
  E s c'.
Proof.
  intros [Hnp Hna Hp Ha Hj Ht (ls & Ec & Hsub) Hs Hsane] Hsane' Htc HT HA E1 E2 E3 E4 E5 E6 E7.
  split; try done.
  - by rewrite (t_next_pid _ _ _ _ Htc), E1.
  - by rewrite (t_next_aid _ _ _ _ Htc), E2.
  - intros p. destruct (t_promises _ _ _ _ Htc (b + p)%nat) as [-> | [Hq _]].
    + rewrite E3. apply Hp.
    + apply HT in Hq. lia.
  - intros a. rewrite (t_aggregates _ _ _ _ Htc); [rewrite E4; apply Ha |].
    intros Hq%HA. lia.
  - destruct (t_jobs _ _ _ _ Htc) as (new & -> & Hnew).
    rewrite filter_app, E5, Hj, (filter_none _ new), app_nil_r; [done |].
    intros j Hin. destruct (Hnew j Hin) as [Hq%HT _]. lia.
  - by rewrite (t_timers _ _ _ _ Htc), E6.
  - destruct (t_console _ _ _ _ Htc) as (ls' & ->). rewrite E7, Ec.
    exists (ls ++ ls'). rewrite <- app_assoc. split; [done |]. by apply sublist_inserts_r.
Qed.

(** A turn of the run is a turn of something older, or the next turn of
    the call. *)
Lemma step_embeds s c c' :
  E s c → step c = Some c' → E s c' ∨ ∃ s', step s = Some s' ∧ E s' c'.
Proof.
  intros H Hstep.
  pose proof (sane_step _ _ _ _ (em_sane _ _ _ _ _ _ _ H) Hstep) as Hsane'.
  destruct (step_cases _ _ Hstep) as [(j & js & Ej & ->) | (t & rest & Ej & Et & ->)].
  - destruct (decide (b ≤ jsrc j)%nat) as [Hnew | Hold].
    + right.
      pose proof (em_jobs _ _ _ _ _ _ _ H) as Hj.
      rewrite Ej, filter_cons, decide_True in Hj by done.
      symmetry in Hj. apply fmap_cons_inv in Hj as (j0 & js0 & -> & Hjs & Ejs).
      exists (run_job j0 (set_jobs js0 s)).2. split; [unfold step; by rewrite Ejs |].
      apply related_run_job.
      destruct H as [Hnp Hna Hp Ha Hj Ht Hc Hs Hsane]. split; simpl; try done.
      split; simpl; try apply Hsane.
      intros j' Hj'. apply Hsane. rewrite Ej. by right.
    + left.
      assert (jsrc j < b)%nat as Hlt by lia.
      destruct (sane_jobs _ _ _ (em_sane _ _ _ _ _ _ _ H) j ltac:(rewrite Ej; by left) Hlt)
        as [HT HA].
      apply (embeds_touches_old _ _ s c (set_jobs js c) _ H Hsane'
               (run_job_touches j (set_jobs js c)) HT HA); try done.
      simpl. rewrite Ej, filter_cons, decide_False by done. done.
  - pose proof (em_jobs _ _ _ _ _ _ _ H) as Hj. rewrite Ej in Hj.
    symmetry in Hj. apply fmap_nil_inv in Hj.
    destruct (pop_timer_embeds _ _ _ _ _ _ (em_timers _ _ _ _ _ _ _ H) Et)
      as [[Hold Hrest] | (Hnew & u & rs & Eu & -> & Hrest)].
    + left.
      apply (embeds_touches_old (λ q, q = timer_target t) (λ _, False) s c
               (set_now (Z.max (now c) (due t)) (set_timers rest c)) _ H Hsane').
      * unfold timer_target. destruct (callback t) eqn:Ecb. simpl.
        apply (run_timer_touches (FetchTimeout apiName shouldFail p)).
      * by intros q ->.
      * done.
      * done.
      * done.
      * done.
      * done.
      * done.
      * simpl. rewrite Hrest. symmetry. apply H.
      * done.
    + right.
      exists (run_timer (callback u)
                (set_now (Z.max (now s) (due u)) (set_timers rs s))).2.
      split; [unfold step; by rewrite Hj, Eu |].
      apply (related_run_timer false b ab t0 c0 (callback u)).
      pose proof (pop_timer_min _ _ _ Et) as Hmin.
      destruct H as [Hnp Hna Hp Ha Hj' Ht Hc Hs Hsane]. split; simpl; try done.
      split; simpl; try apply Hsane.
      intros t' Ht'.
      assert (t' ∈ timers c) as Hin by (apply (pop_timer_elem _ _ _ _ Et); by right).
      assert (shift_timer b t0 u ∈ timers c) as Hin'
        by (apply (pop_timer_elem _ _ _ _ Et); by left).
      pose proof (Hmin t' Hin). pose proof (sane_timers _ _ _ Hsane t' Hin).
      simpl in *. lia.
Qed.

Lemma quiescent_run st : quiescent st → run st = st.
Proof.
  intros Hq. apply step_None in Hq. unfold run.
  destruct (work st); simpl; [done | by rewrite Hq].
Qed.

(** The run of the call on its own is what the run in the middle of
    anything holds at the end. *)
Lemma run_embeds sync s c :
  embeds sync b ab t0 c0 s c → E (run s) (run c).
Proof.
  intros H%embeds_forget.
  assert (HI : ∃ s', steps s s' ∧ E s' (run c)).
  { apply (run_invariant (λ c', ∃ s', steps s s' ∧ E s' c')).
    - exists s. split; [apply rtc_refl | done].
    - intros c1 c2 (s1 & Hs1 & H1) Hstep.
      destruct (step_embeds _ _ _ H1 Hstep) as [H2 | (s2 & Hs2 & H2)].
      + by exists s1.
      + exists s2. split; [| done]. eapply rtc_r; eauto. }
  destruct HI as (s' & Hs' & H').
  assert (quiescent s') as Hq.
  { destruct (run_quiescent c) as [Hj Ht].
    pose proof (em_jobs _ _ _ _ _ _ _ H') as Hj'. rewrite Hj in Hj'.
    pose proof (em_timers _ _ _ _ _ _ _ H') as Ht'. rewrite Ht in Ht'.
    split; [by apply (fmap_nil_inv (shift_job b ab)) | by apply (fmap_nil_inv (shift_timer b t0))]. }
  rewrite <- (steps_run s s' Hs'), (quiescent_run s' Hq). done.
Qed.

End loop.

(** ** A call made in any state the script can reach *)

Lemma embeds_init st :
  reachable st →
  embeds true (next_pid st) (next_aid st) (now st) (console st) init st.
Proof.
  intros Hr. pose proof (reachable_wf st Hr) as Hwf.
  pose proof (reachable_fresh st Hr) as Hfresh.
  split; simpl.
  - lia.
  - lia.
  - intros p. rewrite lookup_empty. simpl.
    destruct (promises st !! (next_pid st + p)%nat) as [pr|] eqn:Ep; [| done].
    apply (wf_dom _ Hwf) in Ep. lia.
  - intros a. rewrite lookup_empty. apply Hfresh. lia.
  - apply filter_none. intros j Hj. destruct (wf_jobs _ Hwf j Hj). lia.
  - apply filter_none. intros t Ht. destruct (wf_timers _ Hwf t Ht). lia.
  - exists []. by rewrite app_nil_r.
  - intros _. split; [lia | by rewrite app_nil_r].
  - by apply wf_sane.
Qed.

Lemma embeds_status sync b ab t0 c0 s c p :
  embeds sync b ab t0 c0 s c → status_of c (b + p) = status_of s p.
Proof.
  intros H. unfold status_of. rewrite (em_promises _ _ _ _ _ _ _ H).
  by destruct (promises s !! p).
Qed.

(** What a call gives in any state the script can reach, from what it gives
    in the initial state: the promises it makes are named from the next free
    name on, and hold at its return and when the loop has come to rest what
    they hold in the run from the initial state; the lines it logs before
    it returns are those of that run, and so are, in this order and among
    the lines of others, those logged when the loop has come to rest. *)
Lemma in_any_context {A} (R : nat → A → A → Prop) (m : M A) (st : state) :
  (∀ b ab t0 c0, related true b ab t0 c0 (R b) m m) →
  reachable st →
  R (next_pid st) (m init).1 (m st).1
  ∧ (∀ p, status_of (m st).2 (next_pid st + p) = status_of (m init).2 p)
  ∧ console (m st).2 = console st ++ console (m init).2
  ∧ quiescent (run (m st).2)
  ∧ (∀ p, status_of (run (m st).2) (next_pid st + p) = status_of (run (m init).2) p)
  ∧ ∃ ls, console (run (m st).2) = console st ++ ls
          ∧ sublist (console (run (m init).2)) ls.
Proof.
  intros Hm Hr.
  destruct (Hm _ _ _ _ init st (embeds_init st Hr)) as [HR H1].
  pose proof (run_embeds _ _ _ _ _ _ _ H1) as H2.
  split_and!.
  - done.
  - intros p. by apply (embeds_status _ _ _ _ _ _ _ _ H1).
  - by destruct (em_sync _ _ _ _ _ _ _ H1 eq_refl).
  - apply run_quiescent.
  - intros p. by apply (embeds_status _ _ _ _ _ _ _ _ H2).
  - apply H2.
Qed.

(** * The demonstrations of the script, called in any state it can reach *)

Ltac related_calls :=
  lazymatch goal with
  | |- related _ _ _ _ _ _ (then_ ?p ?f ?r) _ => apply (related_then _ _ _ _ _ p f r)
  | |- related _ _ _ _ _ _ (catch_ ?p ?r) _ => apply (related_then _ _ _ _ _ p HUndefined r)
  | |- related _ _ _ _ _ _ (fetchData _ _ _) _ => apply related_fetchData
  | |- related _ _ _ _ _ _ new_promise _ => apply related_new_promise
  | |- related _ _ _ _ _ _ (Promise_all _) _ => apply related_Promise_all
  | |- related _ _ _ _ _ _ (Promise_allSettled _) _ => apply related_Promise_allSettled
  | |- related _ _ _ _ _ _ (Promise_race _) _ => apply related_Promise_race
  | |- related _ _ _ _ _ _ (Promise_resolve _) _ => apply related_Promise_resolve
  | |- related _ _ _ _ _ _ (Promise_reject _) _ => apply related_Promise_reject
  | |- related _ _ _ _ _ _ (await_ _ _ _) _ => apply related_await
  | |- related _ _ _ _ _ _ (array_of _) _ =>
      apply related_array_of;
      let Hc := fresh in
      intros ? Hc;
      repeat (apply elem_of_cons in Hc as [-> | Hc]; [apply related_fetchData |]);
      by apply elem_of_nil in Hc
  | |- related _ _ _ _ _ _ (mret _) _ =>
      first [by apply related_ret | by apply (related_ret _ _ _ _ _ (λ _ _, True))]
  | |- related _ _ _ _ _ _ (_ ≫= _) _ =>
      eapply related_bind;
        [related_calls | intros ? ? ?; cbv beta in *; subst; related_calls]
  end.

Section demos.
Context (b ab : nat) (t0 : Z) (c0 : list line).

Local Abbreviation rel := (related true b ab t0 c0).
Local Abbreviation shifted := (λ d d' : nat, d' = (b + d)%nat).

Lemma related_demo_then_catch : rel shifted demo_then_catch demo_then_catch.
Proof. unfold demo_then_catch. related_calls. Qed.

Lemma related_getData : rel shifted getData getData.
Proof. unfold getData. related_calls. Qed.

Lemma related_getAllData : rel shifted getAllData getAllData.
Proof. unfold getAllData. related_calls. Qed.

Lemma related_getFastestData : rel shifted getFastestData getFastestData.
Proof. unfold getFastestData. related_calls. Qed.

Lemma related_fetchAllWithErrors : rel shifted fetchAllWithErrors fetchAllWithErrors.
Proof. unfold fetchAllWithErrors. related_calls. Qed.

Lemma related_fetchWithAllSettled : rel shifted fetchWithAllSettled fetchWithAllSettled.
Proof. unfold fetchWithAllSettled. related_calls. Qed.

Lemma related_script : rel (λ _ _, True) script script.
Proof.
  unfold script, demo_then_catch, getData, getAllData, getFastestData, alwaysResolve,
    alwaysReject, fetchAllWithErrors, fetchWithAllSettled.
  related_calls.
Qed.

End demos.

(** What each demonstration does when it is called in a state the script can
    reach, read off its run from the initial state. *)

Lemma sublist_singleton_elem {A} (x : A) (l : list A) : [x] `sublist_of` l → x ∈ l.
Proof.
  intros (k1 & k2 & -> & _)%sublist_cons_l. apply elem_of_app. right. by left.
Qed.

(** X12: [getData()], called in any state the script can reach: it returns a
    pending promise and logs nothing before it returns; when the loop has
    come to rest the promise it awaited is fulfilled with the data, the line
    of the [try] block is logged, and its own promise is fulfilled with
    [undefined]. *)
Theorem getData_in_any_state (st : state) :
  reachable st →
  let (retp, st1) := getData st in
  retp = next_pid st
  ∧ status_of st1 (next_pid st) = Some Pending
  ∧ console st1 = console st
  ∧ quiescent (run st1)
  ∧ status_of (run st1) (next_pid st) = Some (Fulfilled VUndefined)
  ∧ status_of (run st1) (next_pid st + 1) = Some (Fulfilled (VString "API 2 data"))
  ∧ ∃ ls, console (run st1) = console st ++ ls
        ∧ {| lvl := Log; args := [VString "Async/Await data:"; VString "API 2 data"] |}
          ∈ ls.
Proof.
  intros Hr.
  destruct (in_any_context (λ b d d', d' = (b + d)%nat) getData st
              (λ b ab t0 c0, related_getData b ab t0 c0) Hr)
    as (H1 & H2 & H3 & H4 & H5 & ls & H6 & H7).
  destruct (getData st) as [retp st1]. simpl in H1, H2, H3, H4, H5, H6, H7.
  assert (E0 : (getData init).1 = 0%nat) by reflexivity.
  assert (Ec : console (getData init).2 = []) by reflexivity.
  assert (El : console (run (getData init).2)
               = [ {| lvl := Log;
                      args := [VString "Async/Await data:";
                               VString "API 2 data"] |} ])
    by (by vm_compute).
  rewrite E0 in H1. rewrite Ec, app_nil_r in H3. rewrite El in H7.
  pose proof (H2 0%nat) as H20. rewrite Nat.add_0_r in H20. rewrite ?Nat.add_0_r in H1.
  pose proof (H5 0%nat) as H50. rewrite Nat.add_0_r in H50.
  split_and!; [done | .. |].
  - rewrite H20. by vm_compute.
  - done.
  - done.
  - rewrite H50. by vm_compute.
  - rewrite (H5 1%nat). by vm_compute.
  - exists ls. split; [done |]. by apply sublist_singleton_elem.
Qed.

Lemma getData_in_any_state_witness :
  reachable init
  ∧ let (retp, st1) := getData init in
    retp = next_pid init
    ∧ status_of st1 (next_pid init) = Some Pending
    ∧ console st1 = console init
    ∧ quiescent (run st1)
    ∧ status_of (run st1) (next_pid init) = Some (Fulfilled VUndefined)
    ∧ status_of (run st1) (next_pid init + 1) = Some (Fulfilled (VString "API 2 data"))
    ∧ ∃ ls, console (run st1) = console init ++ ls
        ∧ {| lvl := Log; args := [VString "Async/Await data:"; VString "API 2 data"] |}
          ∈ ls.
Proof.
  split; [apply reaches_refl |]. apply (getData_in_any_state init), reaches_refl.
Defined.

(** X13: [getAllData()], called in any state the script can reach: it returns a
    pending promise and logs nothing before it returns; when the loop has
    come to rest the promise of [Promise.all] is fulfilled with the three
    data in the order of the calls, the line of the [try] block is logged
    with the three data destructured in that order, and its own promise is
    fulfilled with [undefined]. *)
Theorem getAllData_in_any_state (st : state) :
  reachable st →
  let (retp, st1) := getAllData st in
  retp = next_pid st
  ∧ status_of st1 (next_pid st) = Some Pending
  ∧ console st1 = console st
  ∧ quiescent (run st1)
  ∧ status_of (run st1) (next_pid st) = Some (Fulfilled VUndefined)
  ∧ status_of (run st1) (next_pid st + 4)
    = Some (Fulfilled (VArray [VString "API 3 data"; VString "API 4 data";
                                VString "API 5 data"]))
  ∧ ∃ ls, console (run st1) = console st ++ ls
        ∧ {| lvl := Log;
               args := [VString "All data fetched:";
                        VString "API 3 data";
                        VString "API 4 data";
                        VString "API 5 data"] |}
          ∈ ls.
Proof.
  intros Hr.
  destruct (in_any_context (λ b d d', d' = (b + d)%nat) getAllData st
              (λ b ab t0 c0, related_getAllData b ab t0 c0) Hr)
    as (H1 & H2 & H3 & H4 & H5 & ls & H6 & H7).
  destruct (getAllData st) as [retp st1]. simpl in H1, H2, H3, H4, H5, H6, H7.
  assert (E0 : (getAllData init).1 = 0%nat) by reflexivity.
  assert (Ec : console (getAllData init).2 = []) by reflexivity.
  assert (El : console (run (getAllData init).2)
               = [ {| lvl := Log;
                      args := [VString "All data fetched:";
                               VString "API 3 data";
                               VString "API 4 data";
                               VString "API 5 data"] |} ])
    by (by vm_compute).
  rewrite E0 in H1. rewrite Ec, app_nil_r in H3. rewrite El in H7.
  pose proof (H2 0%nat) as H20. rewrite Nat.add_0_r in H20. rewrite ?Nat.add_0_r in H1.
  pose proof (H5 0%nat) as H50. rewrite Nat.add_0_r in H50.
  split_and!; [done | .. |].
  - rewrite H20. by vm_compute.
  - done.
  - done.
  - rewrite H50. by vm_compute.
  - rewrite (H5 4%nat). by vm_compute.
  - exists ls. split; [done |]. by apply sublist_singleton_elem.
Qed.

Lemma getAllData_in_any_state_witness :
  reachable init
  ∧ let (retp, st1) := getAllData init in
    retp = next_pid init
    ∧ status_of st1 (next_pid init) = Some Pending
    ∧ console st1 = console init
    ∧ quiescent (run st1)
    ∧ status_of (run st1) (next_pid init) = Some (Fulfilled VUndefined)
    ∧ status_of (run st1) (next_pid init + 4)
      = Some (Fulfilled (VArray [VString "API 3 data"; VString "API 4 data";
                                  VString "API 5 data"]))
    ∧ ∃ ls, console (run st1) = console init ++ ls
        ∧ {| lvl := Log;
                 args := [VString "All data fetched:";
                          VString "API 3 data";
                          VString "API 4 data";
                          VString "API 5 data"] |}
          ∈ ls.
Proof.
  split; [apply reaches_refl |]. apply (getAllData_in_any_state init), reaches_refl.
Defined.

(** X14: [getFastestData()], called in any state the script can reach: it returns
    a pending promise and logs nothing before it returns; when the loop has
    come to rest the promise of [Promise.race] is fulfilled with the data of
    the fastest call, the line of the [try] block is logged with it, the two
    slower calls are fulfilled all the same, and its own promise is
    fulfilled with [undefined]. *)
Theorem getFastestData_in_any_state (st : state) :
  reachable st →
  let (retp, st1) := getFastestData st in
  retp = next_pid st
  ∧ status_of st1 (next_pid st) = Some Pending
  ∧ console st1 = console st
  ∧ quiescent (run st1)
  ∧ status_of (run st1) (next_pid st) = Some (Fulfilled VUndefined)
  ∧ status_of (run st1) (next_pid st + 4) = Some (Fulfilled (VString "Fast API data"))
  ∧ status_of (run st1) (next_pid st + 2) = Some (Fulfilled (VString "Slower API data"))
  ∧ status_of (run st1) (next_pid st + 3) = Some (Fulfilled (VString "Slowest API data"))
  ∧ ∃ ls, console (run st1) = console st ++ ls
        ∧ {| lvl := Log;
               args := [VString "Fastest data received:";
                        VString "Fast API data"] |}
          ∈ ls.
Proof.
  intros Hr.
  destruct (in_any_context (λ b d d', d' = (b + d)%nat) getFastestData st
              (λ b ab t0 c0, related_getFastestData b ab t0 c0) Hr)
    as (H1 & H2 & H3 & H4 & H5 & ls & H6 & H7).
  destruct (getFastestData st) as [retp st1]. simpl in H1, H2, H3, H4, H5, H6, H7.
  assert (E0 : (getFastestData init).1 = 0%nat) by reflexivity.
  assert (Ec : console (getFastestData init).2 = []) by reflexivity.
  assert (El : console (run (getFastestData init).2)
               = [ {| lvl := Log;
                      args := [VString "Fastest data received:";
                               VString "Fast API data"] |} ])
    by (by vm_compute).
  rewrite E0 in H1. rewrite Ec, app_nil_r in H3. rewrite El in H7.
  pose proof (H2 0%nat) as H20. rewrite Nat.add_0_r in H20. rewrite ?Nat.add_0_r in H1.
  pose proof (H5 0%nat) as H50. rewrite Nat.add_0_r in H50.
  split_and!; [done | .. |].
  - rewrite H20. by vm_compute.
  - done.
  - done.
  - rewrite H50. by vm_compute.
  - rewrite (H5 4%nat). by vm_compute.
  - rewrite (H5 2%nat). by vm_compute.
  - rewrite (H5 3%nat). by vm_compute.
  - exists ls. split; [done |]. by apply sublist_singleton_elem.
Qed.

Lemma getFastestData_in_any_state_witness :
  reachable init
  ∧ let (retp, st1) := getFastestData init in
    retp = next_pid init
    ∧ status_of st1 (next_pid init) = Some Pending
    ∧ console st1 = console init
    ∧ quiescent (run st1)
    ∧ status_of (run st1) (next_pid init) = Some (Fulfilled VUndefined)
    ∧ status_of (run st1) (next_pid init + 4) = Some (Fulfilled (VString "Fast API data"))
    ∧ status_of (run st1) (next_pid init + 2) = Some (Fulfilled (VString "Slower API data"))
    ∧ status_of (run st1) (next_pid init + 3)
      = Some (Fulfilled (VString "Slowest API data"))
    ∧ ∃ ls, console (run st1) = console init ++ ls
        ∧ {| lvl := Log;
                 args := [VString "Fastest data received:";
                          VString "Fast API data"] |}
          ∈ ls.
Proof.
  split; [apply reaches_refl |]. apply (getFastestData_in_any_state init), reaches_refl.
Defined.

(** X15: [fetchAllWithErrors()], called in any state the script can reach: it
    returns a pending promise and logs nothing before it returns; when the
    loop has come to rest the promise of [Promise.all] is rejected with the
    reason of the call that fails, the [catch] block has logged it at level
    error, the two other calls are fulfilled all the same, and its own
    promise is fulfilled with [undefined]: the failure does not reach the
    caller. *)
Theorem fetchAllWithErrors_in_any_state (st : state) :
  reachable st →
  let (retp, st1) := fetchAllWithErrors st in
  retp = next_pid st
  ∧ status_of st1 (next_pid st) = Some Pending
  ∧ console st1 = console st
  ∧ quiescent (run st1)
  ∧ status_of (run st1) (next_pid st) = Some (Fulfilled VUndefined)
  ∧ status_of (run st1) (next_pid st + 4)
    = Some (Rejected (VString "Error fetching data from API 7"))
  ∧ status_of (run st1) (next_pid st + 1) = Some (Fulfilled (VString "API 6 data"))
  ∧ status_of (run st1) (next_pid st + 3) = Some (Fulfilled (VString "API 8 data"))
  ∧ ∃ ls, console (run st1) = console st ++ ls
        ∧ {| lvl := Error;
               args := [VString "Error in one of the APIs:";
                        VString "Error fetching data from API 7"] |}
          ∈ ls.
Proof.
  intros Hr.
  destruct (in_any_context (λ b d d', d' = (b + d)%nat) fetchAllWithErrors st
              (λ b ab t0 c0, related_fetchAllWithErrors b ab t0 c0) Hr)
    as (H1 & H2 & H3 & H4 & H5 & ls & H6 & H7).
  destruct (fetchAllWithErrors st) as [retp st1]. simpl in H1, H2, H3, H4, H5, H6, H7.
  assert (E0 : (fetchAllWithErrors init).1 = 0%nat) by reflexivity.
  assert (Ec : console (fetchAllWithErrors init).2 = []) by reflexivity.
  assert (El : console (run (fetchAllWithErrors init).2)
               = [ {| lvl := Error;
                      args := [VString "Error in one of the APIs:";
                               VString "Error fetching data from API 7"] |} ])
    by (by vm_compute).
  rewrite E0 in H1. rewrite Ec, app_nil_r in H3. rewrite El in H7.
  pose proof (H2 0%nat) as H20. rewrite Nat.add_0_r in H20. rewrite ?Nat.add_0_r in H1.
  pose proof (H5 0%nat) as H50. rewrite Nat.add_0_r in H50.
  split_and!; [done | .. |].
  - rewrite H20. by vm_compute.
  - done.
  - done.
  - rewrite H50. by vm_compute.
  - rewrite (H5 4%nat). by vm_compute.
  - rewrite (H5 1%nat). by vm_compute.
  - rewrite (H5 3%nat). by vm_compute.
  - exists ls. split; [done |]. by apply sublist_singleton_elem.
Qed.

Lemma fetchAllWithErrors_in_any_state_witness :
  reachable init
  ∧ let (retp, st1) := fetchAllWithErrors init in
    retp = next_pid init
    ∧ status_of st1 (next_pid init) = Some Pending
    ∧ console st1 = console init
    ∧ quiescent (run st1)
    ∧ status_of (run st1) (next_pid init) = Some (Fulfilled VUndefined)
    ∧ status_of (run st1) (next_pid init + 4)
      = Some (Rejected (VString "Error fetching data from API 7"))
    ∧ status_of (run st1) (next_pid init + 1) = Some (Fulfilled (VString "API 6 data"))
    ∧ status_of (run st1) (next_pid init + 3) = Some (Fulfilled (VString "API 8 data"))
    ∧ ∃ ls, console (run st1) = console init ++ ls
        ∧ {| lvl := Error;
                 args := [VString "Error in one of the APIs:";
                          VString "Error fetching data from API 7"] |}
          ∈ ls.
Proof.
  split; [apply reaches_refl |]. apply (fetchAllWithErrors_in_any_state init), reaches_refl.
Defined.

(** X16: [fetchWithAllSettled()], called in any state the script can reach: it
    returns a pending promise and logs nothing before it returns; when the
    loop has come to rest its own promise is fulfilled with [undefined] and
    the three results are logged in the order of the calls, not of their
    settlement: API 9 at level log, API 10, which fails (and settles first),
    at level warn, API 11 at level log. *)
Theorem fetchWithAllSettled_in_any_state (st : state) :
  reachable st →
  let (retp, st1) := fetchWithAllSettled st in
  retp = next_pid st
  ∧ status_of st1 (next_pid st) = Some Pending
  ∧ console st1 = console st
  ∧ quiescent (run st1)
  ∧ status_of (run st1) (next_pid st) = Some (Fulfilled VUndefined)
  ∧ status_of (run st1) (next_pid st + 2)
    = Some (Rejected (VString "Error fetching data from API 10"))
  ∧ ∃ ls, console (run st1) = console st ++ ls
        ∧ [ {| lvl := Log;
                 args := [VString "API 9 succeeded with data:";
                          VString "API 9 data"] |};
            {| lvl := Warn;
                 args := [VString "API 10 failed with reason:";
                          VString "Error fetching data from API 10"] |};
            {| lvl := Log;
                 args := [VString "API 11 succeeded with data:";
                          VString "API 11 data"] |} ]
          `sublist_of` ls.
Proof.
  intros Hr.
  destruct (in_any_context (λ b d d', d' = (b + d)%nat) fetchWithAllSettled st
              (λ b ab t0 c0, related_fetchWithAllSettled b ab t0 c0) Hr)
    as (H1 & H2 & H3 & H4 & H5 & ls & H6 & H7).
  destruct (fetchWithAllSettled st) as [retp st1]. simpl in H1, H2, H3, H4, H5, H6, H7.
  assert (E0 : (fetchWithAllSettled init).1 = 0%nat) by reflexivity.
  assert (Ec : console (fetchWithAllSettled init).2 = []) by reflexivity.
  assert (El : console (run (fetchWithAllSettled init).2)
               = [ {| lvl := Log;
                      args := [VString "API 9 succeeded with data:";
                               VString "API 9 data"] |};
                   {| lvl := Warn;
                      args := [VString "API 10 failed with reason:";
                               VString "Error fetching data from API 10"] |};
                   {| lvl := Log;
                      args := [VString "API 11 succeeded with data:";
                               VString "API 11 data"] |} ])
    by (by vm_compute).
  rewrite E0 in H1. rewrite Ec, app_nil_r in H3. rewrite El in H7.
  pose proof (H2 0%nat) as H20. rewrite Nat.add_0_r in H20. rewrite ?Nat.add_0_r in H1.
  pose proof (H5 0%nat) as H50. rewrite Nat.add_0_r in H50.
  split_and!; [done | .. |].
  - rewrite H20. by vm_compute.
  - done.
  - done.
  - rewrite H50. by vm_compute.
  - rewrite (H5 2%nat). by vm_compute.
  - exists ls. by split.
Qed.

Lemma fetchWithAllSettled_in_any_state_witness :
  reachable init
  ∧ let (retp, st1) := fetchWithAllSettled init in
    retp = next_pid init
    ∧ status_of st1 (next_pid init) = Some Pending
    ∧ console st1 = console init
    ∧ quiescent (run st1)
    ∧ status_of (run st1) (next_pid init) = Some (Fulfilled VUndefined)
    ∧ status_of (run st1) (next_pid init + 2)
      = Some (Rejected (VString "Error fetching data from API 10"))
    ∧ ∃ ls, console (run st1) = console init ++ ls
        ∧ [ {| lvl := Log;
                   args := [VString "API 9 succeeded with data:";
                            VString "API 9 data"] |};
            {| lvl := Warn;
                   args := [VString "API 10 failed with reason:";
                            VString "Error fetching data from API 10"] |};
            {| lvl := Log;
                   args := [VString "API 11 succeeded with data:";
                            VString "API 11 data"] |} ]
          `sublist_of` ls.
Proof.
  split; [apply reaches_refl |]. apply (fetchWithAllSettled_in_any_state init), reaches_refl.
Defined.

Lemma script_console_run :
  console (run (script init).2) = console (run_script script).2.
Proof. unfold run_script. by destruct (script init). Qed.

(** ** The chain of lines 38 to 44, on any call of [fetchData] *)

Lemma related_chain b ab t0 c0 name delay shouldFail :
  related true b ab t0 c0 (λ d d', d' = (b + d)%nat)
    (p ← fetchData name (Some delay) (Some shouldFail);
     d ← then_ p (HArrow Log "Data received:") HUndefined;
     catch_ d (HArrow Error "Failed to fetch data:"))
    (p ← fetchData name (Some delay) (Some shouldFail);
     d ← then_ p (HArrow Log "Data received:") HUndefined;
     catch_ d (HArrow Error "Failed to fetch data:")).
Proof. related_calls. Qed.

(** X11: the chain [.then(...).catch(...)] of lines 38 to 44 on the promise of any
    call of [fetchData], made in any state the script can reach: the three
    promises are pending when the statement is done and nothing is logged
    yet. When the loop has come to rest: if the call succeeds, the handler
    of [then] has logged the data and both derived promises are fulfilled
    with [undefined]; if it fails, the promise of [then], which has no
    handler for a rejection, is rejected with the same reason, the handler
    of [catch] has logged the reason at level error, and the promise of
    [catch] is fulfilled with [undefined]. *)
Theorem then_catch_chain_in_any_state (st : state) (name : string) (delay : Z)
    (shouldFail : bool) :
  reachable st →
  let (c, st1) := (p ← fetchData name (Some delay) (Some shouldFail);
                   d ← then_ p (HArrow Log "Data received:") HUndefined;
                   catch_ d (HArrow Error "Failed to fetch data:")) st in
  c = (next_pid st + 2)%nat
  ∧ status_of st1 (next_pid st) = Some Pending
  ∧ status_of st1 (next_pid st + 1) = Some Pending
  ∧ status_of st1 (next_pid st + 2) = Some Pending
  ∧ console st1 = console st
  ∧ quiescent (run st1)
  ∧ status_of (run st1) (next_pid st) = Some (outcome name shouldFail)
  ∧ status_of (run st1) (next_pid st + 1)
    = Some (if shouldFail then Rejected (VString ("Error fetching data from " ++ name))
            else Fulfilled VUndefined)
  ∧ status_of (run st1) (next_pid st + 2) = Some (Fulfilled VUndefined)
  ∧ ∃ ls, console (run st1) = console st ++ ls
          ∧ (if shouldFail
             then {| lvl := Error;
                     args := [VString "Failed to fetch data:";
                              VString ("Error fetching data from " ++ name)] |}
             else {| lvl := Log;
                     args := [VString "Data received:"; VString (name ++ " data")] |})
            ∈ ls.
Proof.
  intros Hr.
  destruct (in_any_context (λ b d d', d' = (b + d)%nat) _ st
              (λ b ab t0 c0, related_chain b ab t0 c0 name delay shouldFail) Hr)
    as (H1 & H2 & H3 & H4 & H5 & ls & H6 & H7).
  match goal with
  | |- context [let (_, _) := ?m st in _] => destruct (m st) as [c st1]
  end.
  simpl fst in *. simpl snd in *.
  match type of H7 with
  | sublist (console (run ?s0)) _ =>
      assert (El : console (run s0)
                   = [if shouldFail
                      then {| lvl := Error;
                              args := [VString "Failed to fetch data:";
                                       VString ("Error fetching data from " ++ name)] |}
                      else {| lvl := Log;
                              args := [VString "Data received:";
                                       VString (name ++ " data")] |}])
        by (destruct shouldFail; by vm_compute)
  end.
  rewrite El in H7. rewrite app_nil_r in H3.
  pose proof (H2 0%nat) as H20. rewrite Nat.add_0_r in H20.
  pose proof (H5 0%nat) as H50. rewrite Nat.add_0_r in H50.
  split_and!; [done | .. |].
  - rewrite H20. by vm_compute.
  - rewrite (H2 1%nat). by vm_compute.
  - rewrite (H2 2%nat). by vm_compute.
  - done.
  - done.
  - rewrite H50. destruct shouldFail; by vm_compute.
  - rewrite (H5 1%nat). destruct shouldFail; by vm_compute.
  - rewrite (H5 2%nat). destruct shouldFail; by vm_compute.
  - exists ls. split; [done |]. by apply sublist_singleton_elem.
Qed.

Lemma then_catch_chain_in_any_state_witness :
  reachable init
  ∧ let (c, st1) := (p ← fetchData "API 1" (Some 500) (Some false);
                     d ← then_ p (HArrow Log "Data received:") HUndefined;
                     catch_ d (HArrow Error "Failed to fetch data:")) init in
    c = (next_pid init + 2)%nat
    ∧ status_of st1 (next_pid init) = Some Pending
    ∧ status_of st1 (next_pid init + 1) = Some Pending
    ∧ status_of st1 (next_pid init + 2) = Some Pending
    ∧ console st1 = console init
    ∧ quiescent (run st1)
    ∧ status_of (run st1) (next_pid init) = Some (outcome "API 1" false)
    ∧ status_of (run st1) (next_pid init + 1)
      = Some (if false then Rejected (VString ("Error fetching data from " ++ "API 1"))
              else Fulfilled VUndefined)
    ∧ status_of (run st1) (next_pid init + 2) = Some (Fulfilled VUndefined)
    ∧ ∃ ls, console (run st1) = console init ++ ls
            ∧ (if false
               then {| lvl := Error;
                       args := [VString "Failed to fetch data:";
                                VString ("Error fetching data from " ++ "API 1")] |}
               else {| lvl := Log;
                       args := [VString "Data received:"; VString ("API 1" ++ " data")] |})
              ∈ ls.
Proof.
  split; [apply reaches_refl |].
  apply (then_catch_chain_in_any_state init "API 1" 500 false), reaches_refl.
Defined.

(** ** The script as a whole *)

(** X17: the whole script, run in any state it can reach (the initial state, or
    the state another run has left): nothing is logged before the last
    statement is done; when the loop has come to rest its ten lines have
    been logged in this order. The handlers of the two promises that are
    settled from the start come first; the timers follow in the order of
    their delays, the earlier call first when two delays are equal; the line
    of [getAllData], which waits for the longest delay, comes last. *)
Theorem script_in_any_state (st : state) :
  reachable st →
  console (script st).2 = console st
  ∧ quiescent (run (script st).2)
  ∧ ∃ ls, console (run (script st).2) = console st ++ ls
          ∧ [ {| lvl := Log; args := [VString "Resolved:"; VString "This is resolved data"] |};
              {| lvl := Error;
                 args := [VString "Rejected:"; VString "This promise is always rejected"] |};
              {| lvl := Log; args := [VString "Data received:"; VString "API 1 data"] |};
              {| lvl := Log;
                 args := [VString "Fastest data received:"; VString "Fast API data"] |};
              {| lvl := Log; args := [VString "Async/Await data:"; VString "API 2 data"] |};
              {| lvl := Error;
                 args := [VString "Error in one of the APIs:";
                          VString "Error fetching data from API 7"] |};
              {| lvl := Log;
                 args := [VString "API 9 succeeded with data:"; VString "API 9 data"] |};
              {| lvl := Warn;
                 args := [VString "API 10 failed with reason:";
                          VString "Error fetching data from API 10"] |};
              {| lvl := Log;
                 args := [VString "API 11 succeeded with data:"; VString "API 11 data"] |};
              {| lvl := Log;
                 args := [VString "All data fetched:"; VString "API 3 data";
                          VString "API 4 data"; VString "API 5 data"] |} ]
            `sublist_of` ls.
Proof.
  intros Hr.
  destruct (in_any_context (λ _ _ _, True) script st
              (λ b ab t0 c0, related_script b ab t0 c0) Hr)
    as (_ & _ & H3 & H4 & _ & ls & H6 & H7).
  assert (Ec : console (script init).2 = []) by (by vm_compute).
  rewrite Ec, app_nil_r in H3. rewrite script_console_run, script_console in H7.
  split; [exact H3 |]. split; [exact H4 |]. exists ls. split; [exact H6 | exact H7].
Qed.

Lemma script_in_any_state_witness :
  reachable init
  ∧ console (script init).2 = console init
  ∧ quiescent (run (script init).2)
  ∧ ∃ ls, console (run (script init).2) = console init ++ ls
          ∧ [ {| lvl := Log; args := [VString "Resolved:"; VString "This is resolved data"] |};
              {| lvl := Error;
                 args := [VString "Rejected:"; VString "This promise is always rejected"] |};
              {| lvl := Log; args := [VString "Data received:"; VString "API 1 data"] |};
              {| lvl := Log;
                 args := [VString "Fastest data received:"; VString "Fast API data"] |};
              {| lvl := Log; args := [VString "Async/Await data:"; VString "API 2 data"] |};
              {| lvl := Error;
                 args := [VString "Error in one of the APIs:";
                          VString "Error fetching data from API 7"] |};
              {| lvl := Log;
                 args := [VString "API 9 succeeded with data:"; VString "API 9 data"] |};
              {| lvl := Warn;
                 args := [VString "API 10 failed with reason:";
                          VString "Error fetching data from API 10"] |};
              {| lvl := Log;
                 args := [VString "API 11 succeeded with data:"; VString "API 11 data"] |};
              {| lvl := Log;
                 args := [VString "All data fetched:"; VString "API 3 data";
                          VString "API 4 data"; VString "API 5 data"] |} ]
            `sublist_of` ls.
Proof.
  split; [apply reaches_refl |]. apply (script_in_any_state init), reaches_refl.
Defined.
